(** * ContactSim: a shallow embedding of [contactsim/contactsim.py]

    The simulation moves radio actors in a bounded plane, forms pairwise
    meetings at random and logs received-power readings.

    Conventions of the embedding.
    - Python numbers (the [int]s and [float]s of positions, powers, times)
      are read as mathematical reals [R]: rounding, infinities and NaN are
      not modelled.  The exceptions that the arithmetic of the source can
      raise ([ZeroDivisionError] of [/], the domain error of [math.log10],
      the [AttributeError] of reading an attribute that was never assigned)
      are modelled: a computation that raises returns [None].
    - Actors are mutable objects shared between the simulation and its
      caller.  They live in a store [heap : loc -> Actor.t]; the
      simulation's [actors] list holds references [loc].
    - A method of [Actor] is a function from the receiver to the result
      and the receiver after the call.
    - [random.random()], [scipy.stats.norm.cdf] and [scipy.stats.norm.rvs]
      are library code: the values they return are parameters of the
      model.  [stats.norm.rvs] raises on a negative [scale]; the model
      has this error.  The state counts the calls made to the two
      generators.
    - The constructor keeps the list object it is given, and [addActor]
      appends to it in place, until the first tick binds [self.actors] to
      a new list.  The simulation holds the list as a value; where the
      caller reads that list again, in the driving loop, the sharing is
      modelled.
    - [print] is left out. *)

From Stdlib Require Import Reals Lra Lia ZArith List Bool String Permutation.
Import ListNotations.

Local Open Scope R_scope.

(** ** Comparisons of reals as booleans *)

Definition Rleb (a b : R) : bool := if Rle_dec a b then true else false.
Definition Rltb (a b : R) : bool := if Rlt_dec a b then true else false.
Definition Rgeb (a b : R) : bool := Rleb b a.
Definition Rgtb (a b : R) : bool := Rltb b a.

(** [math.log10]. *)
Definition log10 (v : R) : R := ln v / ln 10.

(** Python's [int(v)] on a float: truncation toward zero. *)
Definition int (v : R) : Z := if Rle_dec 0 v then Zfloor v else Zceil v.

(** ** class Actor *)

Module Actor.

Record t := mk {
  id : Z;
  powerTx : R;
  gainTx : R;
  gainRx : R;
  x : R;
  y : R;
  angle : R;
  speed : R;
  included : bool;
  deviceModel : string;
  (* assigned by setVelocity only; absent on a fresh Actor *)
  xComponent : option R;
  yComponent : option R
}.

(** A method: the receiver goes in; the result and the receiver after
    the call come out, or [None] when the call raises. *)
Definition method (A : Type) : Type := t -> option (A * t).

(** [Actor.__init__] *)
Definition init (id : Z) (powerTransmitter gainTransmitter gainReceiver : R)
    (deviceModel : string) : t :=
  mk id powerTransmitter gainTransmitter gainReceiver 0 0 0 0 true
     deviceModel None None.

Definition set_deviceModel (self : t) (m : string) : t :=
  mk (id self) (powerTx self) (gainTx self) (gainRx self) (x self) (y self)
     (angle self) (speed self) (included self) m
     (xComponent self) (yComponent self).

Definition set_xy (self : t) (newX newY : R) : t :=
  mk (id self) (powerTx self) (gainTx self) (gainRx self) newX newY
     (angle self) (speed self) (included self) (deviceModel self)
     (xComponent self) (yComponent self).

Definition set_velocity (self : t) (a s xc yc : R) : t :=
  mk (id self) (powerTx self) (gainTx self) (gainRx self) (x self) (y self)
     a s (included self) (deviceModel self) (Some xc) (Some yc).

Definition set_included (self : t) (b : bool) : t :=
  mk (id self) (powerTx self) (gainTx self) (gainRx self) (x self) (y self)
     (angle self) (speed self) b (deviceModel self)
     (xComponent self) (yComponent self).

Definition setModel (newModel : string) : method unit :=
  fun self => Some (tt, set_deviceModel self newModel).

Definition setPosition (newX newY : R) : method unit :=
  fun self => Some (tt, set_xy self newX newY).

Definition setVelocity (newAngleRadians newSpeed : R) : method unit :=
  fun self =>
    Some (tt, set_velocity self newAngleRadians newSpeed
                (cos newAngleRadians * newSpeed)
                (sin newAngleRadians * newSpeed)).

Definition updatePosition (secondsElapsed : R) : method unit :=
  fun self =>
    match xComponent self, yComponent self with
    | Some xc, Some yc =>
        let yDiff := xc * secondsElapsed in
        let xDiff := yc * secondsElapsed in
        Some (tt, set_xy self (x self + xDiff) (y self + yDiff))
    | _, _ => None
    end.

Definition powerReceiver
    (wavelength distance otherPowerTransmitter otherGainTransmitter : R)
    : method R :=
  fun self =>
    let divisor := 4 * PI * distance in
    if Req_dec_T divisor 0 then None            (* ZeroDivisionError *)
    else
      let operand := wavelength / divisor in
      if Rle_dec operand 0 then None            (* math domain error *)
      else Some (gainRx self + otherPowerTransmitter + otherGainTransmitter
                   + 20 * log10 operand, self).

End Actor.

(** ** class Meeting *)

Module Meeting.

Record t := mk {
  start : R;
  end_ : R;
  participants : list Z
}.

Definition stillMeeting (self : t) (tickNow : R) : bool :=
  Rgeb tickNow (start self) && Rleb tickNow (end_ self).

Definition hasParticipant (self : t) (participantId : Z) : bool :=
  existsb (Z.eqb participantId) (participants self).

Definition duration (self : t) : R := end_ self - start self.

End Meeting.

(** ** Helpers for the control flow of the source *)

(** A [for] loop whose body may raise: the state is threaded through the
    elements in order and the first [None] aborts the loop. *)
Fixpoint for_each {A S : Type} (l : list A) (body : A -> S -> option S)
    (s : S) : option S :=
  match l with
  | [] => Some s
  | a :: l' =>
      match body a s with
      | None => None
      | Some s' => for_each l' body s'
      end
  end.

(** Python's [enumerate(l, start)]: every element of [l], numbered from
    [start]. *)
Fixpoint enumerate {A : Type} (l : list A) (start : nat) : list (nat * A) :=
  match l with
  | [] => []
  | a :: l' => (start, a) :: enumerate l' (S start)
  end.

(** Python's [sorted] on a list of identifiers. *)
Fixpoint insert_sorted (a : Z) (l : list Z) : list Z :=
  match l with
  | [] => [a]
  | b :: l' => if (a <=? b)%Z then a :: l else b :: insert_sorted a l'
  end.

Fixpoint sorted (l : list Z) : list Z :=
  match l with
  | [] => []
  | a :: l' => insert_sorted a (sorted l')
  end.

(** A reading: (time, receiver id, transmitter id, received power,
    receiver model, transmitter model). *)
Definition Reading : Type := (R * Z * Z * R * string * string)%type.

(** References to actor objects. *)
Definition loc : Type := nat.

Definition upd (h : loc -> Actor.t) (l : loc) (a : Actor.t) : loc -> Actor.t :=
  fun k => if Nat.eqb k l then a else h k.

(** ** class Simulation *)

Module Simulation.

Record t := mk {
  heap : loc -> Actor.t;          (* the actor objects *)
  actors : list loc;
  radioFrequency : R;
  maxRange : R;
  c : R;
  wavelength : R;
  time : R;
  readings : list Reading;
  minX : R;
  minY : R;
  maxX : R;
  maxY : R;
  meetings : list Meeting.t;
  meetingDurationMean : R;
  meetingDurationSd : R;
  meetingDistanceMean : R;
  meetingDistanceSd : R;
  meetingChance : R;
  meetingMaxRange : R;
  randomCalls : nat;              (* calls made to random.random() *)
  rvsCalls : nat                  (* calls made to stats.norm.rvs *)
}.

Definition set_heap (s : t) (h : loc -> Actor.t) : t :=
  mk h (actors s) (radioFrequency s) (maxRange s) (c s) (wavelength s)
     (time s) (readings s) (minX s) (minY s) (maxX s) (maxY s) (meetings s)
     (meetingDurationMean s) (meetingDurationSd s) (meetingDistanceMean s)
     (meetingDistanceSd s) (meetingChance s) (meetingMaxRange s)
     (randomCalls s) (rvsCalls s).

Definition set_actors (s : t) (l : list loc) : t :=
  mk (heap s) l (radioFrequency s) (maxRange s) (c s) (wavelength s)
     (time s) (readings s) (minX s) (minY s) (maxX s) (maxY s) (meetings s)
     (meetingDurationMean s) (meetingDurationSd s) (meetingDistanceMean s)
     (meetingDistanceSd s) (meetingChance s) (meetingMaxRange s)
     (randomCalls s) (rvsCalls s).

Definition set_time (s : t) (v : R) : t :=
  mk (heap s) (actors s) (radioFrequency s) (maxRange s) (c s) (wavelength s)
     v (readings s) (minX s) (minY s) (maxX s) (maxY s) (meetings s)
     (meetingDurationMean s) (meetingDurationSd s) (meetingDistanceMean s)
     (meetingDistanceSd s) (meetingChance s) (meetingMaxRange s)
     (randomCalls s) (rvsCalls s).

Definition set_readings (s : t) (rs : list Reading) : t :=
  mk (heap s) (actors s) (radioFrequency s) (maxRange s) (c s) (wavelength s)
     (time s) rs (minX s) (minY s) (maxX s) (maxY s) (meetings s)
     (meetingDurationMean s) (meetingDurationSd s) (meetingDistanceMean s)
     (meetingDistanceSd s) (meetingChance s) (meetingMaxRange s)
     (randomCalls s) (rvsCalls s).

Definition set_meetings (s : t) (ms : list Meeting.t) : t :=
  mk (heap s) (actors s) (radioFrequency s) (maxRange s) (c s) (wavelength s)
     (time s) (readings s) (minX s) (minY s) (maxX s) (maxY s) ms
     (meetingDurationMean s) (meetingDurationSd s) (meetingDistanceMean s)
     (meetingDistanceSd s) (meetingChance s) (meetingMaxRange s)
     (randomCalls s) (rvsCalls s).

Definition set_randomCalls (s : t) (n : nat) : t :=
  mk (heap s) (actors s) (radioFrequency s) (maxRange s) (c s) (wavelength s)
     (time s) (readings s) (minX s) (minY s) (maxX s) (maxY s) (meetings s)
     (meetingDurationMean s) (meetingDurationSd s) (meetingDistanceMean s)
     (meetingDistanceSd s) (meetingChance s) (meetingMaxRange s)
     n (rvsCalls s).

Definition set_rvsCalls (s : t) (n : nat) : t :=
  mk (heap s) (actors s) (radioFrequency s) (maxRange s) (c s) (wavelength s)
     (time s) (readings s) (minX s) (minY s) (maxX s) (maxY s) (meetings s)
     (meetingDurationMean s) (meetingDurationSd s) (meetingDistanceMean s)
     (meetingDistanceSd s) (meetingChance s) (meetingMaxRange s)
     (randomCalls s) n.

(** [Simulation.__init__]: the division [c / frequency] raises on a zero
    frequency.  [h] is the store the actor references point into. *)
Definition init (h : loc -> Actor.t) (actors : list loc)
    (frequency maxEffectRange minX maxX minY maxY
     meetingDurationMean meetingDurationSd
     meetingDistanceMean meetingDistanceSd
     meetingChance meetingMaxRange : R) : option t :=
  let c := 2999100 in
  if Req_dec_T frequency 0 then None
  else
    let wavelength := c / frequency in
    Some (mk h actors frequency maxEffectRange c wavelength 0 []
             minX minY maxX maxY []
             meetingDurationMean meetingDurationSd
             meetingDistanceMean meetingDistanceSd
             meetingChance meetingMaxRange 0%nat 0%nat).

(** Calling a method on the actor object behind a reference. *)
Definition call {A : Type} (m : Actor.method A) (l : loc) (s : t)
    : option (A * t) :=
  match m (heap s l) with
  | None => None
  | Some (r, self') => Some (r, set_heap s (upd (heap s) l self'))
  end.

Definition addActor (newActor : loc) (s : t) : t :=
  set_actors s (actors s ++ [newActor]).

Definition isInMeeting (s : t) (participantId : Z) (tickNow : R) : bool :=
  existsb (fun meeting =>
             Meeting.hasParticipant meeting participantId
             && Meeting.stillMeeting meeting tickNow)
          (meetings s).

Definition getMeeting (s : t) (participantIds : list Z) : option Meeting.t :=
  find (fun meeting =>
          if list_eq_dec Z.eq_dec (sorted (Meeting.participants meeting))
                                  (sorted participantIds)
          then true else false)
       (meetings s).

(** The end tick of a new meeting (lines 324-326): the sampled duration is
    added to the clock, converted by [int], and raised to [time + 1]. *)
Definition endTime (time sample : R) : R :=
  let endTime := IZR (int (time + sample)) in
  if Rltb endTime (time + 1) then time + 1 else endTime.

Section Step.

(** [random_random n]: the value of the [n]-th call of [random.random()].
    [norm_cdf x loc scale]: [stats.norm.cdf(x, loc, scale)].
    [norm_rvs n loc scale]: the sample of the [n]-th call of
    [stats.norm.rvs(loc, scale)], where the call returns. *)
Variable random_random : nat -> R.
Variable norm_cdf : R -> R -> R -> R.
Variable norm_rvs : nat -> R -> R -> R.

(** Body of the movement loop (lines 283-293) for one element of
    [self.actors]; [remainingActors] is the local list being built. *)
Definition move (secondsElapsed : R) (l : loc) (st : t * list loc)
    : option (t * list loc) :=
  let '(s, remainingActors) := st in
  if Actor.included (heap s l) then
    if negb (isInMeeting s (Actor.id (heap s l)) (time s)) then
      match call (Actor.updatePosition secondsElapsed) l s with
      | None => None
      | Some (_, s1) =>
          let actor := heap s1 l in
          if Rltb (Actor.x actor) (minX s1) || Rgtb (Actor.x actor) (maxX s1)
             || Rltb (Actor.y actor) (minY s1)
             || Rgtb (Actor.y actor) (maxY s1)
          then Some (set_heap s1 (upd (heap s1) l
                                    (Actor.set_included actor false)),
                     remainingActors)
          else Some (s1, remainingActors ++ [l])
      end
    else Some (s, remainingActors ++ [l])
  else Some (s, remainingActors).

(** Distance of two actors (line 306). *)
Definition distance (actorRx actorTx : Actor.t) : R :=
  sqrt ((Actor.x actorRx - Actor.x actorTx) ^ 2
        + (Actor.y actorRx - Actor.y actorTx) ^ 2).

(** [stats.norm.rvs(loc, scale)] (line 324): the call raises on a
    negative [scale], and returns the sample otherwise. *)
Definition rvs (n : nat) (loc scale : R) : option R :=
  if Rltb scale 0 then None else Some (norm_rvs n loc scale).

(** The meeting test of a visited pair (lines 313-331). *)
Definition tryMeeting (rx tx : loc) (range : R) (s : t) : option t :=
  let actorRx := heap s rx in
  let actorTx := heap s tx in
  if Rgtb (meetingDurationMean s) 0 && Rleb range (meetingMaxRange s) then
    match getMeeting s [Actor.id actorRx; Actor.id actorTx] with
    | None =>
        if Rleb range (meetingDistanceMean s + 2 * meetingDistanceSd s) then
          let rnd := random_random (randomCalls s) in
          let s := set_randomCalls s (S (randomCalls s)) in
          let cdf := norm_cdf range (meetingDistanceMean s)
                              (meetingDistanceSd s) in
          if Rgtb (rnd * meetingChance s) cdf then
            match rvs (rvsCalls s) (meetingDurationMean s)
                      (meetingDurationSd s) with
            | None => None
            | Some sample =>
                let s := set_rvsCalls s (S (rvsCalls s)) in
                Some (set_meetings s
                        (meetings s
                         ++ [Meeting.mk (time s) (endTime (time s) sample)
                                        [Actor.id actorRx; Actor.id actorTx]]))
            end
          else Some s
        else Some s
    | Some _ => Some s
    end
  else Some s.

(** The reading of a visited pair (lines 334-348). *)
Definition captureReading (rx tx : loc) (range : R) (s : t) : option t :=
  if Rleb range (maxRange s) && Rgeb range (wavelength s) then
    let actorTx := heap s tx in
    match call (Actor.powerReceiver (wavelength s) range
                  (Actor.powerTx actorTx) (Actor.gainTx actorTx)) rx s with
    | None => None
    | Some (powerRx, s) =>
        let actorRx := heap s rx in
        let actorTx := heap s tx in
        Some (set_readings s
                (readings s
                 ++ [(time s, Actor.id actorRx, Actor.id actorTx, powerRx,
                      Actor.deviceModel actorRx,
                      Actor.deviceModel actorTx)]))
    end
  else Some s.

(** Body of the inner loop (lines 304-348). *)
Definition interact (rx tx : loc) (s : t) : option t :=
  let actorRx := heap s rx in
  let actorTx := heap s tx in
  if negb (Actor.id actorRx =? Actor.id actorTx)%Z then
    let range := distance actorRx actorTx in
    match tryMeeting rx tx range s with
    | None => None
    | Some s => captureReading rx tx range s
    end
  else Some s.

(** Lines 281-299. *)
Definition movementPass (secondsElapsed : R) (s : t) : option t :=
  match for_each (actors s) (move secondsElapsed) (s, []) with
  | None => None
  | Some (s, remainingActors) => Some (set_actors s remainingActors)
  end.

(** Lines 302-348: the inner loop runs over
    [enumerate(self.actors, start=rxIdx + 1)]. *)
Definition pairwisePass (s : t) : option t :=
  for_each (enumerate (actors s) 0)
    (fun '(rxIdx, actorRx) s =>
       for_each (enumerate (actors s) (rxIdx + 1))
         (fun '(_, actorTx) s => interact actorRx actorTx s) s)
    s.

Definition step (secondsElapsed : R) (s : t) : option t :=
  let s := set_time s (time s + secondsElapsed) in
  match movementPass secondsElapsed s with
  | None => None
  | Some s => pairwisePass s
  end.

(** What the code of the repository can do to the world between and
    including ticks: the simulation's two operations and the mutators
    of [Actor], called on any actor object. *)
Inductive op : Type :=
| Step (secondsElapsed : R)
| AddActor (newActor : loc)
| SetModel (l : loc) (newModel : string)
| SetPosition (l : loc) (newX newY : R)
| SetVelocity (l : loc) (newAngleRadians newSpeed : R)
| UpdatePosition (l : loc) (secondsElapsed : R).

Definition exec (o : op) (s : t) : option t :=
  match o with
  | Step secondsElapsed => step secondsElapsed s
  | AddActor newActor => Some (addActor newActor s)
  | SetModel l newModel =>
      option_map snd (call (Actor.setModel newModel) l s)
  | SetPosition l newX newY =>
      option_map snd (call (Actor.setPosition newX newY) l s)
  | SetVelocity l newAngleRadians newSpeed =>
      option_map snd
        (call (Actor.setVelocity newAngleRadians newSpeed) l s)
  | UpdatePosition l secondsElapsed =>
      option_map snd (call (Actor.updatePosition secondsElapsed) l s)
  end.

Definition run (ops : list op) (s : t) : option t := for_each ops exec s.

End Step.

End Simulation.

(** ** The namers and [generateActors] *)

(** [noneNamer] *)
Definition noneNamer : Actor.method unit :=
  fun actorToName => Some (tt, actorToName).

Section Namers.

(** [format_03d v]: the text of [f"{v:03d}"], or [None] where the format
    raises (the value is not an [int]). *)
Variable format_03d : R -> option string.

(** [txPowerNamer] *)
Definition txPowerNamer : Actor.method unit :=
  fun actorToName =>
    let txPower := Actor.powerTx actorToName in
    match format_03d txPower with
    | None => None
    | Some digits => Actor.setModel ("model" ++ digits) actorToName
    end.

(** [rxGainNamer], the namer of the scenario [higherSensitivity]. *)
Definition rxGainNamer : Actor.method unit :=
  fun actorToName =>
    let rx := Actor.gainRx actorToName in
    match format_03d rx with
    | None => None
    | Some digits => Actor.setModel ("modelGainRx" ++ digits) actorToName
    end.

End Namers.

Section Generate.

(** The two arrays drawn by [rng.uniform] at the start of
    [generateActors], and [rng_normal n loc scale], the value of the
    [n]-th call of [rng.normal(loc, scale)]. *)
Variable facePositionAngles : nat -> R.
Variable directionAngleDiffs : nat -> R.
Variable rng_normal : nat -> R -> R -> R.

Variable meanSpeed : R.
Variable txPowerMethod : string.
Variable meanTxPower : R.
Variable txGainMethod : string.
Variable meanTxGain : R.
Variable rxSensitivityMethod : string.
Variable meanRxSensitivity : R.
Variable namer : Actor.method unit.

(** Lines 393-431: the actor of index [i], before it is named; [calls]
    counts the calls made to [rng.normal]. *)
Definition buildActor (i : nat) (calls : nat) : option (Actor.t * nat) :=
  let x := 200 * sin (facePositionAngles i) in
  let y := 200 * cos (facePositionAngles i) in
  let angle := facePositionAngles i + (1.5 * PI) - directionAngleDiffs i in
  let speed := meanSpeed in
  let '(txPower, calls) :=
    if (txPowerMethod =? "gaussian")%string then
      let txPower := rng_normal calls meanTxPower 4 in
      let txPower := if Rltb txPower 0 then 0 else txPower in
      (IZR (Zfloor txPower), S calls)
    else (meanTxPower, calls) in
  let '(txGain, calls) :=
    if (txGainMethod =? "gaussian")%string then
      let txGain := rng_normal calls meanTxGain 2 in
      let txGain := if Rltb txGain 0 then 0 else txGain in
      (IZR (Zfloor (txGain * 2)) / 2, S calls)
    else (meanTxGain, calls) in
  let '(rxSensitivity, calls) :=
    if (rxSensitivityMethod =? "gaussian")%string then
      let rxSensitivity := rng_normal calls meanRxSensitivity 2 in
      let rxSensitivity := if Rltb rxSensitivity 0 then 0 else rxSensitivity in
      (IZR (Zfloor (rxSensitivity * 2)) / 2, S calls)
    else (meanRxSensitivity, calls) in
  let newActor :=
    Actor.init (Z.of_nat i + 1) txPower txGain rxSensitivity "model001" in
  match Actor.setPosition x y newActor with
  | None => None
  | Some (_, newActor) =>
      match Actor.setVelocity angle speed newActor with
      | None => None
      | Some (_, newActor) => Some (newActor, calls)
      end
  end.

(** Body of the loop of [generateActors] (lines 392-433). *)
Definition generateActor (i : nat) (st : list Actor.t * nat)
    : option (list Actor.t * nat) :=
  let '(actors, calls) := st in
  match buildActor i calls with
  | None => None
  | Some (newActor, calls) =>
      match namer newActor with
      | None => None
      | Some (_, newActor) => Some (actors ++ [newActor], calls)
      end
  end.

Definition generateActors (actorCount : nat) : option (list Actor.t) :=
  option_map fst (for_each (seq 0 actorCount) generateActor ([], 0%nat)).

End Generate.

(** ** The driving loop

    The loop of the example application (lines 468-473) and of every
    scenario: at each of [maxSteps] iterations, [newActorsPerTimeStep]
    actors of [extraActors] are added and one tick is run.  Indexing
    [extraActors] past its end raises.

    The constructor keeps the list it is given ([self.actors = actors],
    line 208) and [addActor] appends to that list in place (line 236),
    until the first tick binds [self.actors] to a new list (line 299).
    So the list [extraActors] of the caller is either a list of its own,
    or the very list that the simulation was constructed on: then it
    grows with each addition made before the first tick, and keeps what
    it holds at that tick. *)

Inductive extras : Type :=
| Own (extraActors : list loc)
| Shared.

(** What the list [extraActors] holds when the simulation is [s]. *)
Definition contents (extraActors : extras) (s : Simulation.t) : list loc :=
  match extraActors with
  | Own l => l
  | Shared => Simulation.actors s
  end.

(** The list [extraActors] once [self.actors] of [s] is bound to a new
    list. *)
Definition detach (extraActors : extras) (s : Simulation.t) : extras :=
  Own (contents extraActors s).

Section Drive.

Variable random_random : nat -> R.
Variable norm_cdf : R -> R -> R -> R.
Variable norm_rvs : nat -> R -> R -> R.

Definition addExtras (newActorsPerTimeStep : nat) (i : nat)
    (st : Simulation.t * extras) : option (Simulation.t * extras) :=
  for_each (seq 0 newActorsPerTimeStep)
    (fun newActorI '(s, extraActors) =>
       match nth_error (contents extraActors s)
                       (i * newActorsPerTimeStep + newActorI) with
       | None => None
       | Some newActor => Some (Simulation.addActor newActor s, extraActors)
       end)
    st.

Definition drive (maxSteps newActorsPerTimeStep : nat) (stepSizeSeconds : R)
    (extraActors : extras) (s : Simulation.t) : option Simulation.t :=
  option_map fst
    (for_each (seq 0 maxSteps)
       (fun i st =>
          match addExtras newActorsPerTimeStep i st with
          | None => None
          | Some (s, extraActors) =>
              match Simulation.step random_random norm_cdf norm_rvs
                      stepSizeSeconds s with
              | None => None
              | Some s' => Some (s', detach extraActors s)
              end
          end)
       (s, extraActors)).

End Drive.

(** ** Vocabulary of the properties *)

(** The attributes of a simulation that are assigned at construction
    only. *)
Definition config (s : Simulation.t) :=
  (Simulation.radioFrequency s, Simulation.maxRange s, Simulation.c s,
   Simulation.wavelength s,
   Simulation.minX s, Simulation.minY s, Simulation.maxX s, Simulation.maxY s,
   Simulation.meetingDurationMean s, Simulation.meetingDurationSd s,
   Simulation.meetingDistanceMean s, Simulation.meetingDistanceSd s,
   Simulation.meetingChance s, Simulation.meetingMaxRange s).

(** The pairs [(actorRx, actorTx)] on which the body of the inner loop of
    [step] runs, in order, for a live collection [l]. *)
Definition visited (l : list loc) : list (loc * loc) :=
  flat_map (fun '(rxIdx, actorRx) =>
              map (fun '(_, actorTx) => (actorRx, actorTx))
                  (enumerate l (rxIdx + 1)))
           (enumerate l 0).

(** The meeting of the unordered pair [{a, b}]. *)
Definition meets (a b : Z) (m : Meeting.t) : Prop :=
  Permutation (Meeting.participants m) [a; b].

(** No two meetings of the list are of the same participants. *)
Definition meet_once (ms : list Meeting.t) : Prop :=
  NoDup (map (fun m => sorted (Meeting.participants m)) ms).

(** The end tick with the floor in the place of [int]. *)
Definition endTime_floor (time sample : R) : R :=
  let endTime := IZR (Zfloor (time + sample)) in
  if Rltb endTime (time + 1) then time + 1 else endTime.

(** The position lies outside the bounding box of [s]. *)
Definition outside (s : Simulation.t) (a : Actor.t) : Prop :=
  Actor.x a < Simulation.minX s \/ Actor.x a > Simulation.maxX s
  \/ Actor.y a < Simulation.minY s \/ Actor.y a > Simulation.maxY s.

(** The call of [stats.norm.rvs] of a tick, if there is one, returns:
    meetings are disabled, or the standard deviation of the duration is
    not negative. *)
Definition rvs_returns (s : Simulation.t) : Prop :=
  Simulation.meetingDurationMean s <= 0
  \/ 0 <= Simulation.meetingDurationSd s.

(** [setVelocity] was called on the actor. *)
Definition has_velocity (a : Actor.t) : Prop :=
  Actor.xComponent a <> None /\ Actor.yComponent a <> None.

(** Some meeting with [participantId] is active at [tick]. *)
Definition in_active_meeting (s : Simulation.t) (participantId : Z) (tick : R)
    : Prop :=
  exists m, In m (Simulation.meetings s)
            /\ In participantId (Meeting.participants m)
            /\ Meeting.start m <= tick <= Meeting.end_ m.

Section Vocabulary.

Variable random_random : nat -> R.
Variable norm_cdf : R -> R -> R -> R.
Variable norm_rvs : nat -> R -> R -> R.

(** [m] is a meeting as [step] forms them in state [s]: of two live actors,
    from the clock of [s] to the end tick computed from a sample of the
    duration distribution. *)
Definition formed (s : Simulation.t) (m : Meeting.t) : Prop :=
  exists rx tx n,
    In rx (Simulation.actors s) /\ In tx (Simulation.actors s)
    /\ m = Meeting.mk (Simulation.time s)
             (Simulation.endTime (Simulation.time s)
                (norm_rvs n (Simulation.meetingDurationMean s)
                            (Simulation.meetingDurationSd s)))
             [Actor.id (Simulation.heap s rx); Actor.id (Simulation.heap s tx)].

(** [r] is a reading as [step] logs them in state [s]: of two live
    actors, at the clock of [s]. *)
Definition logged (s : Simulation.t) (r : Reading) : Prop :=
  exists rx tx powerRx,
    In rx (Simulation.actors s) /\ In tx (Simulation.actors s)
    /\ r = (Simulation.time s,
            Actor.id (Simulation.heap s rx), Actor.id (Simulation.heap s tx),
            powerRx,
            Actor.deviceModel (Simulation.heap s rx),
            Actor.deviceModel (Simulation.heap s tx)).

(** What the pairwise pass may change: it appends meetings and readings and
    draws random numbers; the actors, the live collection, the clock and
    the configuration stay as they are. *)
Definition pairwise_frame (s s' : Simulation.t) : Prop :=
  (forall l, Simulation.heap s' l = Simulation.heap s l)
  /\ Simulation.actors s' = Simulation.actors s
  /\ Simulation.time s' = Simulation.time s
  /\ config s' = config s
  /\ (exists ms, Simulation.meetings s' = Simulation.meetings s ++ ms
                 /\ Forall (formed s) ms)
  /\ (exists rs, Simulation.readings s' = Simulation.readings s ++ rs
                 /\ Forall (logged s) rs)
  /\ (meet_once (Simulation.meetings s) -> meet_once (Simulation.meetings s')).

(** What the movement loop may change: the actor objects, and of those
    neither the identifier, nor an [included] flag from false to true. *)
Definition movement_frame (s s' : Simulation.t) : Prop :=
  Simulation.actors s' = Simulation.actors s
  /\ Simulation.time s' = Simulation.time s
  /\ config s' = config s
  /\ Simulation.meetings s' = Simulation.meetings s
  /\ Simulation.readings s' = Simulation.readings s
  /\ Simulation.randomCalls s' = Simulation.randomCalls s
  /\ Simulation.rvsCalls s' = Simulation.rvsCalls s
  /\ (forall l, Actor.id (Simulation.heap s' l) = Actor.id (Simulation.heap s l))
  /\ (forall l, Actor.included (Simulation.heap s' l) = true ->
                Actor.included (Simulation.heap s l) = true).

(** The states of a simulation: those of a constructed simulation and
    those that the operations lead to. *)
Inductive reachable : Simulation.t -> Prop :=
| reachable_init h actors frequency maxEffectRange minX maxX minY maxY
    meetingDurationMean meetingDurationSd meetingDistanceMean
    meetingDistanceSd meetingChance meetingMaxRange s :
    Simulation.init h actors frequency maxEffectRange minX maxX minY maxY
      meetingDurationMean meetingDurationSd meetingDistanceMean
      meetingDistanceSd meetingChance meetingMaxRange = Some s ->
    reachable s
| reachable_exec s o s' :
    reachable s ->
    Simulation.exec random_random norm_cdf norm_rvs o s = Some s' ->
    reachable s'.

End Vocabulary.

(** ** Scenarios

    Two stationary actors one metre apart, an actor walking out of the
    box, and the simulations built on them.  The actors are as
    [Actor.__init__], [setPosition] and [setVelocity] leave them. *)

Definition alice : Actor.t :=
  Actor.mk 1 13 1.5 1.5 0 0 0 0 true "model013" (Some 0) (Some 0).

Definition bob : Actor.t :=
  Actor.mk 2 13 1.5 1.5 1 0 0 0 true "model013" (Some 0) (Some 0).

(** At (199, 0), heading east ([PI / 2]) at 5 m/s. *)
Definition walker : Actor.t :=
  Actor.mk 3 13 1.5 1.5 199 0 (PI / 2) 5 true "model013" (Some 0) (Some 5).

Definition pair_heap : loc -> Actor.t :=
  fun l => match l with O => alice | _ => bob end.

(** [Simulation(actors, frequency, 15, -200, 200, -200, 200)] on the two
    actors, with the advertising frequency of the example application:
    meetings are disabled. *)
Definition quiet_sim : Simulation.t :=
  Simulation.mk pair_heap [0%nat; 1%nat] 2436000000 15 2999100
    (2999100 / 2436000000) 0 [] (-200) (-200) 200 200 []
    0 0 0 0 0 3 0%nat 0%nat.

(** The same with meetings of 300 s, at distances around 1.5 m (sd 0.3),
    with chance 1. *)
Definition meeting_sim : Simulation.t :=
  Simulation.mk pair_heap [0%nat; 1%nat] 2436000000 15 2999100
    (2999100 / 2436000000) 0 [] (-200) (-200) 200 200 []
    300 0 1.5 0.3 1 3 0%nat 0%nat.

(** The same once the two actors have met at time 0. *)
Definition frozen_sim : Simulation.t :=
  Simulation.mk pair_heap [0%nat; 1%nat] 2436000000 15 2999100
    (2999100 / 2436000000) 0 [] (-200) (-200) 200 200
    [Meeting.mk 0 300 [1%Z; 2%Z]]
    300 0 1.5 0.3 1 3 1%nat 1%nat.

(** The walker alone in the box of half-width 200. *)
Definition exit_sim : Simulation.t :=
  Simulation.mk (fun _ => walker) [0%nat] 2436000000 15 2999100
    (2999100 / 2436000000) 0 [] (-200) (-200) 200 200 []
    0 0 0 0 0 3 0%nat 0%nat.

(** A run of the generators: [random.random()] returns 0.5, the sampled
    duration is the mean (the scenarios have [meetingDurationSd = 0]), and
    the value of [norm.cdf] at distance 1 for mean 1.5 and sd 0.3 is
    0.0478 to four places. *)
Definition coin : nat -> R := fun _ => 0.5.
Definition cdf_near : R -> R -> R -> R := fun _ _ _ => 0.0478.
Definition rvs_mean : nat -> R -> R -> R := fun _ loc _ => loc.

(** Another run of [random.random()]: 0.01 at the first call, which fails
    the meeting test at distance 1, and 0.5 at every later one, which
    passes it. *)
Definition coin_late : nat -> R :=
  fun n => match n with O => 0.01 | _ => 0.5 end.

(** An actor as [Actor.__init__] leaves it, alone in the box:
    [setVelocity] was not called on it. *)
Definition newcomer : Actor.t := Actor.init 4 13 1.5 1.5 "model001".

Definition fresh_sim : Simulation.t :=
  Simulation.mk (fun _ => newcomer) [0%nat] 2436000000 15 2999100
    (2999100 / 2436000000) 0 [] (-200) (-200) 200 200 []
    0 0 0 0 0 3 0%nat 0%nat.

(** A run of [rng.uniform] in [generateActors]: every actor starts at
    the north of the circle, and heads a quarter turn off the tangent,
    to the centre. *)
Definition north : nat -> R := fun _ => 0.
Definition quarter : nat -> R := fun _ => PI / 2.

(** [f"{v:03d}"] on a [float]: the format raises. *)
Definition format_float : R -> option string := fun _ => None.

(** [f"{v:03d}"] on the [int] 13. *)
Definition format_013 : R -> option string := fun _ => Some "013"%string.

(** ** Vocabulary of the further properties *)

(** The seconds of the ticks of a run, added up. *)
Fixpoint elapsed (ops : list Simulation.op) : R :=
  match ops with
  | [] => 0
  | Simulation.Step secondsElapsed :: ops' => secondsElapsed + elapsed ops'
  | _ :: ops' => elapsed ops'
  end.

(** The test of the inner loop for a reading of the pair [(rx, tx)]: the
    identifiers differ and the distance is between the wavelength and
    [maxRange] (lines 304 and 334). *)
Definition in_rangeb (s : Simulation.t) (rx tx : loc) : bool :=
  negb (Actor.id (Simulation.heap s rx) =? Actor.id (Simulation.heap s tx))%Z
  && (Rleb (Simulation.distance (Simulation.heap s rx) (Simulation.heap s tx))
           (Simulation.maxRange s)
      && Rgeb (Simulation.distance (Simulation.heap s rx)
                                   (Simulation.heap s tx))
              (Simulation.wavelength s)).

(** The reading that the inner loop logs for the pair (lines 345-348). *)
Definition reading_of (s : Simulation.t) (rx tx : loc) : Reading :=
  (Simulation.time s,
   Actor.id (Simulation.heap s rx), Actor.id (Simulation.heap s tx),
   Actor.gainRx (Simulation.heap s rx)
   + Actor.powerTx (Simulation.heap s tx)
   + Actor.gainTx (Simulation.heap s tx)
   + 20 * log10 (Simulation.wavelength s
                 / (4 * PI * Simulation.distance (Simulation.heap s rx)
                                                 (Simulation.heap s tx))),
   Actor.deviceModel (Simulation.heap s rx),
   Actor.deviceModel (Simulation.heap s tx)).

(** [m] is a meeting of two actors of the collection of [s] with
    different identifiers, within meeting distance of each other, that
    starts at the clock of [s] and lasts one tick at least. *)
Definition met (s : Simulation.t) (m : Meeting.t) : Prop :=
  exists rx tx,
    In rx (Simulation.actors s) /\ In tx (Simulation.actors s)
    /\ Actor.id (Simulation.heap s rx) <> Actor.id (Simulation.heap s tx)
    /\ 0 < Simulation.meetingDurationMean s
    /\ Simulation.distance (Simulation.heap s rx) (Simulation.heap s tx)
       <= Simulation.meetingMaxRange s
    /\ Simulation.distance (Simulation.heap s rx) (Simulation.heap s tx)
       <= Simulation.meetingDistanceMean s
          + 2 * Simulation.meetingDistanceSd s
    /\ Meeting.participants m
       = [Actor.id (Simulation.heap s rx); Actor.id (Simulation.heap s tx)]
    /\ Meeting.start m = Simulation.time s
    /\ Meeting.start m + 1 <= Meeting.end_ m.

(** A meeting of two different identifiers that lasts one tick at
    least. *)
Definition well_formed (m : Meeting.t) : Prop :=
  (exists a b, Meeting.participants m = [a; b] /\ a <> b)
  /\ 1 <= Meeting.duration m.

(** The clock stays within the meeting [m] at every tick of [dts], taken
    from the clock [time] on. *)
Fixpoint within (m : Meeting.t) (time : R) (dts : list R) : Prop :=
  match dts with
  | [] => True
  | dt :: dts' =>
      Meeting.start m <= time + dt <= Meeting.end_ m
      /\ within m (time + dt) dts'
  end.

(** What the body of the movement loop (lines 283-293) does to one actor,
    in the state [s] of the advanced clock: [a] is the actor before,
    [a'] the actor after, [kept] whether it is appended to
    [remainingActors]. *)
Definition fate (s : Simulation.t) (secondsElapsed : R) (a a' : Actor.t)
    (kept : bool) : Prop :=
  if Actor.included a then
    if Simulation.isInMeeting s (Actor.id a) (Simulation.time s) then
      a' = a /\ kept = true
    else
      exists self',
        Actor.updatePosition secondsElapsed a = Some (tt, self')
        /\ if kept then ~ outside s self' /\ a' = self'
           else outside s self' /\ a' = Actor.set_included self' false
  else a' = a /\ kept = false.

(** A namer that assigns the device model of the actor and nothing
    else. *)
Definition names_only (namer : Actor.method unit) : Prop :=
  forall a r a', namer a = Some (r, a') ->
                 exists m, a' = Actor.set_deviceModel a m.

(** The number of calls of [rng.normal] that a selection method
    takes. *)
Definition drawn (method : string) : nat :=
  if (method =? "gaussian")%string then 1%nat else 0%nat.

(** The number of calls of [rng.normal] that one actor takes. *)
Definition draws (txPowerMethod txGainMethod rxSensitivityMethod : string)
    : nat :=
  ((if (txPowerMethod =? "gaussian")%string then 1 else 0)
   + (if (txGainMethod =? "gaussian")%string then 1 else 0)
   + (if (rxSensitivityMethod =? "gaussian")%string then 1 else 0))%nat.

(** The list [extraActors] begins with [l]: it holds what it held when
    the loop began, and what was appended to it since. *)
Definition begins_with (extraActors : extras) (s : Simulation.t)
    (l : list loc) : Prop :=
  exists tail, contents extraActors s = l ++ tail.

(** The calls of a run that adds, before each of [maxSteps] ticks, the
    next [newActorsPerTimeStep] actors of [extraActors]. *)
Definition driven (maxSteps newActorsPerTimeStep : nat) (stepSizeSeconds : R)
    (extraActors : list loc) : list Simulation.op :=
  flat_map
    (fun i =>
       map Simulation.AddActor
           (firstn newActorsPerTimeStep
                   (skipn (i * newActorsPerTimeStep) extraActors))
       ++ [Simulation.Step stepSizeSeconds])
    (seq 0 maxSteps).

(** * Properties *)

(** ** Facts about the helpers *)

Lemma Rleb_true (a b : R) : a <= b -> Rleb a b = true.
Proof. intros H. unfold Rleb. destruct (Rle_dec a b); [reflexivity | contradiction]. Qed.

Lemma Rleb_false (a b : R) : b < a -> Rleb a b = false.
Proof. intros H. unfold Rleb. destruct (Rle_dec a b); [lra | reflexivity]. Qed.

Lemma Rltb_true (a b : R) : a < b -> Rltb a b = true.
Proof. intros H. unfold Rltb. destruct (Rlt_dec a b); [reflexivity | contradiction]. Qed.

Lemma Rltb_false (a b : R) : b <= a -> Rltb a b = false.
Proof. intros H. unfold Rltb. destruct (Rlt_dec a b); [lra | reflexivity]. Qed.

Lemma Rleb_spec (a b : R) : Rleb a b = true <-> a <= b.
Proof. unfold Rleb. destruct (Rle_dec a b); split; intros; auto; discriminate. Qed.

Lemma Rltb_spec (a b : R) : Rltb a b = true <-> a < b.
Proof. unfold Rltb. destruct (Rlt_dec a b); split; intros; auto; discriminate. Qed.

Lemma Rleb_nspec (a b : R) : Rleb a b = false <-> b < a.
Proof.
  unfold Rleb. destruct (Rle_dec a b); split; intros; auto; try discriminate; lra.
Qed.

Lemma Rltb_nspec (a b : R) : Rltb a b = false <-> b <= a.
Proof.
  unfold Rltb. destruct (Rlt_dec a b); split; intros; auto; try discriminate; lra.
Qed.

Lemma ln_10_pos : 0 < ln 10.
Proof. rewrite <- ln_1. apply ln_increasing; lra. Qed.

Lemma log10_le (u v : R) : 0 < u -> u <= v -> log10 u <= log10 v.
Proof.
  intros Hu Huv. unfold log10, Rdiv.
  apply Rmult_le_compat_r.
  - left. apply Rinv_0_lt_compat, ln_10_pos.
  - destruct Huv as [Hlt | ->]; [left; apply ln_increasing; assumption | right; reflexivity].
Qed.

(** ** Actor *)

Section ActorFacts.

Variable self : Actor.t.

Lemma operand_pos (wavelength distance : R) :
  0 < wavelength -> 0 < distance -> 0 < wavelength / (4 * PI * distance).
Proof.
  intros Hw Hd. apply Rdiv_lt_0_compat; [assumption |].
  apply Rmult_lt_0_compat; [| assumption].
  apply Rmult_lt_0_compat; [lra | apply PI_RGT_0].
Qed.

Lemma powerReceiver_defined (wavelength distance p g : R) :
  0 < wavelength -> 0 < distance ->
  Actor.powerReceiver wavelength distance p g self
  = Some (Actor.gainRx self + p + g
          + 20 * log10 (wavelength / (4 * PI * distance)), self).
Proof.
  intros Hw Hd. unfold Actor.powerReceiver.
  pose proof (operand_pos wavelength distance Hw Hd) as Hop.
  pose proof PI_RGT_0 as Hpi.
  destruct (Req_dec_T (4 * PI * distance) 0) as [E | _].
  - exfalso. assert (0 < 4 * PI * distance) by
      (apply Rmult_lt_0_compat; [apply Rmult_lt_0_compat; lra | assumption]).
    lra.
  - destruct (Rle_dec (wavelength / (4 * PI * distance)) 0); [lra | reflexivity].
Qed.

End ActorFacts.

(** C4, as amended.  After [setVelocity(a, s)] and [updatePosition(t)] the
    position has moved by [s * sin a * t] along x and by [s * cos a * t]
    along y (heading 0 is the direction of increasing y), and the length of
    the displacement is the absolute value of [s * t]; it is [s * t] itself
    when that product is not negative. *)
Theorem updatePosition_displacement (self : Actor.t) (a s t : R) :
  exists self1 self2,
    Actor.setVelocity a s self = Some (tt, self1)
    /\ Actor.updatePosition t self1 = Some (tt, self2)
    /\ Actor.x self2 - Actor.x self = s * sin a * t
    /\ Actor.y self2 - Actor.y self = s * cos a * t
    /\ sqrt ((Actor.x self2 - Actor.x self) ^ 2
             + (Actor.y self2 - Actor.y self) ^ 2) = Rabs (s * t)
    /\ (0 <= s * t ->
        sqrt ((Actor.x self2 - Actor.x self) ^ 2
              + (Actor.y self2 - Actor.y self) ^ 2) = s * t).
Proof.
  eexists. eexists. split; [reflexivity |]. split; [reflexivity |].
  cbn [Actor.x Actor.y Actor.set_xy Actor.set_velocity].
  assert (Hx : Actor.x self + sin a * s * t - Actor.x self = s * sin a * t) by ring.
  assert (Hy : Actor.y self + cos a * s * t - Actor.y self = s * cos a * t) by ring.
  assert (Hlen : sqrt ((Actor.x self + sin a * s * t - Actor.x self) ^ 2
                       + (Actor.y self + cos a * s * t - Actor.y self) ^ 2)
                 = Rabs (s * t)).
  { rewrite Hx, Hy.
    replace ((s * sin a * t) ^ 2 + (s * cos a * t) ^ 2)
      with ((s * t)² * ((sin a)² + (cos a)²)) by (unfold Rsqr; ring).
    rewrite sin2_cos2, Rmult_1_r. apply sqrt_Rsqr_abs. }
  repeat split; try assumption.
  intros Hst. rewrite Hlen. apply Rabs_pos_eq. assumption.
Qed.

(** C4, as stated, fails for a negative speed: with heading 0, speed -1 and
    one second elapsed the actor moves one metre, and the claimed length of
    the displacement, [s * t], is -1. *)
Lemma displacement_negative_speed :
  let self := Actor.init 1 13 1.5 1.5 "model001" in
  exists self1 self2,
    Actor.setVelocity 0 (-1) self = Some (tt, self1)
    /\ Actor.updatePosition 1 self1 = Some (tt, self2)
    /\ sqrt ((Actor.x self2 - Actor.x self) ^ 2
             + (Actor.y self2 - Actor.y self) ^ 2) <> (-1) * 1.
Proof.
  intros self. eexists. eexists. split; [reflexivity |]. split; [reflexivity |].
  match goal with |- sqrt ?e <> _ => pose proof (sqrt_pos e) end.
  lra.
Qed.

(** C5, as amended.  For a positive wavelength and a positive distance
    [powerReceiver] returns
    [gainRx + otherPowerTransmitter + otherGainTransmitter
     + 20 * log10 (wavelength / (4 * pi * distance))]
    and leaves the receiver as it was; the result depends on the receiver
    through [gainRx] only. *)
Theorem powerReceiver_friis (self : Actor.t) (wavelength distance p g : R) :
  0 < wavelength -> 0 < distance ->
  Actor.powerReceiver wavelength distance p g self
  = Some (Actor.gainRx self + p + g
          + 20 * log10 (wavelength / (4 * PI * distance)), self)
  /\ forall other : Actor.t,
       Actor.gainRx other = Actor.gainRx self ->
       option_map fst (Actor.powerReceiver wavelength distance p g other)
       = option_map fst (Actor.powerReceiver wavelength distance p g self).
Proof.
  intros Hw Hd. split.
  - apply powerReceiver_defined; assumption.
  - intros other Hg. rewrite !powerReceiver_defined by assumption.
    cbn. rewrite Hg. reflexivity.
Qed.

Lemma powerReceiver_friis_witness :
  let self := Actor.init 1 13 1.5 1.5 "model001" in
  Actor.powerReceiver 1 2 13 1.5 self
  = Some (Actor.gainRx self + 13 + 1.5 + 20 * log10 (1 / (4 * PI * 2)), self).
Proof.
  intros self. apply (powerReceiver_friis self 1 2 13 1.5); lra.
Defined.

(** C5, as stated, fails for a wavelength that is not positive: at
    wavelength 0 and distance 1 the operand of [math.log10] is 0 and the
    call raises instead of returning. *)
Lemma powerReceiver_zero_wavelength :
  0 < 1
  /\ Actor.powerReceiver 0 1 13 1.5 (Actor.init 1 13 1.5 1.5 "model001") = None.
Proof.
  split; [lra |]. unfold Actor.powerReceiver.
  pose proof PI_RGT_0 as Hpi.
  destruct (Req_dec_T (4 * PI * 1) 0) as [E | _]; [reflexivity |].
  destruct (Rle_dec (0 / (4 * PI * 1)) 0) as [_ | N]; [reflexivity |].
  exfalso. apply N. unfold Rdiv. rewrite Rmult_0_l. lra.
Qed.

(** C9.  With the wavelength, the receiver and the transmitter's power and
    gain fixed, [powerReceiver] returns at every distance from the
    wavelength upward, and a larger distance gives a result that is not
    larger. *)
Theorem powerReceiver_monotone (self : Actor.t) (wavelength d1 d2 p g : R) :
  0 < wavelength -> wavelength <= d1 -> d1 <= d2 ->
  exists p1 p2,
    Actor.powerReceiver wavelength d1 p g self = Some (p1, self)
    /\ Actor.powerReceiver wavelength d2 p g self = Some (p2, self)
    /\ p2 <= p1.
Proof.
  intros Hw H1 H12.
  assert (Hd1 : 0 < d1) by lra. assert (Hd2 : 0 < d2) by lra.
  do 2 eexists.
  split; [apply powerReceiver_defined; assumption |].
  split; [apply powerReceiver_defined; assumption |].
  pose proof PI_RGT_0 as Hpi.
  assert (Hle : wavelength / (4 * PI * d2) <= wavelength / (4 * PI * d1)).
  { unfold Rdiv. apply Rmult_le_compat_l; [lra |].
    apply Rinv_le_contravar; [| apply Rmult_le_compat_l; lra].
    apply Rmult_lt_0_compat; lra. }
  pose proof (log10_le _ _ (operand_pos wavelength d2 Hw Hd2) Hle).
  lra.
Qed.

Lemma powerReceiver_monotone_witness :
  let self := Actor.init 1 13 1.5 1.5 "model001" in
  exists p1 p2,
    Actor.powerReceiver 1 1 13 1.5 self = Some (p1, self)
    /\ Actor.powerReceiver 1 2 13 1.5 self = Some (p2, self)
    /\ p2 <= p1.
Proof.
  intros self. apply (powerReceiver_monotone self 1 1 2 13 1.5); lra.
Defined.

(** ** Loops *)

Section Loops.

Context {A S : Type}.

Lemma for_each_cons (a : A) (l : list A) (body : A -> S -> option S) (s : S) :
  for_each (a :: l) body s
  = match body a s with
    | None => None
    | Some s' => for_each l body s'
    end.
Proof. reflexivity. Qed.

Lemma for_each_app (l1 l2 : list A) (body : A -> S -> option S) (s : S) :
  for_each (l1 ++ l2) body s
  = match for_each l1 body s with
    | None => None
    | Some s' => for_each l2 body s'
    end.
Proof.
  revert s. induction l1 as [| a l1 IH]; intros s; cbn; [reflexivity |].
  destruct (body a s); [apply IH | reflexivity].
Qed.

(** A relation that every iteration establishes between the state before
    and after it holds between the states before and after the loop. *)
Lemma for_each_rel (Rel : S -> S -> Prop) (l : list A)
    (body : A -> S -> option S) (s0 : S) :
  (forall s, Rel s s) ->
  (forall s1 s2 s3, Rel s1 s2 -> Rel s2 s3 -> Rel s1 s3) ->
  (forall a s s', In a l -> Rel s0 s -> body a s = Some s' -> Rel s s') ->
  forall s', for_each l body s0 = Some s' -> Rel s0 s'.
Proof.
  intros Hrefl Htrans Hbody.
  assert (G : forall l', incl l' l -> forall s s',
             Rel s0 s -> for_each l' body s = Some s' -> Rel s0 s').
  { induction l' as [| a l' IH]; intros Hincl s s' Hs Hrun; cbn in Hrun.
    - injection Hrun as <-. assumption.
    - destruct (body a s) as [s1 |] eqn:E; [| discriminate].
      apply (IH (fun b Hb => Hincl b (or_intror Hb)) s1 s'); [| assumption].
      apply (Htrans s0 s s1); [assumption |].
      apply (Hbody a); [apply Hincl; left; reflexivity | assumption | assumption]. }
  intros s' Hrun. apply (G l (incl_refl l) s0 s'); [apply Hrefl | assumption].
Qed.

(** A loop whose body returns on every state of an invariant returns. *)
Lemma for_each_defined (P : S -> Prop) (l : list A)
    (body : A -> S -> option S) :
  (forall a s, In a l -> P s -> exists s', body a s = Some s' /\ P s') ->
  forall s, P s -> exists s', for_each l body s = Some s' /\ P s'.
Proof.
  induction l as [| a l IH]; intros Hbody s Hs; cbn.
  - exists s. split; [reflexivity | assumption].
  - destruct (Hbody a s (or_introl eq_refl) Hs) as [s1 [E Hs1]]. rewrite E.
    apply IH; [| assumption].
    intros b t Hb. apply Hbody. right. assumption.
Qed.

(** Two bodies that agree on the states of an invariant give the same
    loop. *)
Lemma for_each_ext (P : S -> Prop) (l : list A)
    (f g : A -> S -> option S) :
  (forall a s, In a l -> P s -> f a s = g a s) ->
  (forall a s s', In a l -> P s -> g a s = Some s' -> P s') ->
  forall s, P s -> for_each l f s = for_each l g s.
Proof.
  induction l as [| a l IH]; intros Hfg Hg s Hs; cbn; [reflexivity |].
  rewrite (Hfg a s (or_introl eq_refl) Hs).
  destruct (g a s) as [s1 |] eqn:E; [| reflexivity].
  apply IH.
  - intros b t Hb. apply Hfg. right. assumption.
  - intros b t t' Hb. apply (Hg b). right. assumption.
  - apply (Hg a s s1); [left; reflexivity | assumption | assumption].
Qed.

Lemma for_each_flat_map {B : Type} (F : B -> list A) (l : list B)
    (body : A -> S -> option S) (s : S) :
  for_each (flat_map F l) body s
  = for_each l (fun b => for_each (F b) body) s.
Proof.
  revert s. induction l as [| b l IH]; intros s; cbn; [reflexivity |].
  rewrite for_each_app. destruct (for_each (F b) body s); [apply IH | reflexivity].
Qed.

Lemma for_each_map {B : Type} (h : B -> A) (l : list B)
    (body : A -> S -> option S) (s : S) :
  for_each (map h l) body s = for_each l (fun b => body (h b)) s.
Proof.
  revert s. induction l as [| b l IH]; intros s; cbn; [reflexivity |].
  destruct (body (h b) s); [apply IH | reflexivity].
Qed.

End Loops.

Lemma enumerate_snd {A : Type} (l : list A) (start : nat) :
  map snd (enumerate l start) = l.
Proof.
  revert start. induction l as [| a l IH]; intros start; cbn; [reflexivity |].
  rewrite IH. reflexivity.
Qed.

Lemma enumerate_In {A : Type} (l : list A) (start i : nat) (a : A) :
  In (i, a) (enumerate l start) -> In a l.
Proof.
  intros H. rewrite <- (enumerate_snd l start).
  change a with (snd (i, a)). apply in_map. assumption.
Qed.

(** The inner loop of [step] runs on every ordered pair of the live
    collection: the [start] of [enumerate] numbers the elements, it does
    not skip any. *)
Lemma visited_all_pairs (l : list loc) : visited l = list_prod l l.
Proof.
  unfold visited.
  assert (G : forall (l1 : list loc) (k : nat),
             flat_map (fun '(rxIdx, actorRx) =>
                         map (fun '(_, actorTx) => (actorRx, actorTx))
                             (enumerate l (rxIdx + 1)))
                      (enumerate l1 k)
             = list_prod l1 l).
  { induction l1 as [| a l1 IH]; intros k; cbn; [reflexivity |].
    rewrite IH. f_equal.
    rewrite <- (enumerate_snd l (k + 1)) at 2. rewrite map_map.
    apply map_ext. intros [i b]. reflexivity. }
  apply G.
Qed.

Lemma visited_In (l : list loc) (rx tx : loc) :
  In (rx, tx) (visited l) <-> In rx l /\ In tx l.
Proof. rewrite visited_all_pairs. apply in_prod_iff. Qed.

(** ** [sorted] *)

Lemma insert_sorted_comm (a b : Z) (l : list Z) :
  insert_sorted a (insert_sorted b l) = insert_sorted b (insert_sorted a l).
Proof.
  induction l as [| c l IH]; cbn.
  - destruct (Z.leb_spec a b), (Z.leb_spec b a); try reflexivity; try lia.
    assert (a = b) by lia. subst. reflexivity.
  - destruct (Z.leb_spec b c), (Z.leb_spec a c); cbn;
      repeat match goal with
             | |- context [(?u <=? ?v)%Z] => destruct (Z.leb_spec u v)
             end; try reflexivity; try lia.
    + assert (a = b) by lia. subst. reflexivity.
    + rewrite IH. reflexivity.
Qed.

Lemma sorted_perm (l1 l2 : list Z) :
  Permutation l1 l2 -> sorted l1 = sorted l2.
Proof.
  induction 1 as [| a l1 l2 _ IH | a b l | l1 l2 l3 _ IH1 _ IH2]; cbn.
  - reflexivity.
  - rewrite IH. reflexivity.
  - apply insert_sorted_comm.
  - rewrite IH1. assumption.
Qed.

Lemma insert_sorted_permutation (a : Z) (l : list Z) :
  Permutation (insert_sorted a l) (a :: l).
Proof.
  induction l as [| b l IH]; cbn; [reflexivity |].
  destruct (a <=? b)%Z; [reflexivity |].
  rewrite IH. apply perm_swap.
Qed.

Lemma sorted_permutation (l : list Z) : Permutation (sorted l) l.
Proof.
  induction l as [| a l IH]; cbn; [reflexivity |].
  rewrite insert_sorted_permutation. apply perm_skip. assumption.
Qed.

Lemma sorted_eq_iff (l1 l2 : list Z) :
  sorted l1 = sorted l2 <-> Permutation l1 l2.
Proof.
  split; [| apply sorted_perm].
  intros E. rewrite <- (sorted_permutation l1), E. apply sorted_permutation.
Qed.

(** ** Queries on the meeting list *)

Lemma hasParticipant_spec (m : Meeting.t) (participantId : Z) :
  Meeting.hasParticipant m participantId = true
  <-> In participantId (Meeting.participants m).
Proof.
  unfold Meeting.hasParticipant. rewrite existsb_exists. split.
  - intros [z [Hin Heq]]. apply Z.eqb_eq in Heq. subst. assumption.
  - intros Hin. exists participantId. split; [assumption | apply Z.eqb_refl].
Qed.

Lemma stillMeeting_spec (m : Meeting.t) (tickNow : R) :
  Meeting.stillMeeting m tickNow = true
  <-> Meeting.start m <= tickNow <= Meeting.end_ m.
Proof.
  unfold Meeting.stillMeeting, Rgeb.
  rewrite andb_true_iff, !Rleb_spec. reflexivity.
Qed.

Lemma isInMeeting_spec (s : Simulation.t) (participantId : Z) (tickNow : R) :
  Simulation.isInMeeting s participantId tickNow = true
  <-> in_active_meeting s participantId tickNow.
Proof.
  unfold Simulation.isInMeeting, in_active_meeting.
  rewrite existsb_exists. split.
  - intros [m [Hin H]]. apply andb_true_iff in H. destruct H as [Hp Hs].
    exists m. rewrite <- hasParticipant_spec, <- stillMeeting_spec. auto.
  - intros [m [Hin [Hp Hs]]]. exists m. split; [assumption |].
    apply andb_true_iff. rewrite hasParticipant_spec, stillMeeting_spec. auto.
Qed.

Lemma getMeeting_None (s : Simulation.t) (participantIds : list Z) :
  Simulation.getMeeting s participantIds = None
  <-> ~ In (sorted participantIds)
           (map (fun m => sorted (Meeting.participants m))
                (Simulation.meetings s)).
Proof.
  unfold Simulation.getMeeting.
  induction (Simulation.meetings s) as [| m ms IH]; cbn.
  - split; [intros _ [] | reflexivity].
  - destruct (list_eq_dec Z.eq_dec (sorted (Meeting.participants m))
                          (sorted participantIds)) as [E | N].
    + split; [discriminate | intros H; exfalso; apply H; left; assumption].
    + rewrite IH. split.
      * intros H [E | Hin]; [apply N, E | apply H, Hin].
      * intros H Hin. apply H. right. assumption.
Qed.

(** [getMeeting] finds no meeting exactly when the unordered pair has none
    in the list. *)
Lemma getMeeting_None_pair (s : Simulation.t) (a b : Z) :
  Simulation.getMeeting s [a; b] = None
  <-> forall m, In m (Simulation.meetings s) -> ~ meets a b m.
Proof.
  rewrite getMeeting_None, in_map_iff. unfold meets. split.
  - intros H m Hin Hperm. apply H. exists m. split; [| assumption].
    apply sorted_perm. assumption.
  - intros H [m [E Hin]]. apply (H m Hin). apply sorted_eq_iff. assumption.
Qed.

(** ** The pairwise pass *)

Ltac config_fields H :=
  let T := fresh "Hcfg" in
  pose proof H as T; unfold config in T; injection T; clear T; intros.

Lemma meet_once_snoc (ms : list Meeting.t) (m : Meeting.t) :
  meet_once ms ->
  ~ In (sorted (Meeting.participants m))
       (map (fun m => sorted (Meeting.participants m)) ms) ->
  meet_once (ms ++ [m]).
Proof.
  unfold meet_once. intros Hnd Hnew. rewrite map_app. cbn.
  apply (Permutation_NoDup (Permutation_cons_append _ _)).
  constructor; assumption.
Qed.

Lemma powerReceiver_self (wavelength distance p g powerRx : R)
    (self self' : Actor.t) :
  Actor.powerReceiver wavelength distance p g self = Some (powerRx, self') ->
  self' = self.
Proof.
  unfold Actor.powerReceiver.
  destruct (Req_dec_T (4 * PI * distance) 0); [discriminate |].
  destruct (Rle_dec (wavelength / (4 * PI * distance)) 0); [discriminate |].
  intros H. injection H as _ <-. reflexivity.
Qed.

Lemma upd_same (h : loc -> Actor.t) (l k : loc) : upd h l (h l) k = h k.
Proof.
  unfold upd. destruct (Nat.eqb_spec k l) as [-> | _]; reflexivity.
Qed.

Lemma upd_eq (h : loc -> Actor.t) (l : loc) (a : Actor.t) : upd h l a l = a.
Proof. unfold upd. rewrite Nat.eqb_refl. reflexivity. Qed.

Lemma upd_neq (h : loc -> Actor.t) (l k : loc) (a : Actor.t) :
  k <> l -> upd h l a k = h k.
Proof.
  intros N. unfold upd. destruct (Nat.eqb_spec k l); [contradiction | reflexivity].
Qed.

Section PairwisePass.

Variable random_random : nat -> R.
Variable norm_cdf : R -> R -> R -> R.
Variable norm_rvs : nat -> R -> R -> R.

Local Abbreviation tryMeeting := (Simulation.tryMeeting random_random norm_cdf norm_rvs).
Local Abbreviation interact := (Simulation.interact random_random norm_cdf norm_rvs).
Local Abbreviation pairwisePass := (Simulation.pairwisePass random_random norm_cdf norm_rvs).
Local Abbreviation Formed := (formed norm_rvs).
Local Abbreviation Frame := (pairwise_frame norm_rvs).

Lemma formed_frame (s s' : Simulation.t) (m : Meeting.t) :
  (forall l, Simulation.heap s' l = Simulation.heap s l) ->
  Simulation.actors s' = Simulation.actors s ->
  Simulation.time s' = Simulation.time s ->
  config s' = config s ->
  Formed s' m <-> Formed s m.
Proof.
  intros Hh Ha Ht Hc. config_fields Hc. unfold formed.
  split; intros [rx [tx [n [Hrx [Htx E]]]]]; exists rx, tx, n.
  - rewrite <- Ha. repeat split; try assumption.
    rewrite E, !Hh. congruence.
  - rewrite Ha. repeat split; try assumption.
    rewrite E, !Hh. congruence.
Qed.

Lemma logged_frame (s s' : Simulation.t) (r : Reading) :
  (forall l, Simulation.heap s' l = Simulation.heap s l) ->
  Simulation.actors s' = Simulation.actors s ->
  Simulation.time s' = Simulation.time s ->
  logged s' r <-> logged s r.
Proof.
  intros Hh Ha Ht. unfold logged.
  split; intros [rx [tx [p [Hrx [Htx E]]]]]; exists rx, tx, p.
  - rewrite <- Ha. repeat split; try assumption.
    rewrite E, !Hh. congruence.
  - rewrite Ha. repeat split; try assumption.
    rewrite E, !Hh. congruence.
Qed.

Lemma pairwise_frame_refl (s : Simulation.t) : Frame s s.
Proof.
  unfold pairwise_frame. repeat split; try reflexivity.
  - exists []. rewrite app_nil_r. split; [reflexivity | constructor].
  - exists []. rewrite app_nil_r. split; [reflexivity | constructor].
  - auto.
Qed.

Lemma pairwise_frame_trans (s1 s2 s3 : Simulation.t) :
  Frame s1 s2 -> Frame s2 s3 -> Frame s1 s3.
Proof.
  intros [Hh [Ha [Ht [Hc [[ms [Hm Hms]] [[rs [Hr Hrs]] Ho]]]]]]
         [Hh' [Ha' [Ht' [Hc' [[ms' [Hm' Hms']] [[rs' [Hr' Hrs']] Ho']]]]]].
  unfold pairwise_frame. repeat split.
  - intros l. rewrite Hh', Hh. reflexivity.
  - congruence.
  - congruence.
  - congruence.
  - exists (ms ++ ms'). rewrite Hm', Hm, app_assoc. split; [reflexivity |].
    apply Forall_app. split; [assumption |].
    eapply Forall_impl; [| exact Hms'].
    intros m. apply (proj1 (formed_frame s1 s2 m Hh Ha Ht Hc)).
  - exists (rs ++ rs'). rewrite Hr', Hr, app_assoc. split; [reflexivity |].
    apply Forall_app. split; [assumption |].
    eapply Forall_impl; [| exact Hrs'].
    intros r. apply (proj1 (logged_frame s1 s2 r Hh Ha Ht)).
  - auto.
Qed.

Lemma tryMeeting_frame (rx tx : loc) (range : R) (s s' : Simulation.t) :
  In rx (Simulation.actors s) -> In tx (Simulation.actors s) ->
  tryMeeting rx tx range s = Some s' ->
  Frame s s'.
Proof.
  intros Hrx Htx. unfold Simulation.tryMeeting.
  assert (Hrefl : Some s = Some s' -> Frame s s').
  { intros H. injection H as <-. apply pairwise_frame_refl. }
  destruct (Rgtb (Simulation.meetingDurationMean s) 0
            && Rleb range (Simulation.meetingMaxRange s));
    [| exact Hrefl].
  destruct (Simulation.getMeeting s _) as [m |] eqn:Hget;
    [exact Hrefl |].
  destruct (Rleb range _); [| exact Hrefl].
  cbn [Simulation.meetingChance Simulation.meetingDistanceMean
       Simulation.meetingDistanceSd Simulation.set_randomCalls
       Simulation.meetingDurationMean Simulation.meetingDurationSd
       Simulation.rvsCalls].
  destruct (Rgtb _ _).
  - unfold Simulation.rvs. destruct (Rltb _ 0); [discriminate |].
    intros H. injection H as <-.
    unfold pairwise_frame. cbn. repeat split.
    + eexists. split; [reflexivity |]. constructor; [| constructor].
      exists rx, tx, (Simulation.rvsCalls s). repeat split; assumption.
    + exists []. rewrite app_nil_r. split; [reflexivity | constructor].
    + intros Hnd. apply meet_once_snoc; [assumption |].
      apply getMeeting_None. assumption.
  - intros H. injection H as <-.
    unfold pairwise_frame. cbn. repeat split.
    + exists []. rewrite app_nil_r. split; [reflexivity | constructor].
    + exists []. rewrite app_nil_r. split; [reflexivity | constructor].
    + auto.
Qed.

Lemma captureReading_frame (rx tx : loc) (range : R) (s s' : Simulation.t) :
  In rx (Simulation.actors s) -> In tx (Simulation.actors s) ->
  Simulation.captureReading rx tx range s = Some s' ->
  Frame s s'.
Proof.
  intros Hrx Htx. unfold Simulation.captureReading, Simulation.call.
  destruct (Rleb range (Simulation.maxRange s)
            && Rgeb range (Simulation.wavelength s)).
  - destruct (Actor.powerReceiver _ _ _ _ _) as [[powerRx self'] |] eqn:E;
      [| discriminate].
    apply powerReceiver_self in E. subst self'.
    intros H. injection H as <-.
    unfold pairwise_frame. cbn. repeat split.
    + intros l. apply upd_same.
    + exists []. rewrite app_nil_r. split; [reflexivity | constructor].
    + eexists. split; [reflexivity |]. constructor; [| constructor].
      exists rx, tx, powerRx. rewrite !upd_same. repeat split; assumption.
    + auto.
  - intros H. injection H as <-. apply pairwise_frame_refl.
Qed.

Lemma interact_frame (rx tx : loc) (s s' : Simulation.t) :
  In rx (Simulation.actors s) -> In tx (Simulation.actors s) ->
  interact rx tx s = Some s' -> Frame s s'.
Proof.
  intros Hrx Htx. unfold Simulation.interact.
  destruct (negb _).
  - cbv zeta.
    destruct (tryMeeting rx tx _ s) as [s1 |] eqn:E; [| discriminate].
    intros H.
    pose proof (tryMeeting_frame rx tx _ s s1 Hrx Htx E) as F.
    apply (pairwise_frame_trans _ _ _ F).
    destruct F as [_ [Ha _]].
    eapply captureReading_frame; [| | exact H]; rewrite Ha; assumption.
  - intros H. injection H as <-. apply pairwise_frame_refl.
Qed.

Lemma pairwisePass_frame (s s' : Simulation.t) :
  pairwisePass s = Some s' -> Frame s s'.
Proof.
  unfold Simulation.pairwisePass.
  apply for_each_rel;
    [apply pairwise_frame_refl | apply pairwise_frame_trans |].
  intros [rxIdx rx] s1 s2 Hin F1.
  apply enumerate_In in Hin.
  assert (Ha1 : Simulation.actors s1 = Simulation.actors s) by apply F1.
  rewrite Ha1.
  apply for_each_rel;
    [apply pairwise_frame_refl | apply pairwise_frame_trans |].
  intros [txIdx tx] s3 s4 Hin' F3.
  apply enumerate_In in Hin'.
  assert (Ha3 : Simulation.actors s3 = Simulation.actors s1) by apply F3.
  apply interact_frame; rewrite Ha3, Ha1; assumption.
Qed.

(** The pass runs [interact] on the pairs of [visited], in order. *)
Lemma pairwisePass_visited (s : Simulation.t) :
  pairwisePass s
  = for_each (visited (Simulation.actors s))
      (fun p => interact (fst p) (snd p)) s.
Proof.
  unfold Simulation.pairwisePass, visited.
  rewrite for_each_flat_map.
  apply (for_each_ext (fun s1 => Frame s s1)).
  - intros [rxIdx rx] s1 _ F.
    assert (Ha : Simulation.actors s1 = Simulation.actors s) by apply F.
    rewrite Ha, for_each_map.
    apply (for_each_ext (fun _ => True)); [| trivial | trivial].
    intros [txIdx tx] s2 _ _. reflexivity.
  - intros [rxIdx rx] s1 s2 Hin F Hrun.
    apply (pairwise_frame_trans _ _ _ F).
    apply enumerate_In in Hin.
    rewrite for_each_map in Hrun. revert Hrun.
    apply for_each_rel;
      [apply pairwise_frame_refl | apply pairwise_frame_trans |].
    intros [txIdx tx] s3 s4 Hin' F3. cbn.
    apply enumerate_In in Hin'.
    assert (Ha1 : Simulation.actors s1 = Simulation.actors s) by apply F.
    assert (Ha3 : Simulation.actors s3 = Simulation.actors s1) by apply F3.
    apply interact_frame; rewrite Ha3, Ha1; assumption.
  - apply pairwise_frame_refl.
Qed.

End PairwisePass.

(** ** The movement loop *)

Lemma outside_spec (s : Simulation.t) (a : Actor.t) :
  Rltb (Actor.x a) (Simulation.minX s) || Rgtb (Actor.x a) (Simulation.maxX s)
  || Rltb (Actor.y a) (Simulation.minY s)
  || Rgtb (Actor.y a) (Simulation.maxY s) = true
  <-> outside s a.
Proof.
  unfold outside, Rgtb, Rgt.
  rewrite !orb_true_iff, !Rltb_spec. tauto.
Qed.

Lemma updatePosition_fields (secondsElapsed : R) (self self' : Actor.t) :
  Actor.updatePosition secondsElapsed self = Some (tt, self') ->
  Actor.id self' = Actor.id self
  /\ Actor.included self' = Actor.included self.
Proof.
  unfold Actor.updatePosition.
  destruct (Actor.xComponent self), (Actor.yComponent self); try discriminate.
  intros H. injection H as <-. split; reflexivity.
Qed.

Lemma movement_frame_refl (s : Simulation.t) : movement_frame s s.
Proof. unfold movement_frame. repeat split; auto. Qed.

Lemma movement_frame_trans (s1 s2 s3 : Simulation.t) :
  movement_frame s1 s2 -> movement_frame s2 s3 -> movement_frame s1 s3.
Proof.
  unfold movement_frame.
  intros [Ha [Ht [Hc [Hm [Hr [Hn [Hv [Hi Hinc]]]]]]]]
         [Ha' [Ht' [Hc' [Hm' [Hr' [Hn' [Hv' [Hi' Hinc']]]]]]]].
  split; [congruence |]. split; [congruence |]. split; [congruence |].
  split; [congruence |]. split; [congruence |]. split; [congruence |].
  split; [congruence |]. split.
  - intros l. rewrite Hi', Hi. reflexivity.
  - intros l H. apply Hinc, Hinc', H.
Qed.

(** One iteration of the movement loop on the reference [l]. *)
Lemma move_cases (secondsElapsed : R) (l : loc) (s s1 : Simulation.t)
    (remainingActors rem1 : list loc) :
  Simulation.move secondsElapsed l (s, remainingActors) = Some (s1, rem1) ->
  movement_frame s s1
  /\ (forall k, k <> l -> Simulation.heap s1 k = Simulation.heap s k)
  /\ ((Actor.included (Simulation.heap s l) = false
       /\ Simulation.heap s1 l = Simulation.heap s l
       /\ rem1 = remainingActors)
      \/ (Actor.included (Simulation.heap s l) = true
          /\ Simulation.isInMeeting s (Actor.id (Simulation.heap s l))
               (Simulation.time s) = true
          /\ Simulation.heap s1 l = Simulation.heap s l
          /\ rem1 = remainingActors ++ [l])
      \/ (Actor.included (Simulation.heap s l) = true
          /\ Simulation.isInMeeting s (Actor.id (Simulation.heap s l))
               (Simulation.time s) = false
          /\ exists self',
               Actor.updatePosition secondsElapsed (Simulation.heap s l)
               = Some (tt, self')
               /\ ((outside s self'
                    /\ Simulation.heap s1 l = Actor.set_included self' false
                    /\ rem1 = remainingActors)
                   \/ (~ outside s self'
                       /\ Simulation.heap s1 l = self'
                       /\ rem1 = remainingActors ++ [l])))).
Proof.
  unfold Simulation.move.
  destruct (Actor.included (Simulation.heap s l)) eqn:Hinc.
  2:{ intros H. injection H as <- <-.
      split; [apply movement_frame_refl |]. split; [reflexivity |].
      left. auto. }
  destruct (Simulation.isInMeeting s _ _) eqn:Hmeet; cbn [negb].
  { intros H. injection H as <- <-.
    split; [apply movement_frame_refl |]. split; [reflexivity |].
    right. left. auto. }
  unfold Simulation.call.
  destruct (Actor.updatePosition secondsElapsed (Simulation.heap s l))
    as [[[] self'] |] eqn:Hupd; [| discriminate].
  destruct (updatePosition_fields _ _ _ Hupd) as [Hid Hincl].
  cbn [Simulation.heap Simulation.set_heap Simulation.minX Simulation.maxX
       Simulation.minY Simulation.maxY].
  rewrite upd_eq.
  destruct (Rltb _ _ || _ || _ || _) eqn:Hout.
  - apply outside_spec in Hout.
    intros H. injection H as <- <-. cbn.
    split; [| split].
    + unfold movement_frame. cbn. repeat split.
      * intros k. unfold upd. destruct (Nat.eqb_spec k l) as [-> | _]; cbn; auto.
      * intros k. unfold upd. destruct (Nat.eqb_spec k l) as [-> | _]; cbn; auto;
          discriminate.
    + intros k N. rewrite !upd_neq by assumption. reflexivity.
    + right. right. repeat split; try reflexivity.
      exists self'. split; [reflexivity |]. left.
      rewrite upd_eq. auto.
  - assert (Hnout : ~ outside s self').
    { intros Ho. apply outside_spec in Ho. congruence. }
    intros H. injection H as <- <-. cbn.
    split; [| split].
    + unfold movement_frame. cbn. repeat split.
      * intros k. unfold upd. destruct (Nat.eqb_spec k l) as [-> | _]; cbn; auto.
      * intros k. unfold upd. destruct (Nat.eqb_spec k l) as [-> | _]; cbn; auto;
          congruence.
    + intros k N. rewrite !upd_neq by assumption. reflexivity.
    + right. right. repeat split; try reflexivity.
      exists self'. split; [reflexivity |]. right.
      rewrite upd_eq. auto.
Qed.

Lemma move_remaining (secondsElapsed : R) (l : loc) (s s1 : Simulation.t)
    (remainingActors rem1 : list loc) :
  Simulation.move secondsElapsed l (s, remainingActors) = Some (s1, rem1) ->
  rem1 = remainingActors \/ rem1 = remainingActors ++ [l].
Proof.
  intros H. apply move_cases in H. destruct H as [_ [_ Hcase]].
  destruct Hcase as [[_ [_ E]] | [[_ [_ [_ E]]] | [_ [_ [a [_ Hcase]]]]]]; auto.
  destruct Hcase as [[_ [_ E]] | [_ [_ E]]]; auto.
Qed.

Lemma move_loop_frame (secondsElapsed : R) (ls : list loc)
    (s s' : Simulation.t) (rem rem' : list loc) :
  for_each ls (Simulation.move secondsElapsed) (s, rem) = Some (s', rem') ->
  movement_frame s s'.
Proof.
  intros H.
  apply (for_each_rel (fun st st' => movement_frame (fst st) (fst st'))
           ls (Simulation.move secondsElapsed) (s, rem)) in H;
    [exact H | | |].
  - intros st. apply movement_frame_refl.
  - intros st1 st2 st3. apply movement_frame_trans.
  - intros l [s1 r1] [s2 r2] _ _ Hm. apply move_cases in Hm. apply Hm.
Qed.

(** The tests of the loop body read the meeting list, the clock and the
    bounding box, which the loop leaves alone. *)
Lemma movement_frame_isInMeeting (s s' : Simulation.t) (i : Z) :
  movement_frame s s' ->
  Simulation.isInMeeting s' i (Simulation.time s')
  = Simulation.isInMeeting s i (Simulation.time s).
Proof.
  intros [_ [Ht [_ [Hm _]]]]. unfold Simulation.isInMeeting.
  rewrite Ht, Hm. reflexivity.
Qed.

Lemma movement_frame_outside (s s' : Simulation.t) (a : Actor.t) :
  movement_frame s s' -> outside s' a <-> outside s a.
Proof.
  intros [_ [_ [Hc _]]]. config_fields Hc. unfold outside.
  repeat match goal with
         | E : Simulation.minX _ = _ |- _ => rewrite E; clear E
         | E : Simulation.maxX _ = _ |- _ => rewrite E; clear E
         | E : Simulation.minY _ = _ |- _ => rewrite E; clear E
         | E : Simulation.maxY _ = _ |- _ => rewrite E; clear E
         end.
  reflexivity.
Qed.

(** An actor that is not included when the loop reaches it is not touched
    and not retained. *)
Lemma move_loop_excluded (secondsElapsed : R) (l : loc) (ls : list loc) :
  forall (s s' : Simulation.t) (rem rem' : list loc),
    Actor.included (Simulation.heap s l) = false ->
    ~ In l rem ->
    for_each ls (Simulation.move secondsElapsed) (s, rem) = Some (s', rem') ->
    Actor.included (Simulation.heap s' l) = false /\ ~ In l rem'.
Proof.
  induction ls as [| k ls IH]; intros s s' rem rem' Hinc Hrem Hrun.
  - injection Hrun as <- <-. auto.
  - rewrite for_each_cons in Hrun.
    destruct (Simulation.move secondsElapsed k (s, rem)) as [[s1 rem1] |] eqn:Hm;
      [| discriminate].
    pose proof (move_remaining _ _ _ _ _ _ Hm) as Hrem1.
    apply move_cases in Hm. destruct Hm as [_ [Hother Hcase]].
    apply (IH s1 s' rem1 rem'); [| | assumption].
    + destruct (Nat.eq_dec l k) as [-> | N].
      * destruct Hcase as [[_ [E _]] | [[C _] | [C _]]]; congruence.
      * rewrite (Hother l N). assumption.
    + destruct (Nat.eq_dec l k) as [-> | N].
      * destruct Hcase as [[_ [_ ->]] | [[C _] | [C _]]]; congruence.
      * destruct Hrem1 as [-> | ->]; [assumption |].
        rewrite in_app_iff. cbn. intuition congruence.
Qed.

(** An included actor outside every active meeting, whose next position
    is outside the box, leaves the loop excluded and not retained. *)
Lemma move_loop_exits (secondsElapsed : R) (l : loc) (self' : Actor.t)
    (ls : list loc) :
  forall (s s' : Simulation.t) (rem rem' : list loc),
    In l ls ->
    Actor.included (Simulation.heap s l) = true ->
    Simulation.isInMeeting s (Actor.id (Simulation.heap s l))
      (Simulation.time s) = false ->
    Actor.updatePosition secondsElapsed (Simulation.heap s l)
    = Some (tt, self') ->
    outside s self' ->
    ~ In l rem ->
    for_each ls (Simulation.move secondsElapsed) (s, rem) = Some (s', rem') ->
    Actor.included (Simulation.heap s' l) = false /\ ~ In l rem'.
Proof.
  induction ls as [| k ls IH];
    intros s s' rem rem' Hin Hinc Hmeet Hupd Hout Hrem Hrun; [destruct Hin |].
  rewrite for_each_cons in Hrun.
  destruct (Simulation.move secondsElapsed k (s, rem)) as [[s1 rem1] |] eqn:Hm;
    [| discriminate].
  pose proof (move_remaining _ _ _ _ _ _ Hm) as Hrem1.
  apply move_cases in Hm. destruct Hm as [Hframe [Hother Hcase]].
  destruct (Nat.eq_dec l k) as [<- | N].
  - destruct Hcase as [[C _] | [[_ [C _]] | [_ [_ [a [Ha Hcase]]]]]];
      try congruence.
    rewrite Hupd in Ha. injection Ha as <-.
    destruct Hcase as [[_ [E ->]] | [C _]]; [| contradiction].
    apply (move_loop_excluded secondsElapsed l ls s1 s' rem rem');
      [rewrite E; reflexivity | assumption | assumption].
  - destruct Hin as [E | Hin]; [congruence |].
    apply (IH s1 s' rem1 rem'); try assumption.
    + rewrite (Hother l N). assumption.
    + rewrite (Hother l N), (movement_frame_isInMeeting s s1 _ Hframe).
      assumption.
    + rewrite (Hother l N). assumption.
    + apply (movement_frame_outside s s1 self' Hframe). assumption.
    + destruct Hrem1 as [-> | ->]; [assumption |].
      rewrite in_app_iff. cbn. intuition congruence.
Qed.

(** An included actor of an active meeting is not touched and is
    retained. *)
Lemma move_loop_meeting (secondsElapsed : R) (l : loc) (ls : list loc) :
  forall (s s' : Simulation.t) (rem rem' : list loc),
    Actor.included (Simulation.heap s l) = true ->
    Simulation.isInMeeting s (Actor.id (Simulation.heap s l))
      (Simulation.time s) = true ->
    for_each ls (Simulation.move secondsElapsed) (s, rem) = Some (s', rem') ->
    Simulation.heap s' l = Simulation.heap s l
    /\ (In l ls \/ In l rem -> In l rem').
Proof.
  induction ls as [| k ls IH]; intros s s' rem rem' Hinc Hmeet Hrun.
  - injection Hrun as <- <-. split; [reflexivity | intros [[] | H]; exact H].
  - rewrite for_each_cons in Hrun.
    destruct (Simulation.move secondsElapsed k (s, rem)) as [[s1 rem1] |] eqn:Hm;
      [| discriminate].
    pose proof (move_remaining _ _ _ _ _ _ Hm) as Hrem1.
    apply move_cases in Hm. destruct Hm as [Hframe [Hother Hcase]].
    assert (Hl : Simulation.heap s1 l = Simulation.heap s l).
    { destruct (Nat.eq_dec l k) as [<- | N]; [| apply Hother, N].
      destruct Hcase as [[_ [E _]] | [[_ [_ [E _]]] | [_ [C _]]]]; congruence. }
    destruct (IH s1 s' rem1 rem') as [Hh Hret]; [| | assumption |].
    + rewrite Hl. assumption.
    + rewrite Hl, (movement_frame_isInMeeting s s1 _ Hframe). assumption.
    + split; [congruence |].
      intros Hin. apply Hret.
      assert (Hsub : In l rem -> In l rem1).
      { destruct Hrem1 as [-> | ->]; try rewrite in_app_iff; auto. }
      destruct Hin as [[<- | Hin] | Hin]; auto.
      right.
      destruct Hcase as [[C _] | [[_ [_ [_ ->]]] | [_ [C _]]]]; try congruence.
      rewrite in_app_iff. right. left. reflexivity.
Qed.

(** An actor that the loop changes is one of the collection, included, and
    in no meeting active at the clock. *)
Lemma move_loop_moved (secondsElapsed : R) (ls : list loc) :
  forall (s s' : Simulation.t) (rem rem' : list loc) (k : loc),
    for_each ls (Simulation.move secondsElapsed) (s, rem) = Some (s', rem') ->
    Simulation.heap s' k = Simulation.heap s k
    \/ (In k ls
        /\ Actor.included (Simulation.heap s k) = true
        /\ Simulation.isInMeeting s (Actor.id (Simulation.heap s k))
             (Simulation.time s) = false).
Proof.
  induction ls as [| l ls IH]; intros s s' rem rem' k Hrun.
  - injection Hrun as <- <-. left. reflexivity.
  - rewrite for_each_cons in Hrun.
    destruct (Simulation.move secondsElapsed l (s, rem)) as [[s1 rem1] |] eqn:Hm;
      [| discriminate].
    apply move_cases in Hm. destruct Hm as [Hframe [Hother Hcase]].
    assert (H1 : Simulation.heap s1 k = Simulation.heap s k
                 \/ (k = l
                     /\ Actor.included (Simulation.heap s k) = true
                     /\ Simulation.isInMeeting s
                          (Actor.id (Simulation.heap s k))
                          (Simulation.time s) = false)).
    { destruct (Nat.eq_dec k l) as [-> | N]; [| left; apply Hother, N].
      destruct Hcase as [[_ [E _]] | [[_ [_ [E _]]] | [Hi [Hm _]]]]; auto. }
    pose proof Hframe as [_ [_ [_ [_ [_ [_ [_ [Hid Hinc]]]]]]]].
    destruct (IH s1 s' rem1 rem' k Hrun) as [E | [Hin [Hi Hm]]].
    + destruct H1 as [E1 | [-> H1]].
      * left. congruence.
      * right. split; [left; reflexivity | exact H1].
    + right. split; [right; exact Hin |]. split; [apply Hinc, Hi |].
      rewrite <- Hid, <- (movement_frame_isInMeeting s s1 _ Hframe).
      exact Hm.
Qed.

(** ** The end tick of a meeting *)

Lemma endTime_ge (time sample : R) :
  time + 1 <= Simulation.endTime time sample.
Proof.
  unfold Simulation.endTime.
  destruct (Rltb (IZR (int (time + sample))) (time + 1)) eqn:E.
  - lra.
  - apply Rltb_nspec in E. assumption.
Qed.

(** On a clock that is not negative, [int] and the floor give the same end
    tick: where they differ the sum is negative and the end tick is raised
    to [time + 1] either way. *)
Lemma endTime_floor_eq (time sample : R) :
  0 <= time -> Simulation.endTime time sample = endTime_floor time sample.
Proof.
  intros Ht. unfold Simulation.endTime, endTime_floor, int.
  destruct (Rle_dec 0 (time + sample)) as [_ | N]; [reflexivity |].
  pose proof (Zceil_bound (time + sample)) as [Hc _].
  pose proof (Zfloor_bound (time + sample)) as [Hf _].
  assert (Hz : (Zceil (time + sample) <= 0)%Z).
  { apply Z.lt_succ_r. apply lt_IZR. rewrite succ_IZR. lra. }
  apply IZR_le in Hz.
  rewrite !Rltb_true by lra. reflexivity.
Qed.

(** ** One tick *)

Section Tick.

Variable random_random : nat -> R.
Variable norm_cdf : R -> R -> R -> R.
Variable norm_rvs : nat -> R -> R -> R.

Local Abbreviation tryMeeting := (Simulation.tryMeeting random_random norm_cdf norm_rvs).
Local Abbreviation interact := (Simulation.interact random_random norm_cdf norm_rvs).
Local Abbreviation pairwisePass := (Simulation.pairwisePass random_random norm_cdf norm_rvs).
Local Abbreviation step := (Simulation.step random_random norm_cdf norm_rvs).
Local Abbreviation exec := (Simulation.exec random_random norm_cdf norm_rvs).
Local Abbreviation run := (Simulation.run random_random norm_cdf norm_rvs).
Local Abbreviation Frame := (pairwise_frame norm_rvs).

(** The two passes of a tick that returns. *)
Lemma step_passes (secondsElapsed : R) (s s' : Simulation.t) :
  step secondsElapsed s = Some s' ->
  exists s1 remainingActors,
    for_each (Simulation.actors s) (Simulation.move secondsElapsed)
      (Simulation.set_time s (Simulation.time s + secondsElapsed), [])
    = Some (s1, remainingActors)
    /\ pairwisePass (Simulation.set_actors s1 remainingActors) = Some s'.
Proof.
  unfold Simulation.step, Simulation.movementPass.
  cbn [Simulation.actors Simulation.set_time].
  destruct (for_each _ _ _) as [[s1 rem] |]; [| discriminate].
  intros H. exists s1, rem. split; [reflexivity | exact H].
Qed.

Lemma step_frames (secondsElapsed : R) (s s' : Simulation.t) :
  step secondsElapsed s = Some s' ->
  exists s1,
    movement_frame (Simulation.set_time s (Simulation.time s + secondsElapsed)) s1
    /\ (forall l, Simulation.heap s' l = Simulation.heap s1 l)
    /\ Simulation.time s' = Simulation.time s + secondsElapsed
    /\ config s' = config s
    /\ (exists ms, Simulation.meetings s' = Simulation.meetings s ++ ms
                   /\ Forall (formed norm_rvs s') ms)
    /\ (exists rs, Simulation.readings s' = Simulation.readings s ++ rs
                   /\ Forall (logged s') rs)
    /\ (meet_once (Simulation.meetings s) -> meet_once (Simulation.meetings s')).
Proof.
  intros H. apply step_passes in H. destruct H as [s1 [rem [Hmove Hpair]]].
  apply move_loop_frame in Hmove. apply pairwisePass_frame in Hpair.
  exists s1.
  pose proof Hmove as [Ha [Ht [Hc [Hm [Hr _]]]]].
  pose proof Hpair as [Hh' [Ha' [Ht' [Hc' [[ms [Hm' Hms]] [[rs [Hr' Hrs]] Ho]]]]]].
  split; [assumption |]. split; [exact Hh' |].
  split; [exact (eq_trans Ht' Ht) |].
  split; [exact (eq_trans Hc' Hc) |].
  split; [| split].
  - exists ms. split; [exact (eq_trans Hm' (f_equal (fun l => l ++ ms) Hm)) |].
    eapply Forall_impl; [| exact Hms].
    intros m. apply (proj2 (formed_frame norm_rvs _ _ m Hh' Ha' Ht' Hc')).
  - exists rs. split; [exact (eq_trans Hr' (f_equal (fun l => l ++ rs) Hr)) |].
    eapply Forall_impl; [| exact Hrs].
    intros r. apply (proj2 (logged_frame _ _ r Hh' Ha' Ht')).
  - intros Hnd. apply Ho. cbn. rewrite Hm. exact Hnd.
Qed.

End Tick.

(** ** Exclusion is permanent *)

Lemma call_included {A : Type} (m : Actor.method A) (k l : loc) (r : A)
    (s s' : Simulation.t) :
  (forall self r' self', m self = Some (r', self') ->
                         Actor.included self' = Actor.included self) ->
  Simulation.call m k s = Some (r, s') ->
  Actor.included (Simulation.heap s' l) = Actor.included (Simulation.heap s l)
  /\ Simulation.actors s' = Simulation.actors s.
Proof.
  intros Hm. unfold Simulation.call.
  destruct (m (Simulation.heap s k)) as [[r' self'] |] eqn:E; [| discriminate].
  intros H. injection H as _ <-. cbn. split; [| reflexivity].
  unfold upd. destruct (Nat.eqb_spec l k) as [-> | _]; [| reflexivity].
  apply (Hm _ _ _ E).
Qed.

Section Exclusion.

Variable random_random : nat -> R.
Variable norm_cdf : R -> R -> R -> R.
Variable norm_rvs : nat -> R -> R -> R.

Local Abbreviation interact := (Simulation.interact random_random norm_cdf norm_rvs).
Local Abbreviation pairwisePass := (Simulation.pairwisePass random_random norm_cdf norm_rvs).
Local Abbreviation step := (Simulation.step random_random norm_cdf norm_rvs).
Local Abbreviation exec := (Simulation.exec random_random norm_cdf norm_rvs).
Local Abbreviation run := (Simulation.run random_random norm_cdf norm_rvs).

(** An actor that is excluded before a tick is excluded after it, and is
    not in the live collection the tick leaves. *)
Lemma step_excluded (secondsElapsed : R) (s s' : Simulation.t) (l : loc) :
  Actor.included (Simulation.heap s l) = false ->
  step secondsElapsed s = Some s' ->
  Actor.included (Simulation.heap s' l) = false
  /\ ~ In l (Simulation.actors s').
Proof.
  intros Hinc Hstep.
  apply step_passes in Hstep. destruct Hstep as [s1 [rem [Hmove Hpair]]].
  apply move_loop_excluded with (l := l) in Hmove;
    [| exact Hinc | intros []].
  apply pairwisePass_frame in Hpair. destruct Hpair as [Hh [Ha _]].
  rewrite Hh, Ha. exact Hmove.
Qed.

Lemma exec_excluded (o : Simulation.op) (s s' : Simulation.t) (l : loc) :
  Actor.included (Simulation.heap s l) = false ->
  exec o s = Some s' ->
  Actor.included (Simulation.heap s' l) = false
  /\ (o <> Simulation.AddActor l ->
      ~ In l (Simulation.actors s) -> ~ In l (Simulation.actors s')).
Proof.
  intros Hinc.
  destruct o as [dt | k | k m | k newX newY | k a v | k dt];
    unfold Simulation.exec.
  - intros H. destruct (step_excluded dt s s' l Hinc H). auto.
  - intros H. injection H as <-. cbn. split; [assumption |].
    intros N Hnot. rewrite in_app_iff. cbn. intros [H | [-> | []]]; auto.
  - match goal with
    | |- context [Simulation.call ?f k s] =>
        destruct (Simulation.call f k s) as [[r s1] |] eqn:E; [| discriminate]
    end.
    intros H. injection H as <-.
    apply call_included with (l := l) in E.
    + destruct E as [-> ->]. auto.
    + intros self r' self' H. injection H as _ <-. reflexivity.
  - match goal with
    | |- context [Simulation.call ?f k s] =>
        destruct (Simulation.call f k s) as [[r s1] |] eqn:E; [| discriminate]
    end.
    intros H. injection H as <-.
    apply call_included with (l := l) in E.
    + destruct E as [-> ->]. auto.
    + intros self r' self' H. injection H as _ <-. reflexivity.
  - match goal with
    | |- context [Simulation.call ?f k s] =>
        destruct (Simulation.call f k s) as [[r s1] |] eqn:E; [| discriminate]
    end.
    intros H. injection H as <-.
    apply call_included with (l := l) in E.
    + destruct E as [-> ->]. auto.
    + intros self r' self' H. injection H as _ <-. reflexivity.
  - match goal with
    | |- context [Simulation.call ?f k s] =>
        destruct (Simulation.call f k s) as [[r s1] |] eqn:E; [| discriminate]
    end.
    intros H. injection H as <-.
    apply call_included with (l := l) in E.
    + destruct E as [-> ->]. auto.
    + intros self [] self' H. apply updatePosition_fields in H. apply H.
Qed.

Lemma run_excluded (ops : list Simulation.op) (l : loc) :
  forall s s' : Simulation.t,
    Actor.included (Simulation.heap s l) = false ->
    run ops s = Some s' ->
    Actor.included (Simulation.heap s' l) = false
    /\ (~ In (Simulation.AddActor l) ops ->
        ~ In l (Simulation.actors s) -> ~ In l (Simulation.actors s')).
Proof.
  unfold Simulation.run.
  induction ops as [| o ops IH]; intros s s' Hinc Hrun.
  - injection Hrun as <-. auto.
  - rewrite for_each_cons in Hrun.
    destruct (exec o s) as [s1 |] eqn:E; [| discriminate].
    destruct (exec_excluded o s s1 l Hinc E) as [Hinc1 Hact1].
    destruct (IH s1 s' Hinc1 Hrun) as [Hinc' Hact'].
    split; [assumption |].
    intros Hnot Hl. apply Hact'.
    + intros Hin. apply Hnot. right. assumption.
    + apply Hact1; [| assumption].
      intros ->. apply Hnot. left. reflexivity.
Qed.

(** C7.  An included actor of the collection that is in no meeting active
    at the advanced clock, and whose position after [updatePosition] is
    outside the bounding box, is excluded by that tick and absent from the
    live collection the tick leaves.  Whatever the caller does afterwards
    ([ops]), the actor stays excluded; it is in the collection again only
    if the caller adds it again, and then only until the next tick: after
    every later tick it is absent from the live collection, and that tick
    runs its meeting test and its reading on the pairs of that collection
    only, none of which has the actor. *)
Theorem step_excludes_out_of_bounds (secondsElapsed : R)
    (s s1 : Simulation.t) (l : loc) (self' : Actor.t) :
  In l (Simulation.actors s) ->
  Actor.included (Simulation.heap s l) = true ->
  ~ in_active_meeting s (Actor.id (Simulation.heap s l))
      (Simulation.time s + secondsElapsed) ->
  Actor.updatePosition secondsElapsed (Simulation.heap s l)
  = Some (tt, self') ->
  outside s self' ->
  step secondsElapsed s = Some s1 ->
  Actor.included (Simulation.heap s1 l) = false
  /\ ~ In l (Simulation.actors s1)
  /\ forall ops s2,
       run ops s1 = Some s2 ->
       Actor.included (Simulation.heap s2 l) = false
       /\ (~ In (Simulation.AddActor l) ops -> ~ In l (Simulation.actors s2))
       /\ forall secondsElapsed' s3,
            step secondsElapsed' s2 = Some s3 ->
            ~ In l (Simulation.actors s3)
            /\ exists live,
                 Simulation.movementPass secondsElapsed'
                   (Simulation.set_time s2
                      (Simulation.time s2 + secondsElapsed'))
                 = Some live
                 /\ Simulation.actors live = Simulation.actors s3
                 /\ for_each (visited (Simulation.actors s3))
                      (fun p => interact (fst p) (snd p)) live
                    = Some s3
                 /\ forall rx tx,
                      In (rx, tx) (visited (Simulation.actors s3)) ->
                      rx <> l /\ tx <> l.
Proof.
  intros Hin Hinc Hmeet Hupd Hout Hstep.
  assert (Hnow : Actor.included (Simulation.heap s1 l) = false
                 /\ ~ In l (Simulation.actors s1)).
  { apply step_passes in Hstep. destruct Hstep as [s' [rem [Hmove Hpair]]].
    apply move_loop_exits with (l := l) (self' := self') in Hmove;
      try assumption; [| | intros []].
    - apply pairwisePass_frame in Hpair. destruct Hpair as [Hh [Ha _]].
      rewrite Hh, Ha. exact Hmove.
    - destruct (Simulation.isInMeeting _ _ _) eqn:E; [| reflexivity].
      exfalso. apply Hmeet. apply isInMeeting_spec in E. exact E. }
  destruct Hnow as [Hinc1 Hact1].
  split; [assumption |]. split; [assumption |].
  intros ops s2 Hrun.
  destruct (run_excluded ops l s1 s2 Hinc1 Hrun) as [Hinc2 Hact2].
  split; [assumption |]. split; [auto |].
  intros dt' s3 Hstep'.
  destruct (step_excluded dt' s2 s3 l Hinc2 Hstep') as [_ Hact3].
  split; [assumption |].
  unfold Simulation.step in Hstep'.
  destruct (Simulation.movementPass dt' _) as [live |] eqn:Hlive;
    [| discriminate].
  exists live. split; [reflexivity |].
  assert (Ha : Simulation.actors s3 = Simulation.actors live).
  { apply pairwisePass_frame in Hstep'. apply Hstep'. }
  split; [symmetry; assumption |].
  split.
  - rewrite Ha, <- pairwisePass_visited. assumption.
  - intros rx tx Hv. apply visited_In in Hv. destruct Hv as [Hrx Htx].
    split; intros ->; contradiction.
Qed.

(** C8.  In a tick, an included actor of the collection that takes part
    in a meeting active at the advanced clock keeps its position and its
    flag, and is in the live collection the tick leaves.  The actors that
    the tick does change are included actors of the collection in no
    meeting active at the advanced clock. *)
Theorem step_freezes_meeting_participants (secondsElapsed : R)
    (s s' : Simulation.t) :
  step secondsElapsed s = Some s' ->
  (forall l,
     In l (Simulation.actors s) ->
     Actor.included (Simulation.heap s l) = true ->
     in_active_meeting s (Actor.id (Simulation.heap s l))
       (Simulation.time s + secondsElapsed) ->
     Actor.x (Simulation.heap s' l) = Actor.x (Simulation.heap s l)
     /\ Actor.y (Simulation.heap s' l) = Actor.y (Simulation.heap s l)
     /\ Actor.included (Simulation.heap s' l) = true
     /\ In l (Simulation.actors s'))
  /\ (forall k,
        Simulation.heap s' k <> Simulation.heap s k ->
        In k (Simulation.actors s)
        /\ Actor.included (Simulation.heap s k) = true
        /\ ~ in_active_meeting s (Actor.id (Simulation.heap s k))
              (Simulation.time s + secondsElapsed)).
Proof.
  intros Hstep.
  apply step_passes in Hstep. destruct Hstep as [s1 [rem [Hmove Hpair]]].
  apply pairwisePass_frame in Hpair. destruct Hpair as [Hh [Ha _]].
  split.
  - intros l Hin Hinc Hmeet.
    apply move_loop_meeting with (l := l) in Hmove;
      [| exact Hinc | apply isInMeeting_spec; exact Hmeet].
    destruct Hmove as [Hheap Hret].
    rewrite Hh, Ha. cbn in Hheap |- *. rewrite Hheap.
    repeat split; try assumption. apply Hret. left. assumption.
  - intros k Hk.
    destruct (move_loop_moved _ _ _ _ _ _ k Hmove) as [E | [Hin [Hi Hm]]].
    + exfalso. apply Hk. rewrite Hh. exact E.
    + split; [exact Hin |]. split; [exact Hi |].
      intros Hact. apply isInMeeting_spec in Hact.
      cbn in Hm. unfold Simulation.isInMeeting in Hact, Hm. cbn in Hm.
      congruence.
Qed.

End Exclusion.

(** ** Runs *)

Lemma call_set_heap {A : Type} (m : Actor.method A) (k : loc) (r : A)
    (s s' : Simulation.t) :
  Simulation.call m k s = Some (r, s') ->
  exists h, s' = Simulation.set_heap s h.
Proof.
  unfold Simulation.call.
  destruct (m (Simulation.heap s k)) as [[r' self'] |]; [| discriminate].
  intros H. injection H as _ <-. eexists. reflexivity.
Qed.

Section Runs.

Variable random_random : nat -> R.
Variable norm_cdf : R -> R -> R -> R.
Variable norm_rvs : nat -> R -> R -> R.

Local Abbreviation step := (Simulation.step random_random norm_cdf norm_rvs).
Local Abbreviation exec := (Simulation.exec random_random norm_cdf norm_rvs).
Local Abbreviation run := (Simulation.run random_random norm_cdf norm_rvs).
Local Abbreviation Reachable := (reachable random_random norm_cdf norm_rvs).

(** No operation assigns the configuration; the meeting list only grows,
    and it keeps having one meeting per pair at most. *)
Lemma exec_frame (o : Simulation.op) (s s' : Simulation.t) :
  exec o s = Some s' ->
  config s' = config s
  /\ (exists ms, Simulation.meetings s' = Simulation.meetings s ++ ms)
  /\ (meet_once (Simulation.meetings s) -> meet_once (Simulation.meetings s')).
Proof.
  assert (Hcall : forall (m : Actor.method unit) k,
             option_map snd (Simulation.call m k s) = Some s' ->
             config s' = config s
             /\ (exists ms, Simulation.meetings s'
                            = Simulation.meetings s ++ ms)
             /\ (meet_once (Simulation.meetings s) ->
                 meet_once (Simulation.meetings s'))).
  { intros m k H.
    destruct (Simulation.call m k s) as [[r s1] |] eqn:E; [| discriminate].
    injection H as <-. apply call_set_heap in E. destruct E as [h ->].
    split; [reflexivity |]. split; [| auto].
    exists []. rewrite app_nil_r. reflexivity. }
  destruct o as [dt | k | k m | k newX newY | k a v | k dt];
    unfold Simulation.exec; try apply Hcall.
  - intros H. apply step_frames in H.
    destruct H as [s1 [_ [_ [_ [Hc [[ms [Hm _]] [_ Ho]]]]]]].
    split; [assumption |]. split; [exists ms; assumption | assumption].
  - intros H. injection H as <-.
    split; [reflexivity |]. split; [| auto].
    exists []. rewrite app_nil_r. reflexivity.
Qed.

Lemma run_frame (ops : list Simulation.op) :
  forall s s' : Simulation.t,
    run ops s = Some s' ->
    config s' = config s
    /\ (exists ms, Simulation.meetings s' = Simulation.meetings s ++ ms)
    /\ (meet_once (Simulation.meetings s) -> meet_once (Simulation.meetings s')).
Proof.
  unfold Simulation.run.
  induction ops as [| o ops IH]; intros s s' Hrun.
  - injection Hrun as <-. split; [reflexivity |]. split; [| auto].
    exists []. rewrite app_nil_r. reflexivity.
  - rewrite for_each_cons in Hrun.
    destruct (exec o s) as [s1 |] eqn:E; [| discriminate].
    apply exec_frame in E. destruct E as [Hc [[ms Hm] Ho]].
    destruct (IH s1 s' Hrun) as [Hc' [[ms' Hm'] Ho']].
    split; [congruence |]. split; [| auto].
    exists (ms ++ ms'). rewrite Hm', Hm, app_assoc. reflexivity.
Qed.

Lemma reachable_meet_once (s : Simulation.t) :
  Reachable s -> meet_once (Simulation.meetings s).
Proof.
  induction 1 as [h actors frequency maxEffectRange minX maxX minY maxY
                    mDM mDSd mDiM mDiSd chance mMR s Hinit
                 | s o s' _ IH Hexec].
  - unfold Simulation.init in Hinit.
    destruct (Req_dec_T frequency 0); [discriminate |].
    injection Hinit as <-. constructor.
  - apply exec_frame in Hexec. apply Hexec. assumption.
Qed.

Lemma reachable_run (ops : list Simulation.op) :
  forall s s' : Simulation.t,
    Reachable s -> run ops s = Some s' -> Reachable s'.
Proof.
  unfold Simulation.run.
  induction ops as [| o ops IH]; intros s s' Hr Hrun.
  - injection Hrun as <-. assumption.
  - rewrite for_each_cons in Hrun.
    destruct (exec o s) as [s1 |] eqn:E; [| discriminate].
    apply (IH s1 s'); [| assumption].
    apply (reachable_exec _ _ _ s o s1); assumption.
Qed.

(** C3.  In every state of a simulation, two meetings of the list that
    are of the same unordered pair of identifiers are the same entry of
    the list.  The list only grows; so a meeting appended later is never
    of the pair of a meeting that is in the list already, whether that
    one is still active or not. *)
Theorem meetings_meet_once (s : Simulation.t) :
  Reachable s ->
  (forall a b i j mi mj,
     nth_error (Simulation.meetings s) i = Some mi ->
     nth_error (Simulation.meetings s) j = Some mj ->
     meets a b mi -> meets a b mj -> i = j)
  /\ forall ops s',
       run ops s = Some s' ->
       exists ms,
         Simulation.meetings s' = Simulation.meetings s ++ ms
         /\ forall a b m m',
              In m (Simulation.meetings s) -> In m' ms ->
              meets a b m -> ~ meets a b m'.
Proof.
  intros Hr. split.
  - pose proof (reachable_meet_once s Hr) as Hnd. unfold meet_once in Hnd.
    intros a b i j mi mj Hi Hj Hmi Hmj.
    apply (proj1 (NoDup_nth_error _) Hnd).
    + rewrite length_map. apply nth_error_Some. rewrite Hi. discriminate.
    + rewrite !nth_error_map, Hi, Hj. cbn. f_equal.
      rewrite (sorted_perm _ _ Hmi), (sorted_perm _ _ Hmj). reflexivity.
  - intros ops s' Hrun.
    pose proof (reachable_meet_once s' (reachable_run ops s s' Hr Hrun)) as Hnd.
    apply run_frame in Hrun. destruct Hrun as [_ [[ms Hm] _]].
    exists ms. split; [assumption |].
    intros a b m m' Hin Hin' Hmeets Hmeets'.
    unfold meet_once in Hnd. rewrite Hm, map_app in Hnd.
    apply in_split in Hin'. destruct Hin' as [pre [post ->]].
    rewrite map_app in Hnd. cbn in Hnd. rewrite app_assoc in Hnd.
    apply NoDup_remove_2 in Hnd. apply Hnd.
    rewrite in_app_iff. left. rewrite in_app_iff. left.
    rewrite (sorted_perm _ _ Hmeets'), <- (sorted_perm _ _ Hmeets).
    apply in_map_iff. exists m. split; [reflexivity | assumption].
Qed.

(** C6, as amended.  The meetings that a tick appends are each of two
    actors of the live collection, start at the advanced clock, and end at
    [int] of the clock plus a sample of the duration distribution, raised
    to the clock plus one; so they last one tick at least.  [int]
    truncates toward zero: on a clock that is not negative the end is the
    floor of that sum, raised likewise. *)
Theorem step_meetings_formed (secondsElapsed : R) (s s' : Simulation.t) :
  step secondsElapsed s = Some s' ->
  Simulation.time s' = Simulation.time s + secondsElapsed
  /\ exists ms,
       Simulation.meetings s' = Simulation.meetings s ++ ms
       /\ forall m, In m ms ->
            Meeting.start m = Simulation.time s'
            /\ Meeting.start m + 1 <= Meeting.end_ m
            /\ 1 <= Meeting.duration m
            /\ exists rx tx n,
                 In rx (Simulation.actors s') /\ In tx (Simulation.actors s')
                 /\ Meeting.participants m
                    = [Actor.id (Simulation.heap s' rx);
                       Actor.id (Simulation.heap s' tx)]
                 /\ let sample :=
                      norm_rvs n (Simulation.meetingDurationMean s')
                                 (Simulation.meetingDurationSd s') in
                    Meeting.end_ m
                    = Simulation.endTime (Simulation.time s') sample
                    /\ (0 <= Simulation.time s' ->
                        Meeting.end_ m
                        = endTime_floor (Simulation.time s') sample).
Proof.
  intros H. apply step_frames in H.
  destruct H as [s1 [_ [_ [Ht [_ [[ms [Hm Hms]] _]]]]]].
  split; [assumption |]. exists ms. split; [assumption |].
  intros m Hin. rewrite Forall_forall in Hms.
  destruct (Hms m Hin) as [rx [tx [n [Hrx [Htx ->]]]]]. cbn.
  pose proof (endTime_ge (Simulation.time s')
                (norm_rvs n (Simulation.meetingDurationMean s')
                            (Simulation.meetingDurationSd s'))) as Hge.
  split; [reflexivity |]. split; [lra |].
  split; [unfold Meeting.duration; cbn; lra |].
  exists rx, tx, n. repeat split; try assumption.
  apply endTime_floor_eq.
Qed.

End Runs.

(** ** The meeting test and the reading of one visited pair *)

Section Visit.

Variable random_random : nat -> R.
Variable norm_cdf : R -> R -> R -> R.
Variable norm_rvs : nat -> R -> R -> R.

Local Abbreviation tryMeeting := (Simulation.tryMeeting random_random norm_cdf norm_rvs).
Local Abbreviation interact := (Simulation.interact random_random norm_cdf norm_rvs).
Local Abbreviation pairwisePass := (Simulation.pairwisePass random_random norm_cdf norm_rvs).
Local Abbreviation step := (Simulation.step random_random norm_cdf norm_rvs).
Local Abbreviation run := (Simulation.run random_random norm_cdf norm_rvs).

Lemma tryMeeting_skip (rx tx : loc) (range : R) (s : Simulation.t) :
  Simulation.meetingDurationMean s <= 0
  \/ range > Simulation.meetingMaxRange s
  \/ (exists m, In m (Simulation.meetings s)
                /\ meets (Actor.id (Simulation.heap s rx))
                         (Actor.id (Simulation.heap s tx)) m)
  \/ range > Simulation.meetingDistanceMean s
             + 2 * Simulation.meetingDistanceSd s ->
  tryMeeting rx tx range s = Some s.
Proof.
  intros Hskip. unfold Simulation.tryMeeting, Rgtb.
  destruct (Rltb 0 (Simulation.meetingDurationMean s)) eqn:E1; [| reflexivity].
  destruct (Rleb range (Simulation.meetingMaxRange s)) eqn:E2; cbn [andb];
    [| reflexivity].
  destruct (Simulation.getMeeting s _) as [m |] eqn:E3; [reflexivity |].
  destruct (Rleb range (Simulation.meetingDistanceMean s
                        + 2 * Simulation.meetingDistanceSd s)) eqn:E4;
    [| reflexivity].
  exfalso.
  apply Rltb_spec in E1. apply Rleb_spec in E2. apply Rleb_spec in E4.
  rewrite getMeeting_None_pair in E3.
  destruct Hskip as [H | [H | [[m [Hin Hm]] | H]]]; try lra.
  apply (E3 m Hin Hm).
Qed.

Lemma tryMeeting_test (rx tx : loc) (range : R) (s : Simulation.t) :
  0 < Simulation.meetingDurationMean s ->
  range <= Simulation.meetingMaxRange s ->
  (forall m, In m (Simulation.meetings s) ->
             ~ meets (Actor.id (Simulation.heap s rx))
                     (Actor.id (Simulation.heap s tx)) m) ->
  range <= Simulation.meetingDistanceMean s
           + 2 * Simulation.meetingDistanceSd s ->
  tryMeeting rx tx range s
  = let rnd := random_random (Simulation.randomCalls s) in
    let s1 := Simulation.set_randomCalls s (S (Simulation.randomCalls s)) in
    if Rgtb (rnd * Simulation.meetingChance s)
            (norm_cdf range (Simulation.meetingDistanceMean s)
                      (Simulation.meetingDistanceSd s))
    then
      match Simulation.rvs norm_rvs (Simulation.rvsCalls s)
              (Simulation.meetingDurationMean s)
              (Simulation.meetingDurationSd s) with
      | None => None
      | Some sample =>
          Some (Simulation.set_meetings
                  (Simulation.set_rvsCalls s1 (S (Simulation.rvsCalls s)))
                  (Simulation.meetings s
                   ++ [Meeting.mk (Simulation.time s)
                         (Simulation.endTime (Simulation.time s) sample)
                         [Actor.id (Simulation.heap s rx);
                          Actor.id (Simulation.heap s tx)]]))
      end
    else Some s1.
Proof.
  intros H1 H2 H3 H4. unfold Simulation.tryMeeting, Rgtb.
  rewrite (Rltb_true _ _ H1), (Rleb_true _ _ H2). cbn [andb].
  rewrite (proj2 (getMeeting_None_pair s _ _) H3), (Rleb_true _ _ H4).
  reflexivity.
Qed.

Lemma rvs_defined (n : nat) (loc scale : R) :
  0 <= scale ->
  Simulation.rvs norm_rvs n loc scale = Some (norm_rvs n loc scale).
Proof.
  intros H. unfold Simulation.rvs. rewrite Rltb_false by lra. reflexivity.
Qed.

Lemma rvs_raises (n : nat) (loc scale : R) :
  scale < 0 -> Simulation.rvs norm_rvs n loc scale = None.
Proof.
  intros H. unfold Simulation.rvs. rewrite Rltb_true by lra. reflexivity.
Qed.

(** The reading of a pair. *)
Lemma captureReading_guard (range : R) (s : Simulation.t) :
  0 < Simulation.wavelength s ->
  Rleb range (Simulation.maxRange s) && Rgeb range (Simulation.wavelength s)
  = true ->
  0 < Simulation.wavelength s <= range.
Proof.
  intros Hw H. apply andb_true_iff in H. destruct H as [_ H].
  apply Rleb_spec in H. lra.
Qed.

Lemma captureReading_defined (rx tx : loc) (range : R) (s : Simulation.t) :
  0 < Simulation.wavelength s ->
  exists s', Simulation.captureReading rx tx range s = Some s'
             /\ config s' = config s.
Proof.
  intros Hw. unfold Simulation.captureReading, Simulation.call.
  destruct (Rleb range (Simulation.maxRange s)
            && Rgeb range (Simulation.wavelength s)) eqn:G.
  - destruct (captureReading_guard range s Hw G) as [_ Hr].
    rewrite powerReceiver_defined by lra.
    eexists. split; reflexivity.
  - exists s. split; reflexivity.
Qed.

Lemma tryMeeting_config (rx tx : loc) (range : R) (s s' : Simulation.t) :
  tryMeeting rx tx range s = Some s' -> config s' = config s.
Proof.
  unfold Simulation.tryMeeting.
  assert (Hrefl : Some s = Some s' -> config s' = config s)
    by (intros H; injection H as <-; reflexivity).
  destruct (Rgtb _ _ && _); [| exact Hrefl].
  destruct (Simulation.getMeeting s _); [exact Hrefl |].
  destruct (Rleb range _); [| exact Hrefl].
  cbv zeta. destruct (Rgtb _ _).
  - destruct (Simulation.rvs _ _ _ _); [| discriminate].
    intros H. injection H as <-. reflexivity.
  - intros H. injection H as <-. reflexivity.
Qed.

Lemma tryMeeting_defined (rx tx : loc) (range : R) (s : Simulation.t) :
  rvs_returns s -> exists s', tryMeeting rx tx range s = Some s'.
Proof.
  intros [Hoff | Hsd].
  - exists s. apply tryMeeting_skip. left. exact Hoff.
  - unfold Simulation.tryMeeting.
    destruct (Rgtb _ _ && _); [| eexists; reflexivity].
    destruct (Simulation.getMeeting s _); [eexists; reflexivity |].
    destruct (Rleb range _); [| eexists; reflexivity].
    cbv zeta. destruct (Rgtb _ _); [| eexists; reflexivity].
    cbn [Simulation.meetingDurationSd Simulation.meetingDurationMean
         Simulation.rvsCalls Simulation.set_randomCalls].
    rewrite rvs_defined by exact Hsd. eexists; reflexivity.
Qed.

Lemma config_wavelength (s s' : Simulation.t) :
  config s' = config s -> Simulation.wavelength s' = Simulation.wavelength s.
Proof. intros H. config_fields H. assumption. Qed.

Lemma interact_defined (rx tx : loc) (s : Simulation.t) :
  0 < Simulation.wavelength s ->
  rvs_returns s ->
  exists s', interact rx tx s = Some s' /\ config s' = config s.
Proof.
  intros Hw Hr. unfold Simulation.interact.
  destruct (negb _); [| exists s; split; reflexivity].
  cbv zeta.
  destruct (tryMeeting_defined rx tx
              (Simulation.distance (Simulation.heap s rx)
                                   (Simulation.heap s tx)) s Hr)
    as [s1 E1].
  rewrite E1. apply tryMeeting_config in E1.
  destruct (captureReading_defined rx tx
              (Simulation.distance (Simulation.heap s rx) (Simulation.heap s tx))
              s1)
    as [s' [E Hc']].
  { rewrite (config_wavelength _ _ E1). assumption. }
  exists s'. split; [exact E | congruence].
Qed.

Lemma config_rvs_returns (s s' : Simulation.t) :
  config s' = config s -> rvs_returns s -> rvs_returns s'.
Proof.
  intros H. unfold rvs_returns. config_fields H. congruence.
Qed.

(** With a positive wavelength, and meetings disabled or a duration
    deviation that is not negative, the pairwise pass returns. *)
Lemma pairwisePass_defined (s : Simulation.t) :
  0 < Simulation.wavelength s ->
  rvs_returns s ->
  exists s', pairwisePass s = Some s'.
Proof.
  intros Hw Hr. unfold Simulation.pairwisePass.
  destruct (for_each_defined (fun s1 => config s1 = config s)
              (enumerate (Simulation.actors s) 0)
              (fun '(rxIdx, actorRx) s1 =>
                 for_each (enumerate (Simulation.actors s1) (rxIdx + 1))
                   (fun '(_, actorTx) s2 => interact actorRx actorTx s2) s1))
    with (s := s) as [s' [E _]]; [| reflexivity | exists s'; exact E].
  intros [rxIdx rx] s1 _ Hc1.
  apply for_each_defined; [| assumption].
  intros [txIdx tx] s2 _ Hc2.
  destruct (interact_defined rx tx s2) as [s3 [E3 Hc3]].
  - rewrite (config_wavelength _ _ Hc2). assumption.
  - apply (config_rvs_returns s); assumption.
  - exists s3. split; [exact E3 | congruence].
Qed.

End Visit.

(** ** A tick returns *)

Section Defined.

Variable random_random : nat -> R.
Variable norm_cdf : R -> R -> R -> R.
Variable norm_rvs : nat -> R -> R -> R.

Local Abbreviation step := (Simulation.step random_random norm_cdf norm_rvs).

Lemma move_defined (secondsElapsed : R) (l : loc) (s : Simulation.t)
    (rem : list loc) :
  (forall k, has_velocity (Simulation.heap s k)) ->
  exists s' rem',
    Simulation.move secondsElapsed l (s, rem) = Some (s', rem')
    /\ (forall k, has_velocity (Simulation.heap s' k)).
Proof.
  intros Hv. unfold Simulation.move.
  destruct (Actor.included (Simulation.heap s l));
    [| exists s, rem; auto].
  destruct (negb _); [| exists s, (rem ++ [l]); auto].
  unfold Simulation.call, Actor.updatePosition.
  destruct (Hv l) as [Hx Hy].
  destruct (Actor.xComponent (Simulation.heap s l)) as [xc |] eqn:Ex;
    [| contradiction].
  destruct (Actor.yComponent (Simulation.heap s l)) as [yc |] eqn:Ey;
    [| contradiction].
  cbn [Simulation.heap Simulation.set_heap Simulation.minX Simulation.maxX
       Simulation.minY Simulation.maxY].
  destruct (Rltb _ _ || _ || _ || _); eexists; eexists;
    (split; [reflexivity |]); cbn; intros k; unfold upd;
    rewrite ?Nat.eqb_refl; destruct (Nat.eqb k l); cbn; try apply Hv;
    unfold has_velocity; cbn; rewrite ?Ex, ?Ey; split; discriminate.
Qed.

(** A tick on actors whose velocity was set, in a simulation of positive
    wavelength whose call of [stats.norm.rvs] returns, returns. *)
Lemma step_defined (secondsElapsed : R) (s : Simulation.t) :
  (forall k, has_velocity (Simulation.heap s k)) ->
  0 < Simulation.wavelength s ->
  rvs_returns s ->
  exists s', step secondsElapsed s = Some s'.
Proof.
  intros Hv Hw Hr. unfold Simulation.step, Simulation.movementPass.
  destruct (for_each_defined
              (fun st : Simulation.t * list loc =>
                 forall k, has_velocity (Simulation.heap (fst st) k))
              (Simulation.actors
                 (Simulation.set_time s (Simulation.time s + secondsElapsed)))
              (Simulation.move secondsElapsed))
    with (s := (Simulation.set_time s (Simulation.time s + secondsElapsed),
                @nil loc))
    as [[s1 rem] [E _]].
  - intros l [s0 rem0] _ H. cbn in H.
    destruct (move_defined secondsElapsed l s0 rem0 H) as [s' [rem' [E Hv']]].
    exists (s', rem'). split; assumption.
  - exact Hv.
  - pose proof E as Hframe. apply move_loop_frame in Hframe.
    rewrite E. destruct Hframe as [_ [_ [Hc _]]].
    apply pairwisePass_defined.
    + apply config_wavelength in Hc. cbn in Hc |- *. rewrite Hc. assumption.
    + apply (config_rvs_returns (Simulation.set_time s
                                   (Simulation.time s + secondsElapsed)));
        [exact Hc | exact Hr].
Qed.

End Defined.

(** ** The pairwise pass on two actors *)

Lemma distance_sym (a b : Actor.t) :
  Simulation.distance a b = Simulation.distance b a.
Proof. unfold Simulation.distance. f_equal. ring. Qed.

Lemma distance_heap (h h' : loc -> Actor.t) (rx tx : loc) :
  (forall k, h' k = h k) ->
  Simulation.distance (h' rx) (h' tx) = Simulation.distance (h rx) (h tx).
Proof. intros H. rewrite !H. reflexivity. Qed.

Lemma captureReading_in (rx tx : loc) (range : R) (s : Simulation.t) :
  0 < Simulation.wavelength s ->
  Simulation.wavelength s <= range <= Simulation.maxRange s ->
  Simulation.captureReading rx tx range s
  = Some (Simulation.set_readings
            (Simulation.set_heap s
               (upd (Simulation.heap s) rx (Simulation.heap s rx)))
            (Simulation.readings s
             ++ [(Simulation.time s,
                  Actor.id (Simulation.heap s rx),
                  Actor.id (Simulation.heap s tx),
                  Actor.gainRx (Simulation.heap s rx)
                  + Actor.powerTx (Simulation.heap s tx)
                  + Actor.gainTx (Simulation.heap s tx)
                  + 20 * log10 (Simulation.wavelength s / (4 * PI * range)),
                  Actor.deviceModel (Simulation.heap s rx),
                  Actor.deviceModel (Simulation.heap s tx))])).
Proof.
  intros Hw [H1 H2]. unfold Simulation.captureReading, Simulation.call, Rgeb.
  rewrite (Rleb_true _ _ H1), (Rleb_true _ _ H2). cbn [andb].
  rewrite powerReceiver_defined by lra.
  cbn [Simulation.heap Simulation.set_heap Simulation.readings
       Simulation.time].
  rewrite !upd_same. reflexivity.
Qed.

(** The reading leaves the meeting list and the generators alone. *)
Lemma captureReading_meetings (rx tx : loc) (range : R)
    (s s' : Simulation.t) :
  Simulation.captureReading rx tx range s = Some s' ->
  Simulation.meetings s' = Simulation.meetings s
  /\ Simulation.randomCalls s' = Simulation.randomCalls s
  /\ Simulation.rvsCalls s' = Simulation.rvsCalls s.
Proof.
  unfold Simulation.captureReading, Simulation.call.
  destruct (Rleb _ _ && _).
  - destruct (Actor.powerReceiver _ _ _ _ _) as [[p self'] |]; [| discriminate].
    intros H. injection H as <-. auto.
  - intros H. injection H as <-. auto.
Qed.

Section TwoActors.

Variable random_random : nat -> R.
Variable norm_cdf : R -> R -> R -> R.
Variable norm_rvs : nat -> R -> R -> R.

Local Abbreviation tryMeeting := (Simulation.tryMeeting random_random norm_cdf norm_rvs).
Local Abbreviation interact := (Simulation.interact random_random norm_cdf norm_rvs).
Local Abbreviation pairwisePass := (Simulation.pairwisePass random_random norm_cdf norm_rvs).

Lemma interact_same_id (rx tx : loc) (s : Simulation.t) :
  Actor.id (Simulation.heap s rx) = Actor.id (Simulation.heap s tx) ->
  interact rx tx s = Some s.
Proof.
  intros E. unfold Simulation.interact. rewrite E, Z.eqb_refl. reflexivity.
Qed.

Lemma interact_other (rx tx : loc) (s : Simulation.t) :
  Actor.id (Simulation.heap s rx) <> Actor.id (Simulation.heap s tx) ->
  interact rx tx s
  = match tryMeeting rx tx
            (Simulation.distance (Simulation.heap s rx) (Simulation.heap s tx))
            s with
    | None => None
    | Some s1 =>
        Simulation.captureReading rx tx
          (Simulation.distance (Simulation.heap s rx) (Simulation.heap s tx))
          s1
    end.
Proof.
  intros N. unfold Simulation.interact.
  apply Z.eqb_neq in N. rewrite N. reflexivity.
Qed.

(** Two live actors with different identifiers, within reading range of
    each other, meetings disabled: the pass logs a reading in each
    direction. *)
Lemma pairwisePass_pair_readings (rx tx : loc) (s : Simulation.t) :
  Simulation.actors s = [rx; tx] ->
  Actor.id (Simulation.heap s rx) <> Actor.id (Simulation.heap s tx) ->
  Simulation.meetingDurationMean s <= 0 ->
  0 < Simulation.wavelength s ->
  Simulation.wavelength s
  <= Simulation.distance (Simulation.heap s rx) (Simulation.heap s tx)
  <= Simulation.maxRange s ->
  exists s' p q,
    pairwisePass s = Some s'
    /\ Simulation.readings s'
       = Simulation.readings s
         ++ [(Simulation.time s,
              Actor.id (Simulation.heap s rx), Actor.id (Simulation.heap s tx),
              p,
              Actor.deviceModel (Simulation.heap s rx),
              Actor.deviceModel (Simulation.heap s tx));
             (Simulation.time s,
              Actor.id (Simulation.heap s tx), Actor.id (Simulation.heap s rx),
              q,
              Actor.deviceModel (Simulation.heap s tx),
              Actor.deviceModel (Simulation.heap s rx))].
Proof.
  intros Hact Hid Hoff Hw Hd.
  rewrite pairwisePass_visited, Hact.
  change (visited [rx; tx]) with [(rx, rx); (rx, tx); (tx, rx); (tx, tx)].
  rewrite for_each_cons. cbn [fst snd].
  rewrite interact_same_id by reflexivity.
  rewrite for_each_cons. cbn [fst snd].
  rewrite (interact_other rx tx s Hid).
  rewrite tryMeeting_skip by (left; exact Hoff).
  rewrite captureReading_in by assumption.
  cbv beta iota.
  match goal with
  | |- context [for_each _ _ ?st] => set (s1 := st)
  end.
  assert (Hh : forall k, Simulation.heap s1 k = Simulation.heap s k)
    by (intros k; apply upd_same).
  rewrite for_each_cons. cbn [fst snd].
  rewrite (interact_other tx rx s1) by (rewrite !Hh; auto).
  rewrite tryMeeting_skip by (left; exact Hoff).
  rewrite (distance_heap _ _ tx rx Hh), (distance_sym _ (Simulation.heap s rx)).
  rewrite captureReading_in by assumption.
  cbv beta iota.
  match goal with
  | |- context [for_each _ _ ?st] => set (s2 := st)
  end.
  rewrite for_each_cons. cbn [fst snd].
  rewrite interact_same_id by reflexivity.
  cbn [for_each].
  eexists. eexists. eexists. split; [reflexivity |].
  subst s2. cbn [Simulation.readings Simulation.set_readings].
  rewrite !Hh. subst s1.
  cbn [Simulation.readings Simulation.set_readings Simulation.time
       Simulation.set_heap Simulation.wavelength].
  rewrite <- app_assoc. reflexivity.
Qed.

Lemma captureReading_step (rx tx : loc) (range : R) (s : Simulation.t) :
  0 < Simulation.wavelength s ->
  exists s',
    Simulation.captureReading rx tx range s = Some s'
    /\ (forall k, Simulation.heap s' k = Simulation.heap s k)
    /\ Simulation.meetings s' = Simulation.meetings s
    /\ config s' = config s.
Proof.
  intros Hw. unfold Simulation.captureReading, Simulation.call.
  destruct (Rleb range (Simulation.maxRange s)
            && Rgeb range (Simulation.wavelength s)) eqn:G.
  - destruct (captureReading_guard range s Hw G) as [_ Hr].
    rewrite powerReceiver_defined by lra.
    eexists. split; [reflexivity |]. cbn.
    split; [intros k; apply upd_same | split; reflexivity].
  - exists s. auto.
Qed.

(** Two live actors with different identifiers and no meeting yet, within
    meeting distance of each other, and a draw that passes the test: the
    pass appends one meeting, of the pair. *)
Lemma pairwisePass_pair_meets (rx tx : loc) (s : Simulation.t) :
  Simulation.actors s = [rx; tx] ->
  Actor.id (Simulation.heap s rx) <> Actor.id (Simulation.heap s tx) ->
  Simulation.meetings s = [] ->
  0 < Simulation.wavelength s ->
  0 < Simulation.meetingDurationMean s ->
  0 <= Simulation.meetingDurationSd s ->
  Simulation.distance (Simulation.heap s rx) (Simulation.heap s tx)
  <= Simulation.meetingMaxRange s ->
  Simulation.distance (Simulation.heap s rx) (Simulation.heap s tx)
  <= Simulation.meetingDistanceMean s + 2 * Simulation.meetingDistanceSd s ->
  random_random (Simulation.randomCalls s) * Simulation.meetingChance s
  > norm_cdf
      (Simulation.distance (Simulation.heap s rx) (Simulation.heap s tx))
      (Simulation.meetingDistanceMean s) (Simulation.meetingDistanceSd s) ->
  exists s',
    pairwisePass s = Some s'
    /\ Simulation.meetings s'
       = [Meeting.mk (Simulation.time s)
            (Simulation.endTime (Simulation.time s)
               (norm_rvs (Simulation.rvsCalls s)
                  (Simulation.meetingDurationMean s)
                  (Simulation.meetingDurationSd s)))
            [Actor.id (Simulation.heap s rx);
             Actor.id (Simulation.heap s tx)]].
Proof.
  intros Hact Hid Hnone Hw Hon Hsd Hmax Hnear Hdraw.
  rewrite pairwisePass_visited, Hact.
  change (visited [rx; tx]) with [(rx, rx); (rx, tx); (tx, rx); (tx, tx)].
  rewrite for_each_cons. cbn [fst snd].
  rewrite interact_same_id by reflexivity.
  rewrite for_each_cons. cbn [fst snd].
  rewrite (interact_other rx tx s Hid).
  rewrite tryMeeting_test;
    [| assumption | assumption | rewrite Hnone; intros m [] | assumption].
  cbv zeta. unfold Rgtb at 1. rewrite (Rltb_true _ _ Hdraw).
  rewrite rvs_defined by exact Hsd.
  match goal with
  | |- context [Simulation.captureReading rx tx ?d ?st] =>
      destruct (captureReading_step rx tx d st Hw) as [s1 [E1 [Hh1 [Hm1 Hc1]]]];
      rewrite E1
  end.
  cbn [Simulation.meetings Simulation.set_meetings] in Hm1.
  rewrite Hnone in Hm1. cbn [app] in Hm1.
  cbn [Simulation.heap Simulation.set_meetings Simulation.set_rvsCalls
       Simulation.set_randomCalls] in Hh1.
  assert (Hw1 : 0 < Simulation.wavelength s1).
  { rewrite (config_wavelength _ _ Hc1). exact Hw. }
  rewrite for_each_cons. cbn [fst snd].
  rewrite (interact_other tx rx s1) by (rewrite !Hh1; auto).
  rewrite tryMeeting_skip.
  2:{ right. right. left. eexists. split; [rewrite Hm1; left; reflexivity |].
      unfold meets. cbn [Meeting.participants]. rewrite !Hh1.
      apply perm_swap. }
  match goal with
  | |- context [Simulation.captureReading tx rx ?d ?st] =>
      destruct (captureReading_step tx rx d st Hw1) as [s2 [E2 [Hh2 [Hm2 Hc2]]]];
      rewrite E2
  end.
  rewrite for_each_cons. cbn [fst snd].
  rewrite interact_same_id by reflexivity.
  cbn [for_each].
  exists s2. split; [reflexivity |]. rewrite Hm2, Hm1. reflexivity.
Qed.

(** The same pair when the draw of the first visit fails the test and the
    draw of the second visit, of the pair in the other order, passes it:
    the pass draws twice and appends one meeting, of the pair in the
    other order. *)
Lemma pairwisePass_pair_second_draw (rx tx : loc) (s : Simulation.t) :
  Simulation.actors s = [rx; tx] ->
  Actor.id (Simulation.heap s rx) <> Actor.id (Simulation.heap s tx) ->
  Simulation.meetings s = [] ->
  0 < Simulation.wavelength s ->
  0 < Simulation.meetingDurationMean s ->
  0 <= Simulation.meetingDurationSd s ->
  Simulation.distance (Simulation.heap s rx) (Simulation.heap s tx)
  <= Simulation.meetingMaxRange s ->
  Simulation.distance (Simulation.heap s rx) (Simulation.heap s tx)
  <= Simulation.meetingDistanceMean s + 2 * Simulation.meetingDistanceSd s ->
  ~ random_random (Simulation.randomCalls s) * Simulation.meetingChance s
    > norm_cdf
        (Simulation.distance (Simulation.heap s rx) (Simulation.heap s tx))
        (Simulation.meetingDistanceMean s) (Simulation.meetingDistanceSd s) ->
  random_random (S (Simulation.randomCalls s)) * Simulation.meetingChance s
  > norm_cdf
      (Simulation.distance (Simulation.heap s rx) (Simulation.heap s tx))
      (Simulation.meetingDistanceMean s) (Simulation.meetingDistanceSd s) ->
  exists s',
    pairwisePass s = Some s'
    /\ Simulation.meetings s'
       = [Meeting.mk (Simulation.time s)
            (Simulation.endTime (Simulation.time s)
               (norm_rvs (Simulation.rvsCalls s)
                  (Simulation.meetingDurationMean s)
                  (Simulation.meetingDurationSd s)))
            [Actor.id (Simulation.heap s tx);
             Actor.id (Simulation.heap s rx)]]
    /\ Simulation.randomCalls s' = S (S (Simulation.randomCalls s)).
Proof.
  intros Hact Hid Hnone Hw Hon Hsd Hmax Hnear Hfail Hdraw.
  rewrite pairwisePass_visited, Hact.
  change (visited [rx; tx]) with [(rx, rx); (rx, tx); (tx, rx); (tx, tx)].
  rewrite for_each_cons. cbn [fst snd].
  rewrite interact_same_id by reflexivity.
  rewrite for_each_cons. cbn [fst snd].
  rewrite (interact_other rx tx s Hid).
  rewrite tryMeeting_test;
    [| assumption | assumption | rewrite Hnone; intros m [] | assumption].
  cbv zeta. unfold Rgtb at 1. rewrite (Rltb_false _ _) by (unfold Rgt in Hfail; lra).
  match goal with
  | |- context [Simulation.captureReading rx tx ?d ?st] =>
      destruct (captureReading_step rx tx d st Hw) as [s1 [E1 [Hh1 [Hm1 Hc1]]]];
      pose proof (captureReading_meetings rx tx d st s1 E1) as [_ [Hr1 Hv1]];
      pose proof (captureReading_frame norm_rvs rx tx d st s1) as F1;
      rewrite E1
  end.
  assert (Ht1 : Simulation.time s1 = Simulation.time s).
  { apply F1; [cbn; rewrite Hact; left; reflexivity
              | cbn; rewrite Hact; right; left; reflexivity | exact E1]. }
  clear F1.
  cbn [Simulation.meetings Simulation.set_randomCalls] in Hm1.
  cbn [Simulation.randomCalls Simulation.set_randomCalls] in Hr1.
  cbn [Simulation.rvsCalls Simulation.set_randomCalls] in Hv1.
  cbn [Simulation.heap Simulation.set_randomCalls] in Hh1.
  assert (Hc : config s1 = config s) by (rewrite Hc1; reflexivity).
  pose proof Hc as Hcf. config_fields Hcf.
  assert (Hw1 : 0 < Simulation.wavelength s1) by congruence.
  rewrite for_each_cons. cbn [fst snd].
  rewrite (interact_other tx rx s1) by (rewrite !Hh1; auto).
  rewrite (distance_heap _ _ tx rx Hh1), (distance_sym _ (Simulation.heap s rx)).
  rewrite tryMeeting_test.
  2:{ congruence. }
  2:{ congruence. }
  2:{ rewrite Hm1, Hnone. intros m []. }
  2:{ congruence. }
  cbv zeta. unfold Rgtb at 1.
  rewrite Hr1.
  replace (Simulation.meetingChance s1) with (Simulation.meetingChance s)
    by congruence.
  replace (Simulation.meetingDistanceMean s1)
    with (Simulation.meetingDistanceMean s) by congruence.
  replace (Simulation.meetingDistanceSd s1)
    with (Simulation.meetingDistanceSd s) by congruence.
  rewrite (Rltb_true _ _ Hdraw).
  replace (Simulation.meetingDurationMean s1)
    with (Simulation.meetingDurationMean s) by congruence.
  replace (Simulation.meetingDurationSd s1)
    with (Simulation.meetingDurationSd s) by congruence.
  rewrite rvs_defined by exact Hsd.
  match goal with
  | |- context [Simulation.captureReading tx rx ?d ?st] =>
      destruct (captureReading_step tx rx d st) as [s2 [E2 [Hh2 [Hm2 Hc2]]]];
      [exact Hw1 |];
      pose proof (captureReading_meetings tx rx d st s2 E2) as [_ [Hr2 _]];
      rewrite E2
  end.
  rewrite for_each_cons. cbn [fst snd].
  rewrite interact_same_id by reflexivity.
  cbn [for_each].
  exists s2. split; [reflexivity |]. split.
  - rewrite Hm2. cbn [Simulation.meetings Simulation.set_meetings].
    rewrite Hm1, Hnone, Hv1, Ht1, !Hh1. reflexivity.
  - rewrite Hr2. reflexivity.
Qed.

End TwoActors.

(** ** The scenarios, run *)

Ltac decide_cmp :=
  unfold Rgtb, Rgeb;
  match goal with
  | |- context [Rleb ?a ?b] =>
      first [rewrite (Rleb_true a b) by lra | rewrite (Rleb_false a b) by lra]
  | |- context [Rltb ?a ?b] =>
      first [rewrite (Rltb_true a b) by lra | rewrite (Rltb_false a b) by lra]
  end.

Ltac unit_distance :=
  match goal with
  | |- context [sqrt ?e] =>
      replace (sqrt e) with 1
        by (symmetry; replace e with 1 by lra; apply sqrt_1)
  end.

(** Runs the movement loop of a scenario. *)
Ltac movement :=
  unfold Simulation.step, Simulation.movementPass;
  repeat first
    [ progress cbn -[Rleb Rltb Rgeb Rgtb Simulation.pairwisePass]
    | decide_cmp ].

Lemma pair_heap_velocity (k : loc) : has_velocity (pair_heap k).
Proof. destruct k; split; discriminate. Qed.

Lemma quiet_sim_init :
  Simulation.init pair_heap [0%nat; 1%nat] 2436000000 15 (-200) 200 (-200) 200
    0 0 0 0 0 3 = Some quiet_sim.
Proof.
  unfold Simulation.init.
  destruct (Req_dec_T 2436000000 0); [lra | reflexivity].
Qed.

Lemma meeting_sim_init :
  Simulation.init pair_heap [0%nat; 1%nat] 2436000000 15 (-200) 200 (-200) 200
    300 0 1.5 0.3 1 3 = Some meeting_sim.
Proof.
  unfold Simulation.init.
  destruct (Req_dec_T 2436000000 0); [lra | reflexivity].
Qed.

Section QuietScenario.

Variable random_random : nat -> R.
Variable norm_cdf : R -> R -> R -> R.
Variable norm_rvs : nat -> R -> R -> R.

(** C1 fails on the code.  With two actors one metre apart, one tick logs
    two readings of the pair, one in each direction: the inner loop of
    [step] runs over [enumerate(self.actors, start=rxIdx + 1)], and the
    [start] of [enumerate] numbers the elements without skipping any, so
    the pair is visited as (1, 2) and again as (2, 1). *)
Theorem step_logs_both_directions :
  exists s1 t p q,
    Simulation.init pair_heap [0%nat; 1%nat] 2436000000 15
      (-200) 200 (-200) 200 0 0 0 0 0 3 = Some quiet_sim
    /\ Simulation.step random_random norm_cdf norm_rvs 1 quiet_sim = Some s1
    /\ t = 1
    /\ Simulation.readings s1
       = [(t, 1%Z, 2%Z, p, "model013"%string, "model013"%string);
          (t, 2%Z, 1%Z, q, "model013"%string, "model013"%string)].
Proof.
  movement.
  match goal with
  | |- context [Simulation.pairwisePass _ _ _ ?live] =>
      destruct (pairwisePass_pair_readings random_random norm_cdf norm_rvs
                  0%nat 1%nat live) as [s1 [p [q [E Hr]]]]
  end.
  - reflexivity.
  - cbn. discriminate.
  - cbn. lra.
  - cbn. lra.
  - unfold Simulation.distance. cbn. unit_distance. lra.
  - exists s1, (0 + 1), p, q.
    split; [exact quiet_sim_init |]. split; [exact E |].
    split; [lra | exact Hr].
Qed.

End QuietScenario.

(** The scenario of the two actors that meet: one tick at distance 1 with
    the draw 0.5 forms the meeting of the pair, 300 s long. *)
Lemma meeting_step :
  exists s1,
    Simulation.step coin cdf_near rvs_mean 1 meeting_sim = Some s1
    /\ Simulation.meetings s1 = [Meeting.mk (0 + 1) 301 [1%Z; 2%Z]].
Proof.
  movement.
  match goal with
  | |- context [Simulation.pairwisePass _ _ _ ?live] =>
      destruct (pairwisePass_pair_meets coin cdf_near rvs_mean
                  0%nat 1%nat live) as [s1 [E Hm]]
  end.
  - reflexivity.
  - cbn. discriminate.
  - reflexivity.
  - cbn. lra.
  - cbn. lra.
  - cbn. lra.
  - unfold Simulation.distance. cbn. unit_distance. lra.
  - unfold Simulation.distance. cbn. unit_distance. lra.
  - unfold coin, cdf_near. cbn. lra.
  - exists s1. split; [exact E |]. rewrite Hm. cbn. unfold rvs_mean.
    f_equal. unfold Simulation.endTime, int.
    replace (0 + 1 + 300) with (IZR 301) by lra.
    destruct (Rle_dec 0 (IZR 301)) as [_ | N]; [| exfalso; lra].
    rewrite ZfloorZ. rewrite Rltb_false by lra. reflexivity.
Qed.

(** The end ticks of a meeting of 300 s formed on the clock -1000.5: by
    [int], as the code has it; by the floor of the sum; and by the floor of
    the duration added to the clock. *)
Lemma endTime_rewound :
  Simulation.endTime (-1000.5) 300 = -700
  /\ endTime_floor (-1000.5) 300 = -701
  /\ -1000.5 + IZR (Zfloor 300) = -700.5.
Proof.
  unfold Simulation.endTime, endTime_floor, int. split; [| split].
  - destruct (Rle_dec 0 (-1000.5 + 300)) as [H | _]; [exfalso; lra |].
    unfold Zceil. replace (- (-1000.5 + 300)) with 700.5 by lra.
    rewrite (Zfloor_eq 700 700.5) by lra.
    rewrite Rltb_false by (cbn; lra). reflexivity.
  - rewrite (Zfloor_eq (-701) (-1000.5 + 300)) by lra.
    rewrite Rltb_false by lra. reflexivity.
  - rewrite ZfloorZ. lra.
Qed.

(** C6, as stated, fails when the clock is negative.  A tick of -1000.5 s
    on the two actors forms their meeting of 300 s at the clock -1000.5;
    it ends at [int(-700.5) = -700].  The floor of -700.5 is -701, and the
    floor of the duration added to the clock is -700.5. *)
Lemma meeting_end_truncated :
  exists s1 m,
    Simulation.step coin cdf_near rvs_mean (-1000.5) meeting_sim = Some s1
    /\ Simulation.meetings s1 = [m]
    /\ Meeting.start m = -1000.5
    /\ Meeting.end_ m = -700
    /\ endTime_floor (Meeting.start m) (rvs_mean 0 300 0) = -701
    /\ Meeting.start m + IZR (Zfloor (rvs_mean 0 300 0)) = -700.5.
Proof.
  movement.
  match goal with
  | |- context [Simulation.pairwisePass _ _ _ ?live] =>
      destruct (pairwisePass_pair_meets coin cdf_near rvs_mean
                  0%nat 1%nat live) as [s1 [E Hm]]
  end.
  - reflexivity.
  - cbn. discriminate.
  - reflexivity.
  - cbn. lra.
  - cbn. lra.
  - cbn. lra.
  - unfold Simulation.distance. cbn. unit_distance. lra.
  - unfold Simulation.distance. cbn. unit_distance. lra.
  - unfold coin, cdf_near. cbn. lra.
  - exists s1. eexists. split; [exact E |]. split; [exact Hm |].
    cbn. unfold rvs_mean.
    replace (0 + -1000.5) with (-1000.5) by lra.
    split; [reflexivity |]. exact endTime_rewound.
Qed.

(** C2 fails on the code.  The two actors are one metre apart, meetings
    are enabled, the distance is within [meetingMaxRange] and within
    [meetingDistanceMean + 2 * meetingDistanceSd], and the pair has no
    meeting yet.  The first uniform draw of the tick, 0.01, fails the
    test [rnd * meetingChance > cdf]; yet the tick appends a meeting of
    the pair, and draws twice: the pass visits the pair in both orders
    (the inner loop runs over [enumerate(self.actors, start=rxIdx + 1)],
    which skips nothing), and the visit of (2, 1) draws 0.5, which
    passes. *)
Theorem step_draws_twice :
  exists s1,
    Simulation.init pair_heap [0%nat; 1%nat] 2436000000 15
      (-200) 200 (-200) 200 300 0 1.5 0.3 1 3 = Some meeting_sim
    /\ Simulation.distance (Simulation.heap meeting_sim 0%nat)
                           (Simulation.heap meeting_sim 1%nat) = 1
    /\ 0 < Simulation.meetingDurationMean meeting_sim
    /\ 1 <= Simulation.meetingMaxRange meeting_sim
    /\ Simulation.meetings meeting_sim = []
    /\ 1 <= Simulation.meetingDistanceMean meeting_sim
            + 2 * Simulation.meetingDistanceSd meeting_sim
    /\ ~ coin_late (Simulation.randomCalls meeting_sim)
          * Simulation.meetingChance meeting_sim
        > cdf_near 1 (Simulation.meetingDistanceMean meeting_sim)
                   (Simulation.meetingDistanceSd meeting_sim)
    /\ Simulation.step coin_late cdf_near rvs_mean 1 meeting_sim = Some s1
    /\ Simulation.meetings s1 = [Meeting.mk (0 + 1) 301 [2%Z; 1%Z]]
    /\ Simulation.randomCalls s1 = 2%nat.
Proof.
  assert (Hd : Simulation.distance (Simulation.heap meeting_sim 0%nat)
                                   (Simulation.heap meeting_sim 1%nat) = 1).
  { unfold Simulation.distance. cbn. unit_distance. reflexivity. }
  assert (Hstep : exists s1,
             Simulation.step coin_late cdf_near rvs_mean 1 meeting_sim
             = Some s1
             /\ Simulation.meetings s1 = [Meeting.mk (0 + 1) 301 [2%Z; 1%Z]]
             /\ Simulation.randomCalls s1 = 2%nat).
  { movement.
    match goal with
    | |- context [Simulation.pairwisePass _ _ _ ?live] =>
        destruct (pairwisePass_pair_second_draw coin_late cdf_near rvs_mean
                    0%nat 1%nat live) as [s1 [E [Hm Hr]]]
    end.
    - reflexivity.
    - cbn. discriminate.
    - reflexivity.
    - cbn. lra.
    - cbn. lra.
    - cbn. lra.
    - unfold Simulation.distance. cbn. unit_distance. lra.
    - unfold Simulation.distance. cbn. unit_distance. lra.
    - unfold coin_late, cdf_near. cbn. lra.
    - unfold coin_late, cdf_near. cbn. lra.
    - exists s1. split; [exact E |]. split; [| exact Hr].
      rewrite Hm. cbn. unfold rvs_mean.
      f_equal. unfold Simulation.endTime, int.
      replace (0 + 1 + 300) with (IZR 301) by lra.
      destruct (Rle_dec 0 (IZR 301)) as [_ | N]; [| exfalso; lra].
      rewrite ZfloorZ. rewrite Rltb_false by lra. reflexivity. }
  destruct Hstep as [s1 [E [Hm Hr]]].
  exists s1.
  split; [exact meeting_sim_init |]. split; [exact Hd |].
  split; [cbn; lra |]. split; [cbn; lra |]. split; [reflexivity |].
  split; [cbn; lra |].
  split; [unfold coin_late, cdf_near; cbn; lra |].
  split; [exact E |]. split; [exact Hm | exact Hr].
Qed.

(** ** The theorems at the scenarios *)

Lemma meetings_meet_once_witness :
  exists s,
    reachable coin cdf_near rvs_mean s
    /\ Simulation.meetings s = [Meeting.mk (0 + 1) 301 [1%Z; 2%Z]]
    /\ forall a b i j mi mj,
         nth_error (Simulation.meetings s) i = Some mi ->
         nth_error (Simulation.meetings s) j = Some mj ->
         meets a b mi -> meets a b mj -> i = j.
Proof.
  destruct meeting_step as [s1 [E Hm]].
  assert (Hr : reachable coin cdf_near rvs_mean s1).
  { apply (reachable_exec coin cdf_near rvs_mean meeting_sim
             (Simulation.Step 1) s1); [| exact E].
    exact (reachable_init coin cdf_near rvs_mean _ _ _ _ _ _ _ _ _ _ _ _ _ _ _
             meeting_sim_init). }
  exists s1. split; [exact Hr |]. split; [exact Hm |].
  exact (proj1 (meetings_meet_once coin cdf_near rvs_mean s1 Hr)).
Defined.

Lemma step_meetings_formed_witness :
  exists s1,
    Simulation.step coin cdf_near rvs_mean 1 meeting_sim = Some s1
    /\ Simulation.time s1 = Simulation.time meeting_sim + 1
    /\ exists ms,
         Simulation.meetings s1 = Simulation.meetings meeting_sim ++ ms
         /\ forall m, In m ms -> 1 <= Meeting.duration m.
Proof.
  destruct meeting_step as [s1 [E _]].
  exists s1. split; [exact E |].
  destruct (step_meetings_formed coin cdf_near rvs_mean 1 meeting_sim s1 E)
    as [Ht [ms [Hm Hall]]].
  split; [exact Ht |]. exists ms. split; [exact Hm |].
  intros m Hin. exact (proj1 (proj2 (proj2 (Hall m Hin)))).
Defined.

Lemma step_excludes_out_of_bounds_witness :
  exists s1,
    Simulation.step coin cdf_near rvs_mean 1 exit_sim = Some s1
    /\ Actor.included (Simulation.heap s1 0%nat) = false
    /\ ~ In 0%nat (Simulation.actors s1).
Proof.
  destruct (step_defined coin cdf_near rvs_mean 1 exit_sim) as [s1 E].
  - intros k. split; discriminate.
  - cbn. lra.
  - right. cbn. lra.
  - exists s1. split; [exact E |].
    assert (H1 : In 0%nat (Simulation.actors exit_sim))
      by (left; reflexivity).
    assert (H2 : Actor.included (Simulation.heap exit_sim 0%nat) = true)
      by reflexivity.
    assert (H3 : ~ in_active_meeting exit_sim
                     (Actor.id (Simulation.heap exit_sim 0%nat))
                     (Simulation.time exit_sim + 1))
      by (intros [m [[] _]]).
    assert (H4 : Actor.updatePosition 1 (Simulation.heap exit_sim 0%nat)
                 = Some (tt, Actor.set_xy walker (199 + 5 * 1) (0 + 0 * 1)))
      by reflexivity.
    assert (H5 : outside exit_sim
                   (Actor.set_xy walker (199 + 5 * 1) (0 + 0 * 1)))
      by (unfold outside; cbn; right; left; lra).
    destruct (step_excludes_out_of_bounds coin cdf_near rvs_mean 1 exit_sim s1
                0%nat _ H1 H2 H3 H4 H5 E) as [A [B _]].
    split; [exact A | exact B].
Defined.

Lemma step_freezes_meeting_participants_witness :
  exists s1,
    Simulation.step coin cdf_near rvs_mean 1 frozen_sim = Some s1
    /\ Actor.x (Simulation.heap s1 0%nat) = 0
    /\ Actor.y (Simulation.heap s1 0%nat) = 0
    /\ Actor.included (Simulation.heap s1 0%nat) = true
    /\ In 0%nat (Simulation.actors s1).
Proof.
  destruct (step_defined coin cdf_near rvs_mean 1 frozen_sim) as [s1 E].
  - exact pair_heap_velocity.
  - cbn. lra.
  - right. cbn. lra.
  - exists s1. split; [exact E |].
    assert (H1 : In 0%nat (Simulation.actors frozen_sim))
      by (left; reflexivity).
    assert (H2 : Actor.included (Simulation.heap frozen_sim 0%nat) = true)
      by reflexivity.
    assert (H3 : in_active_meeting frozen_sim
                   (Actor.id (Simulation.heap frozen_sim 0%nat))
                   (Simulation.time frozen_sim + 1)).
    { exists (Meeting.mk 0 300 [1%Z; 2%Z]).
      split; [left; reflexivity |]. split; [left; reflexivity |]. cbn. lra. }
    exact (proj1 (step_freezes_meeting_participants coin cdf_near rvs_mean 1
                    frozen_sim s1 E) 0%nat H1 H2 H3).
Defined.

(** * Further properties of the code *)

(** ** Actor *)

(** X1. Two updates of [t1] and [t2] seconds move an actor as one update
    of [t1 + t2] seconds does, and raise when it does. *)
Theorem updatePosition_additive (t1 t2 : R) (self : Actor.t) :
  match Actor.updatePosition t1 self with
  | Some (_, self1) => Actor.updatePosition t2 self1
  | None => None
  end
  = Actor.updatePosition (t1 + t2) self.
Proof.
  unfold Actor.updatePosition.
  destruct (Actor.xComponent self) as [xc |] eqn:Ex; [| reflexivity].
  destruct (Actor.yComponent self) as [yc |] eqn:Ey; [| reflexivity].
  cbn. rewrite Ex, Ey. unfold Actor.set_xy. cbn.
  do 3 f_equal; ring.
Qed.

(** X2. [powerReceiver] returns exactly when the wavelength and the
    distance are both positive or both negative; it raises on a zero
    distance, on a zero wavelength and on opposite signs. *)
Theorem powerReceiver_returns_iff (wavelength distance p g : R)
    (self : Actor.t) :
  (exists powerRx,
     Actor.powerReceiver wavelength distance p g self = Some (powerRx, self))
  <-> 0 < wavelength * distance.
Proof.
  unfold Actor.powerReceiver.
  pose proof PI_RGT_0 as Hpi.
  assert (H4 : 0 < 4 * PI) by lra.
  destruct (Req_dec_T (4 * PI * distance) 0) as [E | N].
  - assert (distance = 0) by nra. subst.
    split; [intros [q H]; discriminate | intros H; exfalso; lra].
  - assert (Hd : distance <> 0) by (intros ->; apply N; ring).
    assert (Hop : wavelength / (4 * PI * distance)
                  = wavelength * distance * / (4 * PI * (distance * distance)))
      by (field; split; [assumption | lra]).
    assert (Hsq : 0 < 4 * PI * (distance * distance)) by nra.
    pose proof (Rinv_0_lt_compat _ Hsq) as Hinv.
    destruct (Rle_dec (wavelength / (4 * PI * distance)) 0) as [L | G].
    + split; [intros [q H]; discriminate |].
      intros Hpos. exfalso. rewrite Hop in L.
      pose proof (Rmult_lt_0_compat _ _ Hpos Hinv). lra.
    + split; [| intros _; eexists; reflexivity].
      intros _. rewrite Hop in G.
      destruct (Rlt_dec 0 (wavelength * distance)) as [? | Hn]; [assumption |].
      exfalso. apply G.
      assert (wavelength * distance <= 0) by lra.
      nra.
Qed.

(** X3. Free-space loss: at [k] times the distance the received power is
    lower by [20 * log10 k]. *)
Theorem powerReceiver_scaling (wavelength distance k p g : R)
    (self : Actor.t) :
  0 < wavelength -> 0 < distance -> 0 < k ->
  exists p1 p2,
    Actor.powerReceiver wavelength distance p g self = Some (p1, self)
    /\ Actor.powerReceiver wavelength (k * distance) p g self = Some (p2, self)
    /\ p2 = p1 - 20 * log10 k.
Proof.
  intros Hw Hd Hk.
  assert (Hkd : 0 < k * distance) by (apply Rmult_lt_0_compat; assumption).
  do 2 eexists.
  split; [apply powerReceiver_defined; assumption |].
  split; [apply powerReceiver_defined; assumption |].
  pose proof PI_RGT_0 as Hpi.
  assert (H4 : 0 < 4 * PI * distance) by (apply Rmult_lt_0_compat; lra).
  replace (wavelength / (4 * PI * (k * distance)))
    with (wavelength / (4 * PI * distance) * / k)
    by (field; repeat split; lra).
  unfold log10.
  rewrite ln_mult;
    [| apply operand_pos; assumption | apply Rinv_0_lt_compat; assumption].
  rewrite ln_Rinv by assumption.
  pose proof ln_10_pos. field. lra.
Qed.

Lemma powerReceiver_scaling_witness :
  exists p1 p2,
    Actor.powerReceiver 1 1 13 1.5 alice = Some (p1, alice)
    /\ Actor.powerReceiver 1 (2 * 1) 13 1.5 alice = Some (p2, alice)
    /\ p2 = p1 - 20 * log10 2.
Proof.
  apply (powerReceiver_scaling 1 1 2 13 1.5 alice); lra.
Defined.

(** ** The meeting list *)

(** X4. [getMeeting] returns the first meeting of the list whose
    participants are the queried identifiers in some order, and [None]
    when there is none; the order of the identifiers in the query does not
    matter. *)
Theorem getMeeting_first (s : Simulation.t) (participantIds : list Z) :
  (forall m,
     Simulation.getMeeting s participantIds = Some m
     <-> exists pre post,
           Simulation.meetings s = pre ++ m :: post
           /\ Permutation (Meeting.participants m) participantIds
           /\ forall m', In m' pre ->
                ~ Permutation (Meeting.participants m') participantIds)
  /\ (Simulation.getMeeting s participantIds = None
      <-> forall m, In m (Simulation.meetings s) ->
            ~ Permutation (Meeting.participants m) participantIds)
  /\ forall participantIds',
       Permutation participantIds participantIds' ->
       Simulation.getMeeting s participantIds'
       = Simulation.getMeeting s participantIds.
Proof.
  unfold Simulation.getMeeting.
  split; [| split].
  - induction (Simulation.meetings s) as [| m0 ms IH]; intros m; cbn.
    + split; [discriminate |].
      intros [pre [post [E _]]]. destruct pre; discriminate.
    + destruct (list_eq_dec Z.eq_dec (sorted (Meeting.participants m0))
                            (sorted participantIds)) as [E | N].
      * apply sorted_eq_iff in E. split.
        -- intros H. injection H as <-. exists [], ms.
           split; [reflexivity |]. split; [assumption | intros m' []].
        -- intros [pre [post [Hsplit [Hperm Hpre]]]].
           destruct pre as [| m1 pre]; cbn in Hsplit.
           ++ injection Hsplit as -> _. reflexivity.
           ++ injection Hsplit as -> _. exfalso.
              apply (Hpre m1); [left; reflexivity | assumption].
      * rewrite IH. split.
        -- intros [pre [post [-> [Hperm Hpre]]]]. exists (m0 :: pre), post.
           split; [reflexivity |]. split; [assumption |].
           intros m' [<- | Hin]; [| apply Hpre, Hin].
           intros Hp. apply N. apply sorted_perm. assumption.
        -- intros [pre [post [Hsplit [Hperm Hpre]]]].
           destruct pre as [| m1 pre]; cbn in Hsplit.
           ++ injection Hsplit as -> _. exfalso. apply N.
              apply sorted_perm. assumption.
           ++ injection Hsplit as -> ->. exists pre, post.
              split; [reflexivity |]. split; [assumption |].
              intros m' Hin. apply Hpre. right. assumption.
  - fold (Simulation.getMeeting s participantIds).
    rewrite getMeeting_None, in_map_iff. split.
    + intros H m Hin Hperm. apply H. exists m. split; [| assumption].
      apply sorted_perm. assumption.
    + intros H [m [E Hin]]. apply (H m Hin). apply sorted_eq_iff. assumption.
  - intros ids' Hperm. rewrite (sorted_perm _ _ Hperm). reflexivity.
Qed.

(** ** The log of a tick *)

Lemma powerReceiver_value (wavelength distance p g powerRx : R)
    (self self' : Actor.t) :
  Actor.powerReceiver wavelength distance p g self = Some (powerRx, self') ->
  powerRx = Actor.gainRx self + p + g
            + 20 * log10 (wavelength / (4 * PI * distance)).
Proof.
  unfold Actor.powerReceiver.
  destruct (Req_dec_T (4 * PI * distance) 0); [discriminate |].
  destruct (Rle_dec (wavelength / (4 * PI * distance)) 0); [discriminate |].
  intros H. injection H as <- _. reflexivity.
Qed.

Section Log.

Variable random_random : nat -> R.
Variable norm_cdf : R -> R -> R -> R.
Variable norm_rvs : nat -> R -> R -> R.

Local Abbreviation tryMeeting := (Simulation.tryMeeting random_random norm_cdf norm_rvs).
Local Abbreviation interact := (Simulation.interact random_random norm_cdf norm_rvs).
Local Abbreviation pairwisePass := (Simulation.pairwisePass random_random norm_cdf norm_rvs).
Local Abbreviation step := (Simulation.step random_random norm_cdf norm_rvs).
Local Abbreviation exec := (Simulation.exec random_random norm_cdf norm_rvs).
Local Abbreviation run := (Simulation.run random_random norm_cdf norm_rvs).
Local Abbreviation Frame := (pairwise_frame norm_rvs).

(** The meeting test changes the meeting list and the counters only. *)
Lemma tryMeeting_keeps (rx tx : loc) (range : R) (s s1 : Simulation.t) :
  tryMeeting rx tx range s = Some s1 ->
  Simulation.heap s1 = Simulation.heap s
  /\ Simulation.readings s1 = Simulation.readings s
  /\ Simulation.time s1 = Simulation.time s
  /\ Simulation.wavelength s1 = Simulation.wavelength s
  /\ Simulation.maxRange s1 = Simulation.maxRange s.
Proof.
  unfold Simulation.tryMeeting.
  assert (Hrefl : Some s = Some s1 ->
                  Simulation.heap s1 = Simulation.heap s
                  /\ Simulation.readings s1 = Simulation.readings s
                  /\ Simulation.time s1 = Simulation.time s
                  /\ Simulation.wavelength s1 = Simulation.wavelength s
                  /\ Simulation.maxRange s1 = Simulation.maxRange s)
    by (intros H; injection H as <-; auto).
  destruct (Rgtb _ _ && _); [| exact Hrefl].
  destruct (Simulation.getMeeting s _); [exact Hrefl |].
  destruct (Rleb range _); [| exact Hrefl].
  cbv zeta. destruct (Rgtb _ _).
  - destruct (Simulation.rvs _ _ _ _); [| discriminate].
    intros H. injection H as <-. cbn. auto.
  - intros H. injection H as <-. cbn. auto.
Qed.

(** What the meeting test does to the meeting list. *)
Lemma tryMeeting_cases (rx tx : loc) (range : R) (s s1 : Simulation.t) :
  tryMeeting rx tx range s = Some s1 ->
  (Simulation.meetings s1 = Simulation.meetings s
   /\ Simulation.rvsCalls s1 = Simulation.rvsCalls s)
  \/ (0 < Simulation.meetingDurationMean s
      /\ range <= Simulation.meetingMaxRange s
      /\ range <= Simulation.meetingDistanceMean s
                  + 2 * Simulation.meetingDistanceSd s
      /\ Simulation.meetings s1
         = Simulation.meetings s
           ++ [Meeting.mk (Simulation.time s)
                 (Simulation.endTime (Simulation.time s)
                    (norm_rvs (Simulation.rvsCalls s)
                       (Simulation.meetingDurationMean s)
                       (Simulation.meetingDurationSd s)))
                 [Actor.id (Simulation.heap s rx);
                  Actor.id (Simulation.heap s tx)]]).
Proof.
  unfold Simulation.tryMeeting, Rgtb.
  assert (Hrefl : forall P : Prop,
             Some s = Some s1 ->
             (Simulation.meetings s1 = Simulation.meetings s
              /\ Simulation.rvsCalls s1 = Simulation.rvsCalls s) \/ P)
    by (intros P H; injection H as <-; auto).
  destruct (Rltb 0 (Simulation.meetingDurationMean s)) eqn:E1;
    [| apply Hrefl].
  destruct (Rleb range (Simulation.meetingMaxRange s)) eqn:E2; cbn [andb];
    [| apply Hrefl].
  destruct (Simulation.getMeeting s _); [apply Hrefl |].
  destruct (Rleb range (Simulation.meetingDistanceMean s
                        + 2 * Simulation.meetingDistanceSd s)) eqn:E3;
    [| apply Hrefl].
  apply Rltb_spec in E1. apply Rleb_spec in E2. apply Rleb_spec in E3.
  cbv zeta. destruct (Rltb _ _).
  - unfold Simulation.rvs. destruct (Rltb _ 0); [discriminate |].
    intros H. injection H as <-. cbn. auto.
  - intros H. injection H as <-. cbn. auto.
Qed.

(** The reading of one visit. *)
Lemma interact_readings (rx tx : loc) (s s' : Simulation.t) :
  interact rx tx s = Some s' ->
  Simulation.readings s'
  = Simulation.readings s
    ++ (if in_rangeb s rx tx then [reading_of s rx tx] else []).
Proof.
  unfold Simulation.interact, in_rangeb. cbv zeta.
  destruct (negb _); cbn [andb].
  2:{ intros H. injection H as <-. rewrite app_nil_r. reflexivity. }
  destruct (tryMeeting rx tx _ s) as [s1 |] eqn:Et; [| discriminate].
  destruct (tryMeeting_keeps rx tx _ s s1 Et) as [Hh [Hr [Ht [Hw Hm]]]].
  unfold Simulation.captureReading, Simulation.call. cbv zeta.
  rewrite Hw, Hm, Hh.
  destruct (Rleb _ (Simulation.maxRange s) && Rgeb _ (Simulation.wavelength s)).
  - destruct (Actor.powerReceiver _ _ _ _ _) as [[powerRx self'] |] eqn:E;
      [| discriminate].
    pose proof (powerReceiver_self _ _ _ _ _ _ _ E) as ->.
    apply powerReceiver_value in E. subst powerRx.
    intros H. injection H as <-.
    cbn [Simulation.readings Simulation.set_readings Simulation.heap
         Simulation.set_heap Simulation.time].
    rewrite Hr, Ht, !upd_same. reflexivity.
  - intros H. injection H as <-. rewrite Hr, app_nil_r. reflexivity.
Qed.

Lemma frame_reading (s s' : Simulation.t) (rx tx : loc) :
  Frame s s' ->
  reading_of s' rx tx = reading_of s rx tx
  /\ in_rangeb s' rx tx = in_rangeb s rx tx.
Proof.
  intros [Hh [_ [Ht [Hc _]]]]. config_fields Hc.
  unfold reading_of, in_rangeb. rewrite !Hh, Ht.
  split; congruence.
Qed.

(** The readings of a run of the loop body over a list of pairs. *)
Lemma pairs_readings (l : list (loc * loc)) :
  forall s s' : Simulation.t,
    (forall p, In p l -> In (fst p) (Simulation.actors s)
                         /\ In (snd p) (Simulation.actors s)) ->
    for_each l (fun p => interact (fst p) (snd p)) s = Some s' ->
    Simulation.readings s'
    = Simulation.readings s
      ++ map (fun p => reading_of s (fst p) (snd p))
           (filter (fun p => in_rangeb s (fst p) (snd p)) l).
Proof.
  induction l as [| p l IH]; intros s s' Hin Hrun.
  - injection Hrun as <-. cbn. rewrite app_nil_r. reflexivity.
  - rewrite for_each_cons in Hrun.
    destruct (interact (fst p) (snd p) s) as [s1 |] eqn:E; [| discriminate].
    destruct (Hin p (or_introl eq_refl)) as [Hrx Htx].
    pose proof (interact_frame _ _ _ _ _ s s1 Hrx Htx E) as F.
    assert (Ha : Simulation.actors s1 = Simulation.actors s) by apply F.
    rewrite (IH s1 s'); [| | assumption].
    2:{ intros q Hq. rewrite Ha. apply Hin. right. assumption. }
    rewrite (interact_readings _ _ _ _ E), <- app_assoc. f_equal.
    cbn [filter].
    rewrite (filter_ext _ (fun q => in_rangeb s (fst q) (snd q)))
      by (intros q; apply (frame_reading s s1 _ _ F)).
    rewrite (map_ext _ (fun q => reading_of s (fst q) (snd q)))
      by (intros q; apply (frame_reading s s1 _ _ F)).
    destruct (in_rangeb s (fst p) (snd p)); reflexivity.
Qed.

(** X5. The readings of a tick, in the order of the log: one for every
    ordered pair of the live collection whose identifiers differ and whose
    distance is between the wavelength and [maxRange], with the power of
    the free-space formula. Both orders of a pair are in the list. *)
Theorem step_readings_exact (secondsElapsed : R) (s s' : Simulation.t) :
  step secondsElapsed s = Some s' ->
  Simulation.readings s'
  = Simulation.readings s
    ++ map (fun p => reading_of s' (fst p) (snd p))
         (filter (fun p => in_rangeb s' (fst p) (snd p))
            (list_prod (Simulation.actors s') (Simulation.actors s'))).
Proof.
  intros Hstep.
  apply step_passes in Hstep. destruct Hstep as [s1 [rem [Hmove Hpair]]].
  apply move_loop_frame in Hmove. destruct Hmove as [_ [_ [_ [_ [Hr _]]]]].
  pose proof (pairwisePass_frame _ _ _ _ _ Hpair) as F.
  assert (Ha : Simulation.actors s' = rem) by apply F.
  rewrite pairwisePass_visited in Hpair.
  apply pairs_readings in Hpair.
  2:{ intros [rx tx] Hin. apply visited_In in Hin. exact Hin. }
  rewrite Hpair. cbn [Simulation.readings Simulation.set_actors
                      Simulation.actors].
  cbn in Hr. rewrite Hr. f_equal.
  rewrite visited_all_pairs, Ha.
  rewrite (filter_ext (fun q => in_rangeb s' (fst q) (snd q))
                      (fun q => in_rangeb (Simulation.set_actors s1 rem)
                                  (fst q) (snd q)))
    by (intros q; apply (frame_reading _ s' _ _ F)).
  apply map_ext. intros q. symmetry. apply (frame_reading _ s' _ _ F).
Qed.

End Log.

(** ** Meetings, the clock and the generators over ticks and runs *)

Lemma in_rangeb_spec (s : Simulation.t) (rx tx : loc) :
  in_rangeb s rx tx = true
  <-> Actor.id (Simulation.heap s rx) <> Actor.id (Simulation.heap s tx)
      /\ Simulation.wavelength s
         <= Simulation.distance (Simulation.heap s rx) (Simulation.heap s tx)
         <= Simulation.maxRange s.
Proof.
  unfold in_rangeb, Rgeb.
  rewrite !andb_true_iff, negb_true_iff, Z.eqb_neq, !Rleb_spec. tauto.
Qed.

(** ** The reading branch calls [powerReceiver] within range only *)

Section Capture.

Variable random_random : nat -> R.
Variable norm_cdf : R -> R -> R -> R.
Variable norm_rvs : nat -> R -> R -> R.

Local Abbreviation interact := (Simulation.interact random_random norm_cdf norm_rvs).
Local Abbreviation pairwisePass := (Simulation.pairwisePass random_random norm_cdf norm_rvs).
Local Abbreviation step := (Simulation.step random_random norm_cdf norm_rvs).
Local Abbreviation run := (Simulation.run random_random norm_cdf norm_rvs).

(** The reading branch on one pair: it returns; it leaves the state as
    it is, or it has called [powerReceiver] at a distance from the
    wavelength upward, and logged the value returned. *)
Lemma captureReading_calls (rx tx : loc) (range : R) (s : Simulation.t) :
  0 < Simulation.wavelength s ->
  exists s',
    Simulation.captureReading rx tx range s = Some s'
    /\ (s' = s
        \/ Simulation.wavelength s <= range
           /\ exists powerRx,
                Actor.powerReceiver (Simulation.wavelength s) range
                  (Actor.powerTx (Simulation.heap s tx))
                  (Actor.gainTx (Simulation.heap s tx))
                  (Simulation.heap s rx)
                = Some (powerRx, Simulation.heap s rx)
                /\ Simulation.readings s'
                   = Simulation.readings s
                     ++ [(Simulation.time s,
                          Actor.id (Simulation.heap s rx),
                          Actor.id (Simulation.heap s tx),
                          powerRx,
                          Actor.deviceModel (Simulation.heap s rx),
                          Actor.deviceModel (Simulation.heap s tx))]).
Proof.
  intros Hw. unfold Simulation.captureReading, Simulation.call.
  destruct (Rleb range (Simulation.maxRange s)
            && Rgeb range (Simulation.wavelength s)) eqn:G.
  - destruct (captureReading_guard range s Hw G) as [_ Hr].
    rewrite powerReceiver_defined by lra.
    eexists. split; [reflexivity |]. right. split; [exact Hr |].
    eexists. split; [reflexivity |].
    cbn [Simulation.readings Simulation.set_readings Simulation.heap
         Simulation.set_heap Simulation.time].
    rewrite !upd_same. reflexivity.
  - exists s. split; [reflexivity | left; reflexivity].
Qed.

(** The readings of a tick are of pairs of the live collection within
    range. *)
Lemma step_logged (secondsElapsed : R) (s s' : Simulation.t) :
  step secondsElapsed s = Some s' ->
  exists pairs,
    Simulation.readings s'
    = Simulation.readings s
      ++ map (fun p => reading_of s' (fst p) (snd p)) pairs
    /\ forall rx tx, In (rx, tx) pairs ->
         In rx (Simulation.actors s') /\ In tx (Simulation.actors s')
         /\ in_rangeb s' rx tx = true.
Proof.
  intros Hstep.
  apply step_passes in Hstep. destruct Hstep as [s1 [rem [Hmove Hpair]]].
  apply move_loop_frame in Hmove. destruct Hmove as [_ [_ [_ [_ [Hr _]]]]].
  pose proof (pairwisePass_frame _ _ _ _ _ Hpair) as F.
  assert (Ha : Simulation.actors s' = rem) by apply F.
  rewrite pairwisePass_visited in Hpair.
  apply pairs_readings in Hpair.
  2:{ intros [rx tx] Hin. apply visited_In in Hin. exact Hin. }
  cbn [Simulation.readings Simulation.set_actors Simulation.actors] in Hpair.
  cbn in Hr. rewrite Hr in Hpair.
  exists (filter (fun p => in_rangeb (Simulation.set_actors s1 rem)
                             (fst p) (snd p)) (visited rem)).
  split.
  - rewrite Hpair. f_equal. apply map_ext. intros q. symmetry.
    apply (frame_reading norm_rvs _ s' _ _ F).
  - intros rx tx Hin. apply filter_In in Hin. destruct Hin as [Hin Hb].
    apply visited_In in Hin. rewrite Ha. cbn [fst snd] in Hb.
    split; [apply Hin |]. split; [apply Hin |].
    rewrite (proj2 (frame_reading norm_rvs _ s' rx tx F)). exact Hb.
Qed.

(** C10.  A simulation constructed with a positive frequency has the
    positive wavelength [2999100 / frequency], and keeps it through every
    run.  In each of its states: the reading branch, on any pair and
    distance, returns, and calls [powerReceiver] only at a distance from
    the wavelength upward, where the call returns the value logged;
    every reading that a tick logs is of a pair of the live collection at
    a distance from the wavelength upward, with the value that
    [powerReceiver] returns there; and a tick raises only when its
    movement loop raises, or when meetings are enabled with a negative
    deviation of the duration (in [stats.norm.rvs]), never in
    [powerReceiver]. *)
Theorem reading_capture_defined (h : loc -> Actor.t) (actors : list loc)
    (frequency maxEffectRange minX maxX minY maxY
     meetingDurationMean meetingDurationSd meetingDistanceMean
     meetingDistanceSd meetingChance meetingMaxRange : R) :
  0 < frequency ->
  exists s0,
    Simulation.init h actors frequency maxEffectRange minX maxX minY maxY
      meetingDurationMean meetingDurationSd meetingDistanceMean
      meetingDistanceSd meetingChance meetingMaxRange = Some s0
    /\ Simulation.wavelength s0 = 2999100 / frequency
    /\ 0 < Simulation.wavelength s0
    /\ forall ops s,
         run ops s0 = Some s ->
         Simulation.wavelength s = Simulation.wavelength s0
         /\ (forall rx tx range,
               exists s',
                 Simulation.captureReading rx tx range s = Some s'
                 /\ (s' = s
                     \/ 0 < Simulation.wavelength s <= range
                        /\ exists powerRx,
                             Actor.powerReceiver (Simulation.wavelength s)
                               range
                               (Actor.powerTx (Simulation.heap s tx))
                               (Actor.gainTx (Simulation.heap s tx))
                               (Simulation.heap s rx)
                             = Some (powerRx, Simulation.heap s rx)
                             /\ Simulation.readings s'
                                = Simulation.readings s
                                  ++ [(Simulation.time s,
                                       Actor.id (Simulation.heap s rx),
                                       Actor.id (Simulation.heap s tx),
                                       powerRx,
                                       Actor.deviceModel (Simulation.heap s rx),
                                       Actor.deviceModel
                                         (Simulation.heap s tx))]))
         /\ (forall secondsElapsed s',
               step secondsElapsed s = Some s' ->
               exists pairs,
                 Simulation.readings s'
                 = Simulation.readings s
                   ++ map (fun p => reading_of s' (fst p) (snd p)) pairs
                 /\ forall rx tx, In (rx, tx) pairs ->
                      In rx (Simulation.actors s')
                      /\ In tx (Simulation.actors s')
                      /\ 0 < Simulation.wavelength s'
                         <= Simulation.distance (Simulation.heap s' rx)
                                                (Simulation.heap s' tx)
                      /\ exists powerRx,
                           Actor.powerReceiver (Simulation.wavelength s')
                             (Simulation.distance (Simulation.heap s' rx)
                                                  (Simulation.heap s' tx))
                             (Actor.powerTx (Simulation.heap s' tx))
                             (Actor.gainTx (Simulation.heap s' tx))
                             (Simulation.heap s' rx)
                           = Some (powerRx, Simulation.heap s' rx)
                           /\ reading_of s' rx tx
                              = (Simulation.time s',
                                 Actor.id (Simulation.heap s' rx),
                                 Actor.id (Simulation.heap s' tx),
                                 powerRx,
                                 Actor.deviceModel (Simulation.heap s' rx),
                                 Actor.deviceModel (Simulation.heap s' tx)))
         /\ (forall secondsElapsed,
               step secondsElapsed s = None ->
               Simulation.movementPass secondsElapsed
                 (Simulation.set_time s (Simulation.time s + secondsElapsed))
               = None
               \/ (0 < Simulation.meetingDurationMean s
                   /\ Simulation.meetingDurationSd s < 0)).
Proof.
  intros Hf. unfold Simulation.init.
  destruct (Req_dec_T frequency 0) as [E | _]; [lra |].
  eexists. split; [reflexivity |]. split; [reflexivity |].
  assert (Hw0 : 0 < 2999100 / frequency)
    by (apply Rdiv_lt_0_compat; lra).
  split; [exact Hw0 |].
  intros ops s Hrun.
  apply run_frame in Hrun. destruct Hrun as [Hc _].
  apply config_wavelength in Hc. cbn in Hc.
  assert (Hw : 0 < Simulation.wavelength s) by (rewrite Hc; exact Hw0).
  split; [exact Hc |]. split; [| split].
  - intros rx tx range.
    destruct (captureReading_calls rx tx range s Hw)
      as [s' [E [-> | [Hr [p [Hp Hlog]]]]]].
    + exists s. split; [exact E | left; reflexivity].
    + exists s'. split; [exact E |]. right.
      split; [split; assumption |]. exists p. split; assumption.
  - intros dt s' Hstep.
    pose proof (step_frames _ _ _ _ _ _ Hstep) as (_ & _ & _ & _ & Hc' & _).
    apply config_wavelength in Hc'.
    assert (Hw' : 0 < Simulation.wavelength s') by (rewrite Hc'; exact Hw).
    destruct (step_logged dt s s' Hstep) as [pairs [Hlog Hpairs]].
    exists pairs. split; [exact Hlog |].
    intros rx tx Hin.
    destruct (Hpairs rx tx Hin) as [Hrx [Htx Hb]].
    apply in_rangeb_spec in Hb. destruct Hb as [_ [Hd _]].
    split; [exact Hrx |]. split; [exact Htx |].
    split; [split; assumption |].
    eexists. split; [apply powerReceiver_defined; lra | reflexivity].
  - intros dt Hstep. unfold Simulation.step in Hstep.
    destruct (Simulation.movementPass dt _) as [live |] eqn:Hlive;
      [| left; reflexivity].
    right.
    assert (Hcl : config live = config s).
    { unfold Simulation.movementPass in Hlive.
      destruct (for_each _ _ _) as [[s1 rem] |] eqn:Hmove; [| discriminate].
      injection Hlive as <-.
      apply move_loop_frame in Hmove. destruct Hmove as [_ [_ [Hc1 _]]].
      exact Hc1. }
    destruct (Rlt_dec 0 (Simulation.meetingDurationMean s)) as [Hon | Hoff];
      [destruct (Rlt_dec (Simulation.meetingDurationSd s) 0) as [Hsd | Hsd];
       [split; assumption |] |].
    + exfalso.
      destruct (pairwisePass_defined random_random norm_cdf norm_rvs live)
        as [s' E'].
      * rewrite (config_wavelength _ _ Hcl). exact Hw.
      * apply (config_rvs_returns s); [exact Hcl | right; lra].
      * rewrite E' in Hstep. discriminate.
    + exfalso.
      destruct (pairwisePass_defined random_random norm_cdf norm_rvs live)
        as [s' E'].
      * rewrite (config_wavelength _ _ Hcl). exact Hw.
      * apply (config_rvs_returns s); [exact Hcl | left; lra].
      * rewrite E' in Hstep. discriminate.
Qed.

End Capture.

Lemma reading_capture_defined_witness :
  0 < 2436000000
  /\ exists s0,
       Simulation.init pair_heap [0%nat; 1%nat] 2436000000 15
         (-200) 200 (-200) 200 0 0 0 0 0 3 = Some s0
       /\ Simulation.wavelength s0 = 2999100 / 2436000000
       /\ 0 < Simulation.wavelength s0.
Proof.
  assert (H : 0 < 2436000000) by lra.
  split; [exact H |].
  destruct (reading_capture_defined coin cdf_near rvs_mean
              pair_heap [0%nat; 1%nat] 2436000000 15 (-200) 200 (-200) 200
              0 0 0 0 0 3 H) as [s0 [E [Hw [Hpos _]]]].
  exists s0. split; [exact E |]. split; [exact Hw | exact Hpos].
Defined.

Section Meetings.

Variable random_random : nat -> R.
Variable norm_cdf : R -> R -> R -> R.
Variable norm_rvs : nat -> R -> R -> R.

Local Abbreviation tryMeeting := (Simulation.tryMeeting random_random norm_cdf norm_rvs).
Local Abbreviation interact := (Simulation.interact random_random norm_cdf norm_rvs).
Local Abbreviation pairwisePass := (Simulation.pairwisePass random_random norm_cdf norm_rvs).
Local Abbreviation step := (Simulation.step random_random norm_cdf norm_rvs).
Local Abbreviation exec := (Simulation.exec random_random norm_cdf norm_rvs).
Local Abbreviation run := (Simulation.run random_random norm_cdf norm_rvs).
Local Abbreviation Frame := (pairwise_frame norm_rvs).
Local Abbreviation Reachable := (reachable random_random norm_cdf norm_rvs).

(** A relation that every visit establishes, and that composes along
    states with the same actors, clock and configuration, holds of the
    pass. *)
Lemma pairwisePass_induct (Rel : Simulation.t -> Simulation.t -> Prop) :
  (forall s, Rel s s) ->
  (forall s1 s2 s3,
     Frame s1 s2 -> Frame s2 s3 -> Rel s1 s2 -> Rel s2 s3 -> Rel s1 s3) ->
  (forall rx tx s s',
     In rx (Simulation.actors s) -> In tx (Simulation.actors s) ->
     interact rx tx s = Some s' -> Rel s s') ->
  forall s s', pairwisePass s = Some s' -> Rel s s'.
Proof.
  intros Hrefl Htrans Hvisit s s' Hrun.
  rewrite pairwisePass_visited in Hrun.
  apply (for_each_rel (fun a b => Frame a b /\ Rel a b)) in Hrun;
    [apply Hrun | | |].
  - intros a. split; [apply pairwise_frame_refl | apply Hrefl].
  - intros s1 s2 s3 [F12 R12] [F23 R23].
    split; [apply (pairwise_frame_trans _ _ _ _ F12 F23) |].
    apply (Htrans s1 s2 s3); assumption.
  - intros [rx tx] s1 s2 Hin [F _] E. cbn [fst snd] in E.
    apply visited_In in Hin.
    assert (Ha : Simulation.actors s1 = Simulation.actors s) by apply F.
    rewrite <- Ha in Hin. destruct Hin as [Hrx Htx].
    split; [apply (interact_frame _ _ _ _ _ _ _ Hrx Htx E) |].
    apply (Hvisit rx tx); assumption.
Qed.

Lemma met_frame (s s' : Simulation.t) (m : Meeting.t) :
  Frame s s' -> met s' m <-> met s m.
Proof.
  intros [Hh [Ha [Ht [Hc _]]]]. config_fields Hc. unfold met.
  split; intros [rx [tx Hmet]]; exists rx, tx.
  - rewrite !Hh, Ha, Ht in Hmet.
    repeat match goal with
           | E : _ s' = _ s |- _ => rewrite E in Hmet; clear E
           end.
    exact Hmet.
  - rewrite !Hh, Ha, Ht.
    repeat match goal with
           | E : _ s' = _ s |- _ => rewrite E; clear E
           end.
    exact Hmet.
Qed.

Lemma interact_met (rx tx : loc) (s s' : Simulation.t) :
  In rx (Simulation.actors s) -> In tx (Simulation.actors s) ->
  interact rx tx s = Some s' ->
  exists ms, Simulation.meetings s' = Simulation.meetings s ++ ms
             /\ Forall (met s) ms.
Proof.
  intros Hrx Htx. unfold Simulation.interact. cbv zeta.
  destruct (Z.eqb_spec (Actor.id (Simulation.heap s rx))
                       (Actor.id (Simulation.heap s tx))) as [E | N];
    cbn [negb].
  - intros H. injection H as <-. exists [].
    rewrite app_nil_r. split; [reflexivity | constructor].
  - destruct (Simulation.tryMeeting _ _ _ rx tx _ s) as [s1 |] eqn:Et;
      [| discriminate].
    intros H. apply captureReading_meetings in H. destruct H as [Hm _].
    rewrite Hm.
    destruct (tryMeeting_cases random_random norm_cdf norm_rvs rx tx
                (Simulation.distance (Simulation.heap s rx)
                                     (Simulation.heap s tx)) s s1 Et)
      as [[E _] | [H1 [H2 [H3 E]]]]; rewrite E.
    + exists []. rewrite app_nil_r. split; [reflexivity | constructor].
    + eexists. split; [reflexivity |]. constructor; [| constructor].
      exists rx, tx. cbn [Meeting.participants Meeting.start Meeting.end_].
      pose proof (endTime_ge (Simulation.time s)
                    (norm_rvs (Simulation.rvsCalls s)
                       (Simulation.meetingDurationMean s)
                       (Simulation.meetingDurationSd s))).
      repeat split; assumption.
Qed.

Lemma step_met (secondsElapsed : R) (s s' : Simulation.t) :
  step secondsElapsed s = Some s' ->
  exists ms,
    Simulation.meetings s' = Simulation.meetings s ++ ms
    /\ forall m, In m ms -> met s' m.
Proof.
  intros Hstep.
  apply step_passes in Hstep. destruct Hstep as [s1 [rem [Hmove Hpair]]].
  apply move_loop_frame in Hmove. destruct Hmove as [_ [_ [_ [Hm _]]]].
  pose proof (pairwisePass_frame _ _ _ _ _ Hpair) as F.
  apply (pairwisePass_induct
           (fun a b => exists ms,
                Simulation.meetings b = Simulation.meetings a ++ ms
                /\ Forall (met a) ms)) in Hpair.
  - destruct Hpair as [ms [E Hms]]. exists ms.
    split; [rewrite E; cbn in Hm |- *; rewrite Hm; reflexivity |].
    intros m Hin. rewrite Forall_forall in Hms.
    apply (met_frame _ _ m F). apply Hms. assumption.
  - intros a. exists []. rewrite app_nil_r. split; [reflexivity | constructor].
  - intros s1' s2 s3 F12 F23 [ms [E Hms]] [ms' [E' Hms']].
    exists (ms ++ ms'). rewrite E', E, app_assoc. split; [reflexivity |].
    apply Forall_app. split; [assumption |].
    eapply Forall_impl; [| exact Hms'].
    intros m. apply (met_frame _ _ m F12).
  - intros rx tx a b. apply interact_met.
Qed.

(** X6. A tick forms meetings only when [meetingDurationMean] is positive,
    and only of two actors of the live collection with different
    identifiers whose distance is at most [meetingMaxRange] and at most
    [meetingDistanceMean + 2 * meetingDistanceSd]. *)
Theorem step_meetings_met (secondsElapsed : R) (s s' : Simulation.t) :
  step secondsElapsed s = Some s' ->
  exists ms,
    Simulation.meetings s' = Simulation.meetings s ++ ms
    /\ forall m, In m ms -> met s' m.
Proof. exact (step_met secondsElapsed s s'). Qed.

Lemma met_well_formed (s : Simulation.t) (m : Meeting.t) :
  met s m -> well_formed m.
Proof.
  intros [rx [tx [_ [_ [N [_ [_ [_ [Hp [_ He]]]]]]]]]].
  split; [exists (Actor.id (Simulation.heap s rx)),
            (Actor.id (Simulation.heap s tx)); auto |].
  unfold Meeting.duration. lra.
Qed.

Lemma exec_cases (o : Simulation.op) (s s' : Simulation.t) :
  exec o s = Some s' ->
  (exists secondsElapsed,
     o = Simulation.Step secondsElapsed /\ step secondsElapsed s = Some s')
  \/ (exists l, s' = Simulation.set_actors s l)
  \/ (exists h, s' = Simulation.set_heap s h).
Proof.
  destruct o as [dt | k | k m | k newX newY | k a v | k dt];
    unfold Simulation.exec.
  - intros H. left. exists dt. auto.
  - intros H. injection H as <-. right. left. eexists. reflexivity.
  - intros H. right. right.
    destruct (Simulation.call (Actor.setModel m) k s) as [[r s1] |] eqn:E;
      [| discriminate].
    injection H as <-. apply (call_set_heap _ _ _ _ _ E).
  - intros H. right. right.
    destruct (Simulation.call (Actor.setPosition newX newY) k s)
      as [[r s1] |] eqn:E; [| discriminate].
    injection H as <-. apply (call_set_heap _ _ _ _ _ E).
  - intros H. right. right.
    destruct (Simulation.call (Actor.setVelocity a v) k s)
      as [[r s1] |] eqn:E; [| discriminate].
    injection H as <-. apply (call_set_heap _ _ _ _ _ E).
  - intros H. right. right.
    destruct (Simulation.call (Actor.updatePosition dt) k s)
      as [[r s1] |] eqn:E; [| discriminate].
    injection H as <-. apply (call_set_heap _ _ _ _ _ E).
Qed.

(** X7. In every state of a simulation, every meeting of the list has two
    participants, with different identifiers, and lasts one tick at least. *)
Theorem meetings_well_formed (s : Simulation.t) :
  Reachable s -> Forall well_formed (Simulation.meetings s).
Proof.
  induction 1 as [h actors frequency maxEffectRange minX maxX minY maxY
                    mDM mDSd mDiM mDiSd chance mMR s Hinit
                 | s o s' _ IH Hexec].
  - unfold Simulation.init in Hinit.
    destruct (Req_dec_T frequency 0); [discriminate |].
    injection Hinit as <-. constructor.
  - apply exec_cases in Hexec.
    destruct Hexec as [[dt [_ Hstep]] | [[l ->] | [h ->]]]; try exact IH.
    apply step_met in Hstep. destruct Hstep as [ms [E Hms]].
    rewrite E. apply Forall_app. split; [assumption |].
    apply Forall_forall. intros m Hin.
    apply (met_well_formed s'). apply Hms. assumption.
Qed.

(** X8. With [meetingDurationMean] at 0 (the default) or below, no run of
    ticks and other calls forms a meeting or draws a random number. *)
Theorem meetings_disabled (ops : list Simulation.op) :
  forall s s' : Simulation.t,
    Simulation.meetingDurationMean s <= 0 ->
    run ops s = Some s' ->
    Simulation.meetings s' = Simulation.meetings s
    /\ Simulation.randomCalls s' = Simulation.randomCalls s
    /\ Simulation.rvsCalls s' = Simulation.rvsCalls s.
Proof.
  assert (Hstep : forall dt s s',
             Simulation.meetingDurationMean s <= 0 ->
             step dt s = Some s' ->
             Simulation.meetings s' = Simulation.meetings s
             /\ Simulation.randomCalls s' = Simulation.randomCalls s
             /\ Simulation.rvsCalls s' = Simulation.rvsCalls s).
  { intros dt s s' Hoff Hstep.
    apply step_passes in Hstep. destruct Hstep as [s1 [rem [Hmove Hpair]]].
    apply move_loop_frame in Hmove.
    destruct Hmove as [_ [_ [Hc [Hm [_ [Hn [Hv _]]]]]]].
    assert (Hoff1 : Simulation.meetingDurationMean
                      (Simulation.set_actors s1 rem) <= 0).
    { config_fields Hc. cbn in *. congruence. }
    assert (G : Simulation.meetingDurationMean (Simulation.set_actors s1 rem)
                <= 0 ->
                Simulation.meetings s'
                = Simulation.meetings (Simulation.set_actors s1 rem)
                /\ Simulation.randomCalls s'
                   = Simulation.randomCalls (Simulation.set_actors s1 rem)
                /\ Simulation.rvsCalls s'
                   = Simulation.rvsCalls (Simulation.set_actors s1 rem)).
    { revert Hpair.
      apply (pairwisePass_induct
               (fun a b => Simulation.meetingDurationMean a <= 0 ->
                  Simulation.meetings b = Simulation.meetings a
                  /\ Simulation.randomCalls b = Simulation.randomCalls a
                  /\ Simulation.rvsCalls b = Simulation.rvsCalls a)).
      - auto.
      - intros a b c0 F12 _ R12 R23 Ha.
        destruct (R12 Ha) as [E1 [E2 E3]].
        assert (Hb : Simulation.meetingDurationMean b <= 0).
        { destruct F12 as [_ [_ [_ [Hcfg _]]]]. config_fields Hcfg.
          congruence. }
        destruct (R23 Hb) as [E1' [E2' E3']]. repeat split; congruence.
      - intros rx tx a b _ _ E Ha.
        unfold Simulation.interact in E. cbv zeta in E.
        destruct (negb _).
        + rewrite tryMeeting_skip in E by (left; exact Ha).
          apply captureReading_meetings in E. exact E.
        + injection E as <-. auto. }
    destruct (G Hoff1) as [E1 [E2 E3]]. cbn in *.
    repeat split; congruence. }
  unfold Simulation.run.
  induction ops as [| o ops IH]; intros s s' Hoff Hrun.
  - injection Hrun as <-. auto.
  - rewrite for_each_cons in Hrun.
    destruct (exec o s) as [s1 |] eqn:E; [| discriminate].
    pose proof (exec_frame _ _ _ _ _ _ E) as [Hc _].
    assert (Hoff1 : Simulation.meetingDurationMean s1 <= 0).
    { config_fields Hc. congruence. }
    destruct (IH s1 s' Hoff1 Hrun) as [E1 [E2 E3]].
    apply exec_cases in E.
    destruct E as [[dt [_ Hs]] | [[l ->] | [h ->]]].
    + destruct (Hstep dt s s1 Hoff Hs) as [E1' [E2' E3']].
      repeat split; congruence.
    + auto.
    + auto.
Qed.

Lemma exec_clock (o : Simulation.op) (s s' : Simulation.t) :
  exec o s = Some s' ->
  Simulation.time s' = Simulation.time s + elapsed [o].
Proof.
  intros E. pose proof (exec_cases o s s' E) as Hc.
  destruct o as [dt | k | k m | k newX newY | k a v | k dt]; cbn [elapsed].
  - cbn in E. apply step_frames in E. destruct E as [_ [_ [_ [Ht _]]]].
    rewrite Ht. lra.
  - injection E as <-. cbn. lra.
  - destruct Hc as [[dt [C _]] | [[l ->] | [h ->]]];
      [discriminate | cbn; lra | cbn; lra].
  - destruct Hc as [[dt [C _]] | [[l ->] | [h ->]]];
      [discriminate | cbn; lra | cbn; lra].
  - destruct Hc as [[dt [C _]] | [[l ->] | [h ->]]];
      [discriminate | cbn; lra | cbn; lra].
  - destruct Hc as [[dt' [C _]] | [[l ->] | [h ->]]];
      [discriminate | cbn; lra | cbn; lra].
Qed.

(** X9. The clock after a run is the clock before it plus the seconds of
    its ticks; no other call moves the clock. *)
Theorem run_clock (ops : list Simulation.op) :
  forall s s' : Simulation.t,
    run ops s = Some s' ->
    Simulation.time s' = Simulation.time s + elapsed ops.
Proof.
  unfold Simulation.run.
  induction ops as [| o ops IH]; intros s s' Hrun.
  - injection Hrun as <-. cbn. lra.
  - rewrite for_each_cons in Hrun.
    destruct (exec o s) as [s1 |] eqn:E; [| discriminate].
    rewrite (IH s1 s' Hrun), (exec_clock o s s1 E).
    destruct o; cbn [elapsed]; lra.
Qed.

End Meetings.

(** ** The movement loop on a collection without repetition *)

Lemma move_fate (secondsElapsed : R) (l : loc) (s s1 : Simulation.t)
    (rem rem1 : list loc) :
  Simulation.move secondsElapsed l (s, rem) = Some (s1, rem1) ->
  exists kept : bool,
    rem1 = rem ++ (if kept then [l] else [])
    /\ fate s secondsElapsed (Simulation.heap s l) (Simulation.heap s1 l) kept.
Proof.
  intros H. apply move_cases in H. destruct H as [_ [_ Hcase]]. unfold fate.
  destruct Hcase as [[Hi [E ->]] | [[Hi [Hm [E ->]]] | [Hi [Hm [a [Ha Hc]]]]]];
    rewrite Hi; try rewrite Hm.
  - exists false. rewrite app_nil_r. auto.
  - exists true. auto.
  - destruct Hc as [[Ho [E ->]] | [Ho [E ->]]].
    + exists false. rewrite app_nil_r. split; [reflexivity |].
      exists a. auto.
    + exists true. split; [reflexivity |]. exists a. auto.
Qed.

Lemma fate_frame (s s1 : Simulation.t) (secondsElapsed : R)
    (a a' : Actor.t) (kept : bool) :
  movement_frame s s1 ->
  fate s1 secondsElapsed a a' kept <-> fate s secondsElapsed a a' kept.
Proof.
  intros F. unfold fate.
  rewrite (movement_frame_isInMeeting s s1 _ F).
  destruct (Actor.included a); [| reflexivity].
  destruct (Simulation.isInMeeting s (Actor.id a) (Simulation.time s));
    [reflexivity |].
  split; intros [self' [E H]]; exists self'; (split; [exact E |]);
    destruct kept; destruct H as [Ho Ea]; split; try assumption;
    try (intros C; apply Ho); apply (movement_frame_outside s s1 self' F);
    assumption.
Qed.

Lemma move_loop_nodup (secondsElapsed : R) (ls : list loc) :
  forall (s s' : Simulation.t) (rem rem' : list loc),
    NoDup ls ->
    for_each ls (Simulation.move secondsElapsed) (s, rem) = Some (s', rem') ->
    exists keep : loc -> bool,
      rem' = rem ++ filter keep ls
      /\ forall l, In l ls ->
           fate s secondsElapsed (Simulation.heap s l) (Simulation.heap s' l)
             (keep l).
Proof.
  induction ls as [| l ls IH]; intros s s' rem rem' Hnd Hrun.
  - injection Hrun as <- <-. exists (fun _ => false).
    rewrite app_nil_r. split; [reflexivity | intros l []].
  - rewrite for_each_cons in Hrun.
    destruct (Simulation.move secondsElapsed l (s, rem)) as [[s1 rem1] |] eqn:Hm;
      [| discriminate].
    inversion Hnd as [| ? ? Hnotin Hnd']; subst.
    destruct (move_fate _ _ _ _ _ _ Hm) as [kept [-> Hfate]].
    apply move_cases in Hm. destruct Hm as [Hframe [Hother _]].
    destruct (IH s1 s' _ rem' Hnd' Hrun) as [keep' [-> Hall]].
    exists (fun k => if Nat.eqb k l then kept else keep' k).
    split.
    + cbn [filter]. rewrite Nat.eqb_refl, <- app_assoc. f_equal.
      assert (Hf : forall f : loc -> bool,
                 (forall k, k <> l -> f k = keep' k) ->
                 filter f ls = filter keep' ls).
      { intros f Hfk. apply filter_ext_in. intros k Hk. apply Hfk.
        intros ->. contradiction. }
      destruct kept; cbn [app]; [f_equal |]; symmetry; apply Hf;
        intros k N; destruct (Nat.eqb_spec k l); try contradiction;
        reflexivity.
    + intros k [<- | Hk].
      * rewrite Nat.eqb_refl.
        destruct (move_loop_moved _ _ _ _ _ _ l Hrun) as [E | [C _]];
          [rewrite E; exact Hfate | contradiction].
      * destruct (Nat.eqb_spec k l) as [-> | N]; [contradiction |].
        rewrite <- (Hother k N).
        apply (fate_frame s s1 _ _ _ _ Hframe). apply Hall. assumption.
Qed.

Section Movement.

Variable random_random : nat -> R.
Variable norm_cdf : R -> R -> R -> R.
Variable norm_rvs : nat -> R -> R -> R.

Local Abbreviation interact := (Simulation.interact random_random norm_cdf norm_rvs).
Local Abbreviation pairwisePass := (Simulation.pairwisePass random_random norm_cdf norm_rvs).
Local Abbreviation step := (Simulation.step random_random norm_cdf norm_rvs).
Local Abbreviation run := (Simulation.run random_random norm_cdf norm_rvs).

(** A tick on a collection without repetition: what it does to each
    actor of the collection, and the collection it leaves. *)
Lemma step_fates (secondsElapsed : R) (s s' : Simulation.t) :
  NoDup (Simulation.actors s) ->
  step secondsElapsed s = Some s' ->
  exists keep : loc -> bool,
    Simulation.actors s' = filter keep (Simulation.actors s)
    /\ forall l, In l (Simulation.actors s) ->
         fate (Simulation.set_time s (Simulation.time s + secondsElapsed))
           secondsElapsed (Simulation.heap s l) (Simulation.heap s' l)
           (keep l).
Proof.
  intros Hnd Hstep.
  apply step_passes in Hstep. destruct Hstep as [s1 [rem [Hmove Hpair]]].
  apply move_loop_nodup in Hmove; [| assumption].
  destruct Hmove as [keep [-> Hall]].
  apply pairwisePass_frame in Hpair. destruct Hpair as [Hh [Ha _]].
  exists keep. split; [exact Ha |].
  intros l Hin. rewrite Hh. apply Hall. assumption.
Qed.

(** X10. A tick on a collection without repetition leaves a collection
    without repetition, in the order of the one before, of included actors
    only; each is inside the bounding box or takes part in a meeting
    active at the clock. *)
Theorem step_live_collection (secondsElapsed : R) (s s' : Simulation.t) :
  NoDup (Simulation.actors s) ->
  step secondsElapsed s = Some s' ->
  (exists keep, Simulation.actors s' = filter keep (Simulation.actors s))
  /\ NoDup (Simulation.actors s')
  /\ forall l, In l (Simulation.actors s') ->
       Actor.included (Simulation.heap s' l) = true
       /\ (~ outside s' (Simulation.heap s' l)
           \/ in_active_meeting s' (Actor.id (Simulation.heap s' l))
                (Simulation.time s')).
Proof.
  intros Hnd Hstep.
  destruct (step_fates _ _ _ Hnd Hstep) as [keep [Ha Hall]].
  pose proof (step_frames _ _ _ _ _ _ Hstep)
    as [s1 [_ [_ [Ht [Hc [[ms [Hm _]] _]]]]]].
  split; [exists keep; exact Ha |].
  split; [rewrite Ha; apply NoDup_filter; assumption |].
  intros l Hin. rewrite Ha in Hin. apply filter_In in Hin.
  destruct Hin as [Hin Hk].
  specialize (Hall l Hin). unfold fate in Hall. rewrite Hk in Hall.
  destruct (Actor.included (Simulation.heap s l)) eqn:Hi;
    [| destruct Hall; discriminate].
  cbn [Simulation.time Simulation.set_time] in Hall.
  destruct (Simulation.isInMeeting _ _ _) eqn:Hmeet.
  - destruct Hall as [-> _]. split; [assumption |]. right.
    apply isInMeeting_spec in Hmeet.
    destruct Hmeet as [m [Hmin Hrest]]. exists m.
    rewrite Ht. split; [| exact Hrest].
    rewrite Hm. apply in_or_app. left. exact Hmin.
  - destruct Hall as [self' [Hupd [Hout ->]]].
    apply updatePosition_fields in Hupd. destruct Hupd as [_ Hinc].
    split; [congruence |]. left.
    intros Ho. apply Hout. unfold outside in *. config_fields Hc.
    cbn [Simulation.minX Simulation.maxX Simulation.minY Simulation.maxY
         Simulation.set_time].
    congruence.
Qed.

(** X11. A tick on a collection without repetition moves every included
    actor that is in no meeting active at the advanced clock by its
    velocity times the seconds: [yComponent] along x and [xComponent]
    along y. The actor stays in the collection, and stays included,
    exactly when the new position is not outside the bounding box. *)
Theorem step_moves_free_actor (secondsElapsed : R) (s s' : Simulation.t)
    (l : loc) :
  NoDup (Simulation.actors s) ->
  In l (Simulation.actors s) ->
  Actor.included (Simulation.heap s l) = true ->
  ~ in_active_meeting s (Actor.id (Simulation.heap s l))
      (Simulation.time s + secondsElapsed) ->
  step secondsElapsed s = Some s' ->
  exists xc yc,
    Actor.xComponent (Simulation.heap s l) = Some xc
    /\ Actor.yComponent (Simulation.heap s l) = Some yc
    /\ Actor.x (Simulation.heap s' l)
       = Actor.x (Simulation.heap s l) + yc * secondsElapsed
    /\ Actor.y (Simulation.heap s' l)
       = Actor.y (Simulation.heap s l) + xc * secondsElapsed
    /\ (In l (Simulation.actors s') <-> ~ outside s (Simulation.heap s' l))
    /\ (Actor.included (Simulation.heap s' l) = true
        <-> ~ outside s (Simulation.heap s' l)).
Proof.
  intros Hnd Hin Hinc Hfree Hstep.
  destruct (step_fates _ _ _ Hnd Hstep) as [keep [Ha Hall]].
  specialize (Hall l Hin). unfold fate in Hall. rewrite Hinc in Hall.
  cbn [Simulation.time Simulation.set_time] in Hall.
  destruct (Simulation.isInMeeting _ _ _) eqn:Hmeet.
  { exfalso. apply Hfree. apply isInMeeting_spec in Hmeet. exact Hmeet. }
  destruct Hall as [self' [Hupd Hk]].
  pose proof (updatePosition_fields _ _ _ Hupd) as [_ Hinc'].
  unfold Actor.updatePosition in Hupd.
  destruct (Actor.xComponent (Simulation.heap s l)) as [xc |];
    [| discriminate].
  destruct (Actor.yComponent (Simulation.heap s l)) as [yc |];
    [| discriminate].
  injection Hupd as Hself.
  exists xc, yc. split; [reflexivity |]. split; [reflexivity |].
  rewrite Ha, filter_In.
  destruct (keep l); destruct Hk as [Ho ->].
  - rewrite <- Hself. cbn. rewrite <- Hself in Ho, Hinc'. cbn in Hinc'.
    repeat split; auto; try (intros _ C; apply Ho; exact C);
      try congruence.
  - rewrite <- Hself. rewrite <- Hself in Ho. cbn.
    split; [reflexivity |]. split; [reflexivity |].
    split; split; intros C; try discriminate;
      try (destruct C; discriminate);
      exfalso; apply C; exact Ho.
Qed.

End Movement.

(** ** Ticks that raise, meetings that last, pairs that are visited *)

Lemma updatePosition_raises (secondsElapsed : R) (self : Actor.t) :
  Actor.updatePosition secondsElapsed self = None <-> ~ has_velocity self.
Proof.
  unfold Actor.updatePosition, has_velocity.
  destruct (Actor.xComponent self), (Actor.yComponent self); split;
    try discriminate; try reflexivity;
    try (intros H; exfalso; apply H; split; discriminate);
    intros _ [Hx Hy]; congruence.
Qed.

Lemma move_loop_raises (secondsElapsed : R) (l : loc) (ls : list loc) :
  forall (s : Simulation.t) (rem : list loc),
    In l ls ->
    Actor.included (Simulation.heap s l) = true ->
    Simulation.isInMeeting s (Actor.id (Simulation.heap s l))
      (Simulation.time s) = false ->
    ~ has_velocity (Simulation.heap s l) ->
    for_each ls (Simulation.move secondsElapsed) (s, rem) = None.
Proof.
  induction ls as [| k ls IH]; intros s rem Hin Hinc Hmeet Hv;
    [destruct Hin |].
  rewrite for_each_cons.
  destruct (Simulation.move secondsElapsed k (s, rem)) as [[s1 rem1] |] eqn:Hm;
    [| reflexivity].
  pose proof (move_cases _ _ _ _ _ _ Hm) as [Hframe [Hother Hcase]].
  destruct (Nat.eq_dec l k) as [<- | N].
  - exfalso.
    destruct Hcase as [[C _] | [[_ [C _]] | [_ [_ [a [Ha _]]]]]];
      try congruence.
    apply (proj2 (updatePosition_raises secondsElapsed _)) in Hv. congruence.
  - destruct Hin as [E | Hin]; [congruence |].
    apply IH; try assumption.
    + rewrite (Hother l N). assumption.
    + rewrite (Hother l N), (movement_frame_isInMeeting s s1 _ Hframe).
      assumption.
    + rewrite (Hother l N). assumption.
Qed.

Section Lasting.

Variable random_random : nat -> R.
Variable norm_cdf : R -> R -> R -> R.
Variable norm_rvs : nat -> R -> R -> R.

Local Abbreviation interact := (Simulation.interact random_random norm_cdf norm_rvs).
Local Abbreviation pairwisePass := (Simulation.pairwisePass random_random norm_cdf norm_rvs).
Local Abbreviation step := (Simulation.step random_random norm_cdf norm_rvs).
Local Abbreviation run := (Simulation.run random_random norm_cdf norm_rvs).

(** X12. [updatePosition] raises on an actor on which [setVelocity] was
    never called; so a tick raises when the collection has an included
    actor without velocity that is in no meeting active at the advanced
    clock. *)
Theorem step_raises_without_velocity (secondsElapsed : R)
    (s : Simulation.t) (l : loc) :
  In l (Simulation.actors s) ->
  Actor.included (Simulation.heap s l) = true ->
  ~ in_active_meeting s (Actor.id (Simulation.heap s l))
      (Simulation.time s + secondsElapsed) ->
  Actor.xComponent (Simulation.heap s l) = None
  \/ Actor.yComponent (Simulation.heap s l) = None ->
  Actor.updatePosition secondsElapsed (Simulation.heap s l) = None
  /\ step secondsElapsed s = None.
Proof.
  intros Hin Hinc Hfree Hnone.
  assert (Hv : ~ has_velocity (Simulation.heap s l)).
  { intros [Hx Hy]. destruct Hnone; contradiction. }
  split; [apply updatePosition_raises; exact Hv |].
  unfold Simulation.step, Simulation.movementPass.
  rewrite (move_loop_raises secondsElapsed l); try assumption; [reflexivity |].
  destruct (Simulation.isInMeeting _ _ _) eqn:E; [| reflexivity].
  exfalso. apply Hfree. apply isInMeeting_spec in E. exact E.
Qed.

Lemma step_frozen (secondsElapsed : R) (s s' : Simulation.t) (l : loc) :
  In l (Simulation.actors s) ->
  Actor.included (Simulation.heap s l) = true ->
  in_active_meeting s (Actor.id (Simulation.heap s l))
    (Simulation.time s + secondsElapsed) ->
  step secondsElapsed s = Some s' ->
  Simulation.heap s' l = Simulation.heap s l
  /\ In l (Simulation.actors s').
Proof.
  intros Hin Hinc Hmeet Hstep.
  apply step_passes in Hstep. destruct Hstep as [s1 [rem [Hmove Hpair]]].
  apply move_loop_meeting with (l := l) in Hmove;
    [| exact Hinc | apply isInMeeting_spec; exact Hmeet].
  destruct Hmove as [Hheap Hret].
  apply pairwisePass_frame in Hpair. destruct Hpair as [Hh [Ha _]].
  rewrite Hh, Ha. split; [exact Hheap |].
  apply Hret. left. assumption.
Qed.

(** X13. A participant of a meeting stays as it is, and in the collection,
    through every run of ticks during which the clock stays within the
    meeting. *)
Theorem meeting_freezes_participant (dts : list R) :
  forall (s s' : Simulation.t) (l : loc) (m : Meeting.t),
    In l (Simulation.actors s) ->
    Actor.included (Simulation.heap s l) = true ->
    In m (Simulation.meetings s) ->
    In (Actor.id (Simulation.heap s l)) (Meeting.participants m) ->
    within m (Simulation.time s) dts ->
    run (map Simulation.Step dts) s = Some s' ->
    Simulation.heap s' l = Simulation.heap s l
    /\ In l (Simulation.actors s').
Proof.
  unfold Simulation.run.
  induction dts as [| dt dts IH]; intros s s' l m Hin Hinc Hm Hp Hw Hrun.
  - injection Hrun as <-. auto.
  - cbn [map] in Hrun. rewrite for_each_cons in Hrun.
    cbn [Simulation.exec] in Hrun.
    destruct (step dt s) as [s1 |] eqn:Hstep; [| discriminate].
    destruct Hw as [Hnow Hlater].
    destruct (step_frozen dt s s1 l Hin Hinc) as [Hheap Hin1];
      [exists m; auto | exact Hstep |].
    pose proof (step_frames _ _ _ _ _ _ Hstep)
      as [_ [_ [_ [Ht [_ [[ms [Hms _]] _]]]]]].
    destruct (IH s1 s' l m) as [Hheap' Hin'];
      try assumption; try (rewrite Hheap; assumption).
    + rewrite Hms. apply in_or_app. left. assumption.
    + rewrite Ht. assumption.
    + split; [congruence | assumption].
Qed.

(** X14. The pairwise pass runs the body of the inner loop on every
    ordered pair of the live collection, row by row: on a pair in both
    orders, and on each actor with itself. *)
Theorem pairwisePass_all_pairs (s : Simulation.t) :
  pairwisePass s
  = for_each (list_prod (Simulation.actors s) (Simulation.actors s))
      (fun p => interact (fst p) (snd p)) s.
Proof.
  rewrite pairwisePass_visited, visited_all_pairs. reflexivity.
Qed.

End Lasting.

(** ** [generateActors] *)

Lemma noneNamer_names_only : names_only noneNamer.
Proof.
  intros a r a' H. injection H as _ <-.
  exists (Actor.deviceModel a). destruct a; reflexivity.
Qed.

Lemma txPowerNamer_names_only (format_03d : R -> option string) :
  names_only (txPowerNamer format_03d).
Proof.
  intros a r a' H. unfold txPowerNamer in H.
  destruct (format_03d (Actor.powerTx a)) as [digits |]; [| discriminate].
  injection H as _ <-. eexists; reflexivity.
Qed.

Lemma cos_three_halves_pi_minus (d : R) : cos (1.5 * PI - d) = - sin d.
Proof.
  replace (1.5 * PI - d) with ((PI / 2 - d) + PI) by lra.
  rewrite neg_cos, cos_shift. reflexivity.
Qed.

Section Generated.

Variable facePositionAngles : nat -> R.
Variable directionAngleDiffs : nat -> R.
Variable rng_normal : nat -> R -> R -> R.
Variable meanSpeed : R.
Variable txPowerMethod : string.
Variable meanTxPower : R.
Variable txGainMethod : string.
Variable meanTxGain : R.
Variable rxSensitivityMethod : string.
Variable meanRxSensitivity : R.
Variable namer : Actor.method unit.

Local Abbreviation BuildActor :=
  (buildActor facePositionAngles directionAngleDiffs rng_normal meanSpeed
     txPowerMethod meanTxPower txGainMethod meanTxGain
     rxSensitivityMethod meanRxSensitivity).
Local Abbreviation GenerateActor :=
  (generateActor facePositionAngles directionAngleDiffs rng_normal meanSpeed
     txPowerMethod meanTxPower txGainMethod meanTxGain
     rxSensitivityMethod meanRxSensitivity namer).
Local Abbreviation GenerateActors :=
  (generateActors facePositionAngles directionAngleDiffs rng_normal meanSpeed
     txPowerMethod meanTxPower txGainMethod meanTxGain
     rxSensitivityMethod meanRxSensitivity namer).
Local Abbreviation Draws :=
  (draws txPowerMethod txGainMethod rxSensitivityMethod).

Lemma buildActor_fields (i calls : nat) :
  exists a,
    BuildActor i calls = Some (a, (calls + Draws)%nat)
    /\ Actor.id a = (Z.of_nat i + 1)%Z
    /\ Actor.x a = 200 * sin (facePositionAngles i)
    /\ Actor.y a = 200 * cos (facePositionAngles i)
    /\ Actor.angle a
       = facePositionAngles i + 1.5 * PI - directionAngleDiffs i
    /\ Actor.speed a = meanSpeed
    /\ Actor.xComponent a = Some (cos (Actor.angle a) * meanSpeed)
    /\ Actor.yComponent a = Some (sin (Actor.angle a) * meanSpeed)
    /\ Actor.included a = true.
Proof.
  unfold buildActor, draws.
  destruct (txPowerMethod =? "gaussian")%string;
    destruct (txGainMethod =? "gaussian")%string;
    destruct (rxSensitivityMethod =? "gaussian")%string;
    cbn; eexists; (split; [do 2 f_equal; lia |]); repeat split; reflexivity.
Qed.

Lemma buildActor_powerTx (i calls : nat) (a : Actor.t) (calls' : nat) :
  BuildActor i calls = Some (a, calls') ->
  forall sample, sample = rng_normal calls meanTxPower 4 ->
  Actor.powerTx a
  = if (txPowerMethod =? "gaussian")%string
    then IZR (Zfloor (Rmax 0 sample))
    else meanTxPower.
Proof.
  intros H sample ->. revert H. unfold buildActor.
  assert (Hmax : forall v, (if Rltb v 0 then 0 else v) = Rmax 0 v).
  { intros v. destruct (Rltb v 0) eqn:E.
    - apply Rltb_spec in E. rewrite Rmax_left; lra.
    - apply Rltb_nspec in E. rewrite Rmax_right; lra. }
  destruct (txPowerMethod =? "gaussian")%string;
    destruct (txGainMethod =? "gaussian")%string;
    destruct (rxSensitivityMethod =? "gaussian")%string;
    cbn; intros H; injection H as <- _; cbn; rewrite ?Hmax; reflexivity.
Qed.

(** The state of the loop of [generateActors] after the indices
    [first, first + n). *)
Lemma generateActor_loop (n : nat) :
  forall (first : nat) (acc : list Actor.t) (acc' : list Actor.t)
         (calls' : nat),
    for_each (seq first n) GenerateActor (acc, (first * Draws)%nat)
    = Some (acc', calls') ->
    calls' = ((first + n) * Draws)%nat
    /\ exists new,
         acc' = acc ++ new
         /\ List.length new = n
         /\ forall k a, nth_error new k = Some a ->
              exists built,
                BuildActor (first + k) ((first + k) * Draws)
                = Some (built, ((first + k) * Draws + Draws)%nat)
                /\ namer built = Some (tt, a).
Proof.
  induction n as [| n IH]; intros first acc acc' calls' H.
  - cbn in H. injection H as <- <-. split; [f_equal; lia |].
    exists []. split; [symmetry; apply app_nil_r |].
    split; [reflexivity |].
    intros k a Hk. destruct k; discriminate.
  - cbn [seq] in H. rewrite for_each_cons in H.
    unfold generateActor at 1 in H.
    destruct (buildActor_fields first (first * Draws)) as (built & Hb & _).
    rewrite Hb in H.
    destruct (namer built) as [[[] a0] |] eqn:En; [| discriminate].
    replace (first * Draws + Draws)%nat with (S first * Draws)%nat in H by lia.
    apply IH in H. destruct H as (-> & new & -> & Hlen & Hnew).
    split; [f_equal; lia |].
    exists (a0 :: new). split; [rewrite <- app_assoc; reflexivity |].
    split; [cbn; congruence |].
    intros [| k] a Hk.
    + cbn in Hk. injection Hk as <-. exists built.
      rewrite Nat.add_0_r. split; assumption.
    + cbn in Hk. destruct (Hnew k a Hk) as (b & Hb' & Hn).
      exists b. replace (first + S k)%nat with (S first + k)%nat by lia.
      split; assumption.
Qed.

(** Every actor of the result is the actor built at its index, named. *)
Lemma generateActors_nth (actorCount : nat) (actors : list Actor.t) :
  GenerateActors actorCount = Some actors ->
  List.length actors = actorCount
  /\ forall i a, nth_error actors i = Some a ->
       exists built,
         BuildActor i (i * Draws)
         = Some (built, (i * Draws + Draws)%nat)
         /\ namer built = Some (tt, a).
Proof.
  unfold generateActors. intros H.
  destruct (for_each (seq 0 actorCount) GenerateActor ([], 0%nat))
    as [[acc calls] |] eqn:E; [| discriminate].
  injection H as ->.
  apply (generateActor_loop actorCount 0 [] actors calls) in E.
  destruct E as (_ & new & -> & Hlen & Hnew).
  split; [exact Hlen |]. intros i a Hi. exact (Hnew i a Hi).
Qed.

Lemma generateActors_defined (actorCount : nat) :
  (forall a, namer a <> None) ->
  exists actors, GenerateActors actorCount = Some actors
                 /\ List.length actors = actorCount.
Proof.
  intros Hn.
  assert (G : forall n first acc,
             exists st, for_each (seq first n) GenerateActor
                          (acc, (first * Draws)%nat) = Some st).
  { induction n as [| n IH]; intros first acc.
    - eexists; reflexivity.
    - cbn [seq]. rewrite for_each_cons. unfold generateActor at 1.
      destruct (buildActor_fields first (first * Draws)) as (b & -> & _).
      destruct (namer b) as [[[] a0] |] eqn:En; [| elim (Hn b En)].
      replace (first * Draws + Draws)%nat with (S first * Draws)%nat by lia.
      apply IH. }
  destruct (G actorCount 0%nat []) as ([acc calls] & E).
  assert (Hg : GenerateActors actorCount = Some acc).
  { unfold generateActors. cbn in E. rewrite E. reflexivity. }
  exists acc. split; [exact Hg |].
  apply generateActors_nth in Hg. apply Hg.
Qed.

(** X15. With a namer that always returns, [generateActors] returns, and
    the list has [actorCount] actors. *)
Theorem generateActors_returns (actorCount : nat) :
  (forall a, namer a <> None) ->
  exists actors,
    generateActors facePositionAngles directionAngleDiffs rng_normal
      meanSpeed txPowerMethod meanTxPower txGainMethod meanTxGain
      rxSensitivityMethod meanRxSensitivity namer actorCount = Some actors
    /\ List.length actors = actorCount.
Proof. exact (generateActors_defined actorCount). Qed.

(** X16. Once the namer raises on the actor built at some index below
    [actorCount], the whole call raises: no list is returned. *)
Theorem generateActors_namer_raises (actorCount i : nat) (built : Actor.t)
    (calls : nat) :
  (i < actorCount)%nat ->
  BuildActor i (i * Draws) = Some (built, calls) ->
  namer built = None ->
  GenerateActors actorCount = None.
Proof.
  intros Hi Hb Hn.
  destruct (GenerateActors actorCount) as [actors |] eqn:E; [| reflexivity].
  apply generateActors_nth in E. destruct E as (Hlen & Hnth).
  destruct (nth_error actors i) as [a |] eqn:Ea.
  - destruct (Hnth i a Ea) as (b & Hb' & Hn').
    rewrite Hb in Hb'. injection Hb' as -> _. congruence.
  - apply nth_error_None in Ea. lia.
Qed.

(** X17. With a namer that only names, the identifiers of the generated
    actors are 1, 2, ..., [actorCount] in order, whatever the other
    arguments and the random draws are: the populations of two calls share
    their identifiers. *)
Theorem generateActors_ids (actorCount : nat) (actors : list Actor.t) :
  names_only namer ->
  GenerateActors actorCount = Some actors ->
  map Actor.id actors = map (fun i => (Z.of_nat i + 1)%Z) (seq 0 actorCount).
Proof.
  intros Hname H. apply generateActors_nth in H. destruct H as (Hlen & Hnth).
  apply nth_error_ext. intros i.
  rewrite !nth_error_map.
  destruct (nth_error actors i) as [a |] eqn:Ea.
  - assert (Hi : (i < actorCount)%nat).
    { rewrite <- Hlen. apply nth_error_Some. congruence. }
    rewrite (nth_error_nth' _ 0%nat) by (rewrite length_seq; exact Hi).
    rewrite seq_nth by exact Hi. cbn.
    destruct (Hnth i a Ea) as (b & Hb & Hn).
    destruct (buildActor_fields i (i * Draws)) as (b' & Hb' & Hid & _).
    rewrite Hb in Hb'. injection Hb' as <-.
    destruct (Hname b tt a Hn) as (m & ->). cbn. f_equal. exact Hid.
  - apply nth_error_None in Ea.
    assert (Hs : nth_error (seq 0 actorCount) i = None).
    { apply nth_error_None. rewrite length_seq. lia. }
    rewrite Hs. reflexivity.
Qed.

(** X18. With a namer that only names, every generated actor starts on the
    circle of radius 200 about the origin, hence within the square [-200,
    200] x [-200, 200] of the scenarios, is included, moves at [meanSpeed]
    and has its velocity components set. *)
Theorem generateActors_on_circle (actorCount : nat) (actors : list Actor.t)
    (i : nat) (a : Actor.t) :
  names_only namer ->
  GenerateActors actorCount = Some actors ->
  nth_error actors i = Some a ->
  Actor.x a = 200 * sin (facePositionAngles i)
  /\ Actor.y a = 200 * cos (facePositionAngles i)
  /\ Actor.x a * Actor.x a + Actor.y a * Actor.y a = 200 * 200
  /\ -200 <= Actor.x a <= 200
  /\ -200 <= Actor.y a <= 200
  /\ Actor.included a = true
  /\ Actor.speed a = meanSpeed
  /\ has_velocity a.
Proof.
  intros Hname H Ha. apply generateActors_nth in H. destruct H as (_ & Hnth).
  destruct (Hnth i a Ha) as (b & Hb & Hn).
  destruct (buildActor_fields i (i * Draws))
    as (b' & Hb' & _ & Hx & Hy & _ & Hs & Hxc & Hyc & Hinc).
  rewrite Hb in Hb'. injection Hb' as <-.
  destruct (Hname b tt a Hn) as (m & ->). cbn.
  pose proof (SIN_bound (facePositionAngles i)) as Bs.
  pose proof (COS_bound (facePositionAngles i)) as Bc.
  pose proof (sin2_cos2 (facePositionAngles i)) as S2. unfold Rsqr in S2.
  split; [exact Hx |]. split; [exact Hy |].
  split; [rewrite Hx, Hy; nra |].
  split; [rewrite Hx; lra |]. split; [rewrite Hy; lra |].
  split; [exact Hinc |]. split; [exact Hs |].
  unfold has_velocity. cbn. split; congruence.
Qed.

(** X19. With a namer that only names, a generated actor heads into the
    circle: after [t] seconds its squared distance to the centre is 200^2
    - 400 (t v) sin d + (t v)^2, with v = [meanSpeed] and d its direction
    difference; so while 0 <= t v <= 400 sin d it stays within the circle
    and within the square [-200, 200] x [-200, 200]. *)
Theorem generateActors_heads_inward (actorCount : nat)
    (actors : list Actor.t) (i : nat) (a : Actor.t) (t : R) :
  names_only namer ->
  GenerateActors actorCount = Some actors ->
  nth_error actors i = Some a ->
  exists a',
    Actor.updatePosition t a = Some (tt, a')
    /\ Actor.x a' * Actor.x a' + Actor.y a' * Actor.y a'
       = 200 * 200
         - 400 * (t * meanSpeed) * sin (directionAngleDiffs i)
         + (t * meanSpeed) * (t * meanSpeed)
    /\ (0 <= t * meanSpeed <= 400 * sin (directionAngleDiffs i) ->
        -200 <= Actor.x a' <= 200 /\ -200 <= Actor.y a' <= 200).
Proof.
  intros Hname H Ha. apply generateActors_nth in H. destruct H as (_ & Hnth).
  destruct (Hnth i a Ha) as (b & Hb & Hn).
  destruct (buildActor_fields i (i * Draws))
    as (b' & Hb' & _ & Hx & Hy & Hang & _ & Hxc & Hyc & _).
  rewrite Hb in Hb'. injection Hb' as <-.
  destruct (Hname b tt a Hn) as (m & ->).
  unfold Actor.updatePosition. cbn. rewrite Hxc, Hyc.
  eexists. split; [reflexivity |]. cbn.
  rewrite Hx, Hy, Hang.
  set (f := facePositionAngles i). set (d := directionAngleDiffs i).
  set (h := f + 1.5 * PI - d).
  assert (Hcos : sin f * sin h + cos f * cos h = - sin d).
  { rewrite <- cos_three_halves_pi_minus.
    replace (1.5 * PI - d) with (h - f) by (unfold h; lra).
    rewrite cos_minus. ring. }
  pose proof (sin2_cos2 f) as Sf. pose proof (sin2_cos2 h) as Sh.
  unfold Rsqr in Sf, Sh.
  set (u := t * meanSpeed).
  assert (Hsq : (200 * sin f + sin h * meanSpeed * t)
                * (200 * sin f + sin h * meanSpeed * t)
                + (200 * cos f + cos h * meanSpeed * t)
                  * (200 * cos f + cos h * meanSpeed * t)
                = 200 * 200 - 400 * u * sin d + u * u).
  { replace ((200 * sin f + sin h * meanSpeed * t)
             * (200 * sin f + sin h * meanSpeed * t)
             + (200 * cos f + cos h * meanSpeed * t)
               * (200 * cos f + cos h * meanSpeed * t))
      with (200 * 200 * (sin f * sin f + cos f * cos f)
            + 400 * u * (sin f * sin h + cos f * cos h)
            + u * u * (sin h * sin h + cos h * cos h))
      by (unfold u; ring).
    rewrite Sf, Sh, Hcos. ring. }
  split; [exact Hsq |].
  intros Hu.
  set (X := 200 * sin f + sin h * meanSpeed * t) in *.
  set (Y := 200 * cos f + cos h * meanSpeed * t) in *.
  assert (Hle : X * X + Y * Y <= 200 * 200).
  { rewrite Hsq. nra. }
  split; split; nra.
Qed.

(** X20. With the gaussian method and a namer that only names, the
    transmitter power of the actor of index [i] is the draw numbered [i *
    draws], clamped at zero and rounded down: a non-negative integer, no
    greater than the clamped draw and less than one below it. *)
Theorem generateActors_gaussian_power (actorCount : nat)
    (actors : list Actor.t) (i : nat) (a : Actor.t) :
  names_only namer ->
  txPowerMethod = "gaussian"%string ->
  GenerateActors actorCount = Some actors ->
  nth_error actors i = Some a ->
  let sample := Rmax 0 (rng_normal (i * Draws)%nat meanTxPower 4) in
  exists z : Z,
    Actor.powerTx a = IZR z
    /\ (0 <= z)%Z
    /\ IZR z <= sample < IZR z + 1.
Proof.
  intros Hname Hm H Ha sample.
  apply generateActors_nth in H. destruct H as (_ & Hnth).
  destruct (Hnth i a Ha) as (b & Hb & Hn).
  pose proof (buildActor_powerTx _ _ _ _ Hb _ eq_refl) as Hp.
  fold sample in Hp.
  replace (txPowerMethod =? "gaussian")%string with true in Hp
    by (rewrite Hm; reflexivity).
  destruct (Hname b tt a Hn) as (m & ->). cbn.
  exists (Zfloor sample). split; [exact Hp |].
  pose proof (Zfloor_bound sample) as Hb1.
  assert (H0 : 0 <= sample) by apply Rmax_l.
  split.
  - apply Zfloor_lub. exact H0.
  - lra.
Qed.

End Generated.

(** ** The driving loop *)

Lemma for_each_Some_In {A S : Type} (P : S -> Prop) (l : list A)
    (body : A -> S -> option S) :
  (forall a s s', P s -> body a s = Some s' -> P s') ->
  forall s s', P s -> for_each l body s = Some s' ->
               forall a, In a l -> exists s1 s2, P s1 /\ body a s1 = Some s2.
Proof.
  intros Hinv.
  induction l as [| b l IH]; intros s s' Hs H a Hin; [destruct Hin |].
  rewrite for_each_cons in H.
  destruct (body b s) as [s1 |] eqn:E; [| discriminate].
  destruct Hin as [-> | Hin].
  - exists s, s1. split; assumption.
  - exact (IH s1 s' (Hinv b s s1 Hs E) H a Hin).
Qed.

Lemma firstn_plus {A : Type} (a b : nat) :
  forall l : list A,
    firstn (a + b) l = firstn a l ++ firstn b (skipn a l).
Proof.
  induction a as [| a IH]; intros l; [reflexivity |].
  destruct l as [| x l]; cbn.
  - rewrite firstn_nil. reflexivity.
  - rewrite IH. reflexivity.
Qed.

Lemma addActor_all (l : list loc) :
  forall s : Simulation.t,
    for_each l (fun newActor s => Some (Simulation.addActor newActor s)) s
    = Some (Simulation.set_actors s (Simulation.actors s ++ l)).
Proof.
  induction l as [| a l IH]; intros s.
  - cbn. rewrite app_nil_r. destruct s; reflexivity.
  - rewrite for_each_cons, IH. unfold Simulation.addActor.
    destruct s; cbn. rewrite <- app_assoc. reflexivity.
Qed.

Lemma begins_with_add (extraActors : extras) (s : Simulation.t)
    (l added : list loc) :
  begins_with extraActors s l ->
  begins_with extraActors
    (Simulation.set_actors s (Simulation.actors s ++ added)) l.
Proof.
  intros [tail H]. destruct extraActors as [own |]; cbn in *.
  - exists tail. exact H.
  - exists (tail ++ added). rewrite H, app_assoc. reflexivity.
Qed.

Lemma begins_with_detach (extraActors : extras) (s s' : Simulation.t)
    (l : list loc) :
  begins_with extraActors s l -> begins_with (detach extraActors s) s' l.
Proof. intros [tail H]. exists tail. exact H. Qed.

(** The additions of one iteration, while the indexed entries are within
    what [extraActors] held when the loop began. *)
Lemma addExtras_indices (extraActors : extras) (l : list loc)
    (offset n : nat) :
  forall (first : nat) (s : Simulation.t),
    begins_with extraActors s l ->
    (offset + first + n <= List.length l)%nat ->
    for_each (seq first n)
      (fun newActorI '(s, extraActors) =>
         match nth_error (contents extraActors s) (offset + newActorI) with
         | None => None
         | Some newActor => Some (Simulation.addActor newActor s, extraActors)
         end) (s, extraActors)
    = Some (Simulation.set_actors s
              (Simulation.actors s
               ++ firstn n (skipn (offset + first) l)),
            extraActors).
Proof.
  induction n as [| n IH]; intros first s Hb Hlen.
  - cbn. rewrite app_nil_r. destruct s; reflexivity.
  - cbn [seq]. rewrite for_each_cons.
    pose proof Hb as [tail Hc]. rewrite Hc.
    rewrite nth_error_app1 by lia.
    destruct (nth_error l (offset + first)) as [a |] eqn:Ea.
    + pose proof (nth_error_split _ _ Ea) as (l1 & l2 & Hl & Hl1).
      assert (Hs : skipn (offset + first) l = a :: l2).
      { rewrite Hl, <- Hl1, skipn_app, skipn_all, Nat.sub_diag. reflexivity. }
      assert (Hs' : skipn (offset + S first) l = l2).
      { replace (offset + S first)%nat with (S (offset + first)) by lia.
        rewrite Hl, <- Hl1, skipn_app, skipn_all2 by lia.
        replace (S (List.length l1) - List.length l1)%nat with 1%nat by lia.
        reflexivity. }
      rewrite Hs. cbn [firstn]. unfold Simulation.addActor.
      rewrite IH; [| apply begins_with_add; exact Hb | lia].
      rewrite Hs'. destruct s; cbn. rewrite <- app_assoc. reflexivity.
    + apply nth_error_None in Ea. lia.
Qed.

Lemma addExtras_eq (newActorsPerTimeStep : nat) (extraActors : extras)
    (l : list loc) (i : nat) (s : Simulation.t) :
  begins_with extraActors s l ->
  ((i + 1) * newActorsPerTimeStep <= List.length l)%nat ->
  addExtras newActorsPerTimeStep i (s, extraActors)
  = Some (Simulation.set_actors s
            (Simulation.actors s
             ++ firstn newActorsPerTimeStep
                  (skipn (i * newActorsPerTimeStep) l)),
          extraActors).
Proof.
  intros Hb Hlen. unfold addExtras.
  rewrite (addExtras_indices extraActors l (i * newActorsPerTimeStep)
             newActorsPerTimeStep 0 s Hb) by lia.
  rewrite Nat.add_0_r. reflexivity.
Qed.

(** The additions leave the list object [extraActors] the one it is. *)
Lemma addExtras_same (newActorsPerTimeStep i : nat)
    (st st' : Simulation.t * extras) :
  addExtras newActorsPerTimeStep i st = Some st' -> snd st' = snd st.
Proof.
  unfold addExtras.
  apply (for_each_rel (fun a b : Simulation.t * extras => snd b = snd a)).
  - reflexivity.
  - intros s1 s2 s3 H12 H23. congruence.
  - intros j [s ex] [s1 ex1] _ _. cbn.
    destruct (nth_error _ _); [| discriminate].
    intros H. injection H as _ <-. reflexivity.
Qed.

Lemma addExtras_shared_loop (newActorsPerTimeStep n : nat) :
  forall (first : nat) (s : Simulation.t),
    (first < List.length (Simulation.actors s))%nat ->
    exists s',
      for_each (seq first n)
        (fun newActorI '(s, extraActors) =>
           match nth_error (contents extraActors s)
                           (0 * newActorsPerTimeStep + newActorI) with
           | None => None
           | Some newActor =>
               Some (Simulation.addActor newActor s, extraActors)
           end) (s, Shared)
      = Some (s', Shared)
      /\ List.length (Simulation.actors s')
         = (List.length (Simulation.actors s) + n)%nat.
Proof.
  induction n as [| n IH]; intros first s Hlt.
  - exists s. split; [reflexivity | lia].
  - cbn [seq]. rewrite for_each_cons. cbn [contents Nat.mul Nat.add].
    destruct (nth_error (Simulation.actors s) first) as [a |] eqn:Ea.
    + destruct (IH (S first) (Simulation.addActor a s)) as (s' & E & Hlen).
      { cbn. rewrite length_app. cbn. lia. }
      exists s'. split; [exact E |].
      rewrite Hlen. cbn. rewrite length_app. cbn. lia.
    + apply nth_error_None in Ea. lia.
Qed.

(** On the list the simulation was constructed on, when it is not empty,
    the additions of the first iteration never index past the end,
    however many they are: the list grows as they are made. *)
Lemma addExtras_shared (newActorsPerTimeStep : nat) (s : Simulation.t) :
  Simulation.actors s <> [] ->
  exists s',
    addExtras newActorsPerTimeStep 0 (s, Shared) = Some (s', Shared)
    /\ List.length (Simulation.actors s')
       = (List.length (Simulation.actors s) + newActorsPerTimeStep)%nat.
Proof.
  intros Hne. unfold addExtras.
  apply (addExtras_shared_loop newActorsPerTimeStep newActorsPerTimeStep 0 s).
  destruct (Simulation.actors s); [contradiction | cbn; lia].
Qed.

Lemma move_loop_subset (secondsElapsed : R) (ls : list loc) :
  forall (s s' : Simulation.t) (rem rem' : list loc),
    for_each ls (Simulation.move secondsElapsed) (s, rem) = Some (s', rem') ->
    forall k, In k rem' -> In k rem \/ In k ls.
Proof.
  induction ls as [| l ls IH]; intros s s' rem rem' H k Hk.
  - injection H as _ <-. left. exact Hk.
  - rewrite for_each_cons in H.
    destruct (Simulation.move secondsElapsed l (s, rem)) as [[s1 rem1] |] eqn:E;
      [| discriminate].
    destruct (IH s1 s' rem1 rem' H k Hk) as [Hin | Hin].
    + apply move_remaining in E. destruct E as [-> | ->].
      * left. exact Hin.
      * apply in_app_or in Hin. destruct Hin as [Hin | [<- | []]].
        -- left. exact Hin.
        -- right. left. reflexivity.
    + right. right. exact Hin.
Qed.

Section Driving.

Variable random_random : nat -> R.
Variable norm_cdf : R -> R -> R -> R.
Variable norm_rvs : nat -> R -> R -> R.

Local Abbreviation step := (Simulation.step random_random norm_cdf norm_rvs).
Local Abbreviation exec := (Simulation.exec random_random norm_cdf norm_rvs).
Local Abbreviation run := (Simulation.run random_random norm_cdf norm_rvs).
Local Abbreviation pairwisePass :=
  (Simulation.pairwisePass random_random norm_cdf norm_rvs).
Local Abbreviation Drive := (drive random_random norm_cdf norm_rvs).

(** The body of the driving loop. *)
Local Abbreviation iteration newActorsPerTimeStep stepSizeSeconds :=
  (fun (i : nat) (st : Simulation.t * extras) =>
     match addExtras newActorsPerTimeStep i st with
     | None => None
     | Some (s, extraActors) =>
         match step stepSizeSeconds s with
         | None => None
         | Some s' => Some (s', detach extraActors s)
         end
     end).

(** A tick keeps what lets the next one return, and brings no actor
    into the live collection. *)
Lemma step_keeps (secondsElapsed : R) (s s' : Simulation.t) :
  (forall k, has_velocity (Simulation.heap s k)) ->
  step secondsElapsed s = Some s' ->
  (forall k, has_velocity (Simulation.heap s' k))
  /\ Simulation.wavelength s' = Simulation.wavelength s
  /\ (rvs_returns s -> rvs_returns s')
  /\ Simulation.time s' = Simulation.time s + secondsElapsed
  /\ (forall k, In k (Simulation.actors s') -> In k (Simulation.actors s)).
Proof.
  intros Hv Hstep.
  pose proof (step_frames _ _ _ _ _ _ Hstep) as (_ & _ & _ & Ht & Hc & _).
  apply step_passes in Hstep. destruct Hstep as (s1 & rem & Hmove & Hpair).
  apply pairwisePass_frame in Hpair. destruct Hpair as (Hh & Ha & _).
  split; [| split; [apply config_wavelength; exact Hc
                   | split; [apply config_rvs_returns; exact Hc
                            | split; [exact Ht |]]]].
  - destruct (for_each_defined
                (fun st : Simulation.t * list loc =>
                   forall k, has_velocity (Simulation.heap (fst st) k))
                (Simulation.actors s)
                (Simulation.move secondsElapsed))
      with (s := (Simulation.set_time s (Simulation.time s + secondsElapsed),
                  @nil loc))
      as [[s2 rem2] [E Hv2]].
    + intros l [s0 rem0] _ H. cbn in H.
      destruct (move_defined secondsElapsed l s0 rem0 H) as [s3 [rem3 [E Hv3]]].
      exists (s3, rem3). split; assumption.
    + exact Hv.
    + rewrite Hmove in E. injection E as <- <-.
      intros k. rewrite Hh. apply Hv2.
  - intros k Hk. rewrite Ha in Hk. cbn in Hk.
    destruct (move_loop_subset _ _ _ _ _ _ Hmove k Hk) as [[] | Hin].
    exact Hin.
Qed.

(** One iteration, while the indexed entries are within what
    [extraActors] held when the loop began. *)
Lemma iteration_eq (newActorsPerTimeStep : nat) (stepSizeSeconds : R)
    (extraActors : extras) (l : list loc) (i : nat) (s : Simulation.t) :
  begins_with extraActors s l ->
  ((i + 1) * newActorsPerTimeStep <= List.length l)%nat ->
  let added :=
    Simulation.set_actors s
      (Simulation.actors s
       ++ firstn newActorsPerTimeStep
            (skipn (i * newActorsPerTimeStep) l)) in
  iteration newActorsPerTimeStep stepSizeSeconds i (s, extraActors)
  = match step stepSizeSeconds added with
    | None => None
    | Some s' => Some (s', detach extraActors added)
    end.
Proof.
  intros Hb Hlen added. cbv beta.
  rewrite (addExtras_eq newActorsPerTimeStep extraActors l i s Hb Hlen).
  reflexivity.
Qed.

Lemma drive_loop_run (newActorsPerTimeStep : nat) (stepSizeSeconds : R)
    (l : list loc) (n : nat) :
  forall (first : nat) (s : Simulation.t) (extraActors : extras),
    begins_with extraActors s l ->
    ((first + n) * newActorsPerTimeStep <= List.length l)%nat ->
    option_map fst
      (for_each (seq first n)
         (iteration newActorsPerTimeStep stepSizeSeconds) (s, extraActors))
    = for_each
        (flat_map
           (fun i =>
              map Simulation.AddActor
                  (firstn newActorsPerTimeStep
                          (skipn (i * newActorsPerTimeStep) l))
              ++ [Simulation.Step stepSizeSeconds])
           (seq first n))
        exec s.
Proof.
  induction n as [| n IH]; intros first s extraActors Hb Hlen;
    [reflexivity |].
  cbn [seq flat_map]. rewrite for_each_cons.
  rewrite (iteration_eq newActorsPerTimeStep stepSizeSeconds extraActors l
             first s Hb) by nia.
  cbv zeta.
  rewrite !for_each_app, for_each_map.
  change (fun b : loc => exec (Simulation.AddActor b))
    with (fun (newActor : loc) (s : Simulation.t) =>
            Some (Simulation.addActor newActor s)).
  rewrite addActor_all. rewrite for_each_cons. cbn [Simulation.exec for_each].
  destruct (step stepSizeSeconds _) as [s1 |]; [| reflexivity].
  apply IH; [| nia].
  apply begins_with_detach, begins_with_add. exact Hb.
Qed.

Lemma drive_loop (newActorsPerTimeStep : nat) (stepSizeSeconds : R)
    (l : list loc) (n : nat) :
  forall (first : nat) (s : Simulation.t) (extraActors : extras),
    begins_with extraActors s l ->
    (forall k, has_velocity (Simulation.heap s k)) ->
    0 < Simulation.wavelength s ->
    rvs_returns s ->
    ((first + n) * newActorsPerTimeStep <= List.length l)%nat ->
    exists s' extraActors',
      for_each (seq first n)
        (iteration newActorsPerTimeStep stepSizeSeconds) (s, extraActors)
      = Some (s', extraActors')
      /\ Simulation.time s' = Simulation.time s + INR n * stepSizeSeconds
      /\ (forall k, In k (Simulation.actors s') ->
            In k (Simulation.actors s)
            \/ In k (firstn (n * newActorsPerTimeStep)
                       (skipn (first * newActorsPerTimeStep) l))).
Proof.
  induction n as [| n IH]; intros first s extraActors Hb Hv Hw Hr Hlen.
  - exists s, extraActors. split; [reflexivity |]. split; [cbn; lra |].
    intros k Hk. left. exact Hk.
  - cbn [seq]. rewrite for_each_cons.
    rewrite (iteration_eq newActorsPerTimeStep stepSizeSeconds extraActors l
               first s Hb) by nia.
    cbv zeta.
    set (sa := Simulation.set_actors s _).
    destruct (step_defined random_random norm_cdf norm_rvs stepSizeSeconds sa)
      as [s1 E]; [exact Hv | exact Hw | exact Hr |].
    rewrite E.
    destruct (step_keeps stepSizeSeconds sa s1 Hv E)
      as (Hv1 & Hw1 & Hr1 & Ht1 & Ha1).
    destruct (IH (S first) s1 (detach extraActors sa)) as (s' & ex' & Hrun & Ht & Ha);
      [apply begins_with_detach, begins_with_add; exact Hb
      | exact Hv1 | rewrite Hw1; exact Hw | apply Hr1; exact Hr | nia |].
    exists s', ex'. split; [exact Hrun |]. split.
    + rewrite Ht, Ht1, S_INR. cbn. lra.
    + intros k Hk.
      set (per := newActorsPerTimeStep) in *.
      assert (Hsplit : firstn (S n * per) (skipn (first * per) l)
                       = firstn per (skipn (first * per) l)
                         ++ firstn (n * per) (skipn (S first * per) l)).
      { replace (S n * per)%nat with (per + n * per)%nat by lia.
        rewrite firstn_plus, skipn_skipn.
        replace (per + first * per)%nat with (S first * per)%nat by lia.
        reflexivity. }
      rewrite Hsplit.
      destruct (Ha k Hk) as [Hin | Hin].
      * apply Ha1 in Hin. unfold sa in Hin. cbn in Hin.
        apply in_app_or in Hin. destruct Hin as [Hin | Hin].
        -- left. exact Hin.
        -- right. apply in_or_app. left. exact Hin.
      * right. apply in_or_app. right. exact Hin.
Qed.

Lemma contents_begins_with (extraActors : extras) (s : Simulation.t) :
  begins_with extraActors s (contents extraActors s).
Proof. exists []. symmetry. apply app_nil_r. Qed.

(** X21. When the list [extraActors] holds, as the loop begins, at least
    [newActorsPerTimeStep * maxSteps] actors, the driving loop is the run
    of its calls in order: for each iteration the additions of the next
    [newActorsPerTimeStep] of these actors, then one tick.  This is so
    whether [extraActors] is a list of its own or the list the simulation
    was constructed on. *)
Theorem drive_is_run (maxSteps newActorsPerTimeStep : nat)
    (stepSizeSeconds : R) (extraActors : extras) (s : Simulation.t) :
  (newActorsPerTimeStep * maxSteps
   <= List.length (contents extraActors s))%nat ->
  Drive maxSteps newActorsPerTimeStep stepSizeSeconds extraActors s
  = run (driven maxSteps newActorsPerTimeStep stepSizeSeconds
           (contents extraActors s)) s.
Proof.
  intros Hlen. unfold drive, Simulation.run, driven.
  apply drive_loop_run; [apply contents_begins_with | lia].
Qed.

(** X22. When [extraActors] is a list of its own, not the list the
    simulation was constructed on, and holds fewer than
    [newActorsPerTimeStep * maxSteps] actors, the driving loop raises,
    whatever the simulation is. *)
Theorem drive_index_error (maxSteps newActorsPerTimeStep : nat)
    (stepSizeSeconds : R) (extraActors : list loc) (s : Simulation.t) :
  (List.length extraActors < newActorsPerTimeStep * maxSteps)%nat ->
  Drive maxSteps newActorsPerTimeStep stepSizeSeconds (Own extraActors) s
  = None.
Proof.
  intros Hlen.
  destruct (Drive maxSteps newActorsPerTimeStep stepSizeSeconds
              (Own extraActors) s) as [s' |] eqn:E; [| reflexivity].
  exfalso. unfold drive in E.
  destruct (for_each _ _ _) as [st' |] eqn:Eloop; [| discriminate].
  clear E.
  destruct maxSteps as [| m]; [lia |].
  destruct newActorsPerTimeStep as [| p]; [lia |].
  set (own := fun st : Simulation.t * extras => snd st = Own extraActors).
  assert (Houter : forall i st0 st3,
             own st0 ->
             iteration (S p) stepSizeSeconds i st0 = Some st3 -> own st3).
  { intros i st0 st3 H0 H. cbv beta in H.
    destruct (addExtras (S p) i st0) as [[s3 ex3] |] eqn:Ea; [| discriminate].
    apply addExtras_same in Ea. cbn in Ea.
    destruct (step stepSizeSeconds s3); [| discriminate].
    injection H as <-. unfold own in *. cbn. rewrite Ea, H0. reflexivity. }
  destruct (for_each_Some_In own (seq 0 (S m))
              (iteration (S p) stepSizeSeconds) Houter
              (s, Own extraActors) st' eq_refl Eloop m)
    as (st1 & st2 & Hown1 & Hbody); [apply in_seq; lia |].
  cbv beta in Hbody.
  destruct (addExtras (S p) m st1) as [st3 |] eqn:Ea; [| discriminate].
  unfold addExtras in Ea.
  match type of Ea with
  | for_each _ ?body _ = _ =>
      assert (Hinner : forall j st0 st6,
                 own st0 -> body j st0 = Some st6 -> own st6)
  end.
  { intros j [s0 ex0] st6 H0 H.
    destruct (nth_error _ _); [| discriminate].
    injection H as <-. exact H0. }
  destruct (for_each_Some_In own _ _ Hinner st1 st3 Hown1 Ea p)
    as ([s4 ex4] & st5 & Hown4 & Hadd); [apply in_seq; lia |].
  unfold own in Hown4. cbn in Hown4. subst ex4. cbn [contents] in Hadd.
  destruct (nth_error extraActors (m * S p + p)) as [a |] eqn:En;
    [| discriminate].
  assert (Hlt : (m * S p + p < List.length extraActors)%nat).
  { apply nth_error_Some. congruence. }
  nia.
Qed.

(** X23. When every actor object has a velocity, the wavelength is
    positive, meetings are disabled or the deviation of their duration is
    not negative, and the list [extraActors] holds, as the loop begins,
    at least [newActorsPerTimeStep * maxSteps] actors, the driving loop
    returns; the clock has then advanced by [maxSteps] times the step
    size, and the live collection holds none but actors of the initial
    collection and the first [newActorsPerTimeStep * maxSteps] of
    [extraActors]. *)
Theorem drive_returns (maxSteps newActorsPerTimeStep : nat)
    (stepSizeSeconds : R) (extraActors : extras) (s : Simulation.t) :
  (forall k, has_velocity (Simulation.heap s k)) ->
  0 < Simulation.wavelength s ->
  rvs_returns s ->
  (newActorsPerTimeStep * maxSteps
   <= List.length (contents extraActors s))%nat ->
  exists s',
    Drive maxSteps newActorsPerTimeStep stepSizeSeconds extraActors s
    = Some s'
    /\ Simulation.time s'
       = Simulation.time s + INR maxSteps * stepSizeSeconds
    /\ (forall k, In k (Simulation.actors s') ->
          In k (Simulation.actors s)
          \/ In k (firstn (newActorsPerTimeStep * maxSteps)
                     (contents extraActors s))).
Proof.
  intros Hv Hw Hr Hlen.
  destruct (drive_loop newActorsPerTimeStep stepSizeSeconds
              (contents extraActors s) maxSteps 0 s extraActors
              (contents_begins_with extraActors s) Hv Hw Hr)
    as (s' & ex' & E & Ht & Ha); [lia |].
  exists s'. split; [unfold drive; rewrite E; reflexivity |].
  split; [exact Ht |].
  intros k Hk. destruct (Ha k Hk) as [Hin | Hin]; [left; exact Hin |].
  right. cbn in Hin.
  replace (newActorsPerTimeStep * maxSteps)%nat
    with (maxSteps * newActorsPerTimeStep)%nat by lia.
  exact Hin.
Qed.

End Driving.

(** ** The radio parameters and the device models of generated actors *)

Section Radio.

Variable facePositionAngles : nat -> R.
Variable directionAngleDiffs : nat -> R.
Variable rng_normal : nat -> R -> R -> R.
Variable meanSpeed : R.
Variable txPowerMethod : string.
Variable meanTxPower : R.
Variable txGainMethod : string.
Variable meanTxGain : R.
Variable rxSensitivityMethod : string.
Variable meanRxSensitivity : R.
Variable namer : Actor.method unit.

Local Abbreviation BuildActor :=
  (buildActor facePositionAngles directionAngleDiffs rng_normal meanSpeed
     txPowerMethod meanTxPower txGainMethod meanTxGain
     rxSensitivityMethod meanRxSensitivity).
Local Abbreviation GenerateActors :=
  (generateActors facePositionAngles directionAngleDiffs rng_normal meanSpeed
     txPowerMethod meanTxPower txGainMethod meanTxGain
     rxSensitivityMethod meanRxSensitivity namer).
Local Abbreviation Draws :=
  (draws txPowerMethod txGainMethod rxSensitivityMethod).

Lemma clamp_Rmax (v : R) : (if Rltb v 0 then 0 else v) = Rmax 0 v.
Proof.
  destruct (Rltb v 0) eqn:E.
  - apply Rltb_spec in E. rewrite Rmax_left; lra.
  - apply Rltb_nspec in E. rewrite Rmax_right; lra.
Qed.

Lemma buildActor_radio (i calls : nat) (a : Actor.t) (calls' : nat) :
  BuildActor i calls = Some (a, calls') ->
  Actor.powerTx a
  = (if (txPowerMethod =? "gaussian")%string
     then IZR (Zfloor (Rmax 0 (rng_normal calls meanTxPower 4)))
     else meanTxPower)
  /\ Actor.gainTx a
     = (if (txGainMethod =? "gaussian")%string
        then IZR (Zfloor
                    (Rmax 0 (rng_normal (calls + drawn txPowerMethod)
                               meanTxGain 2) * 2)) / 2
        else meanTxGain)
  /\ Actor.gainRx a
     = (if (rxSensitivityMethod =? "gaussian")%string
        then IZR (Zfloor
                    (Rmax 0 (rng_normal (calls + drawn txPowerMethod
                                         + drawn txGainMethod)
                               meanRxSensitivity 2) * 2)) / 2
        else meanRxSensitivity)
  /\ Actor.deviceModel a = "model001"%string.
Proof.
  unfold buildActor, drawn.
  destruct (txPowerMethod =? "gaussian")%string;
    destruct (txGainMethod =? "gaussian")%string;
    destruct (rxSensitivityMethod =? "gaussian")%string;
    cbn; intros H; injection H as <- _; cbn;
    rewrite ?clamp_Rmax, ?Nat.add_0_r, ?Nat.add_1_r;
    repeat split; reflexivity.
Qed.

Lemma half_floor (v : R) :
  0 <= v ->
  exists z : Z,
    IZR (Zfloor (v * 2)) / 2 = IZR z / 2
    /\ (0 <= z)%Z
    /\ IZR z / 2 <= v < IZR z / 2 + 0.5.
Proof.
  intros Hv. exists (Zfloor (v * 2)).
  pose proof (Zfloor_bound (v * 2)) as Hb.
  split; [reflexivity |]. split; [apply Zfloor_lub; cbn; lra | lra].
Qed.

(** X24. With a namer that only names: a gain selected by the gaussian
    method is its draw, clamped at zero and rounded down to a multiple of
    0.5 (the transmitter gain takes the draw after that of the power, the
    receiver sensitivity the one after); a parameter selected by any
    other method is the mean given, unchanged. *)
Theorem generateActors_gains (actorCount : nat) (actors : list Actor.t)
    (i : nat) (a : Actor.t) :
  names_only namer ->
  GenerateActors actorCount = Some actors ->
  nth_error actors i = Some a ->
  let first := (i * Draws)%nat in
  (txGainMethod = "gaussian"%string ->
   exists z : Z,
     Actor.gainTx a = IZR z / 2
     /\ (0 <= z)%Z
     /\ IZR z / 2
        <= Rmax 0 (rng_normal (first + drawn txPowerMethod) meanTxGain 2)
        < IZR z / 2 + 0.5)
  /\ (rxSensitivityMethod = "gaussian"%string ->
      exists z : Z,
        Actor.gainRx a = IZR z / 2
        /\ (0 <= z)%Z
        /\ IZR z / 2
           <= Rmax 0 (rng_normal (first + drawn txPowerMethod
                                  + drawn txGainMethod)
                        meanRxSensitivity 2)
           < IZR z / 2 + 0.5)
  /\ (txPowerMethod <> "gaussian"%string -> Actor.powerTx a = meanTxPower)
  /\ (txGainMethod <> "gaussian"%string -> Actor.gainTx a = meanTxGain)
  /\ (rxSensitivityMethod <> "gaussian"%string ->
      Actor.gainRx a = meanRxSensitivity).
Proof.
  intros Hname H Ha first.
  apply generateActors_nth in H. destruct H as (_ & Hnth).
  destruct (Hnth i a Ha) as (b & Hb & Hn).
  destruct (buildActor_radio _ _ _ _ Hb) as (Hp & Hg & Hr & _).
  destruct (Hname b tt a Hn) as (m & ->). cbn. fold first in Hg, Hr.
  split; [| split; [| split; [| split]]].
  - intros Hm. apply String.eqb_eq in Hm. rewrite Hm in Hg. rewrite Hg.
    apply half_floor, Rmax_l.
  - intros Hm. apply String.eqb_eq in Hm. rewrite Hm in Hr. rewrite Hr.
    apply half_floor, Rmax_l.
  - intros Hm. apply String.eqb_neq in Hm. rewrite Hm in Hp. exact Hp.
  - intros Hm. apply String.eqb_neq in Hm. rewrite Hm in Hg. exact Hg.
  - intros Hm. apply String.eqb_neq in Hm. rewrite Hm in Hr. exact Hr.
Qed.

(** X25. The list that [generateActors] returns with [txPowerNamer],
    its default namer, has every actor's device model set from the
    actor's own transmitter power: ["model"] followed by the power in the
    format [03d]. *)
Theorem generateActors_txPowerNamer_models
    (format_03d : R -> option string) (actorCount : nat)
    (actors : list Actor.t) (i : nat) (a : Actor.t) :
  generateActors facePositionAngles directionAngleDiffs rng_normal meanSpeed
    txPowerMethod meanTxPower txGainMethod meanTxGain
    rxSensitivityMethod meanRxSensitivity (txPowerNamer format_03d)
    actorCount = Some actors ->
  nth_error actors i = Some a ->
  exists digits,
    format_03d (Actor.powerTx a) = Some digits
    /\ Actor.deviceModel a = ("model" ++ digits)%string.
Proof.
  intros H Ha. apply generateActors_nth in H. destruct H as (_ & Hnth).
  destruct (Hnth i a Ha) as (b & _ & Hn).
  unfold txPowerNamer in Hn.
  destruct (format_03d (Actor.powerTx b)) as [digits |] eqn:Ef;
    [| discriminate].
  injection Hn as <-. exists digits. split; [exact Ef | reflexivity].
Qed.

(** X26. In the setting of the scenario [higherSensitivity], a receiver
    sensitivity that is not gaussian and [rxGainNamer] as the namer,
    all the generated actors have one device model: ["modelGainRx"]
    followed by the mean sensitivity in the format [03d]. *)
Theorem generateActors_rxGainNamer_one_model
    (format_03d : R -> option string) (actorCount : nat)
    (actors : list Actor.t) (i : nat) (a : Actor.t) :
  rxSensitivityMethod <> "gaussian"%string ->
  generateActors facePositionAngles directionAngleDiffs rng_normal meanSpeed
    txPowerMethod meanTxPower txGainMethod meanTxGain
    rxSensitivityMethod meanRxSensitivity (rxGainNamer format_03d)
    actorCount = Some actors ->
  nth_error actors i = Some a ->
  exists digits,
    format_03d meanRxSensitivity = Some digits
    /\ Actor.deviceModel a = ("modelGainRx" ++ digits)%string.
Proof.
  intros Hm H Ha. apply generateActors_nth in H. destruct H as (_ & Hnth).
  destruct (Hnth i a Ha) as (b & Hb & Hn).
  destruct (buildActor_radio _ _ _ _ Hb) as (_ & _ & Hr & _).
  apply String.eqb_neq in Hm. rewrite Hm in Hr.
  unfold rxGainNamer in Hn. rewrite Hr in Hn.
  destruct (format_03d meanRxSensitivity) as [digits |] eqn:Ef;
    [| discriminate].
  injection Hn as <-. exists digits. split; reflexivity.
Qed.

End Radio.

(** ** The further properties at the scenarios *)

Lemma step_readings_exact_witness :
  exists s1,
    Simulation.step coin cdf_near rvs_mean 1 quiet_sim = Some s1
    /\ Simulation.readings s1
       = Simulation.readings quiet_sim
         ++ map (fun p => reading_of s1 (fst p) (snd p))
              (filter (fun p => in_rangeb s1 (fst p) (snd p))
                 (list_prod (Simulation.actors s1) (Simulation.actors s1))).
Proof.
  destruct (step_defined coin cdf_near rvs_mean 1 quiet_sim) as [s1 E].
  - exact pair_heap_velocity.
  - cbn. lra.
  - right. cbn. lra.
  - exists s1. split; [exact E |].
    exact (step_readings_exact coin cdf_near rvs_mean 1 quiet_sim s1 E).
Defined.

Lemma step_meetings_met_witness :
  exists s1 ms,
    Simulation.step coin cdf_near rvs_mean 1 meeting_sim = Some s1
    /\ Simulation.meetings s1 = Simulation.meetings meeting_sim ++ ms
    /\ forall m, In m ms -> met s1 m.
Proof.
  destruct meeting_step as [s1 [E _]].
  destruct (step_meetings_met coin cdf_near rvs_mean 1 meeting_sim s1 E)
    as [ms [Hm Hall]].
  exists s1, ms. split; [exact E |]. split; [exact Hm | exact Hall].
Defined.

Lemma meetings_well_formed_witness :
  exists s,
    reachable coin cdf_near rvs_mean s
    /\ Simulation.meetings s = [Meeting.mk (0 + 1) 301 [1%Z; 2%Z]]
    /\ Forall well_formed (Simulation.meetings s).
Proof.
  destruct meeting_step as [s1 [E Hm]].
  assert (Hr : reachable coin cdf_near rvs_mean s1).
  { apply (reachable_exec coin cdf_near rvs_mean meeting_sim
             (Simulation.Step 1) s1); [| exact E].
    exact (reachable_init coin cdf_near rvs_mean _ _ _ _ _ _ _ _ _ _ _ _ _ _ _
             meeting_sim_init). }
  exists s1. split; [exact Hr |]. split; [exact Hm |].
  exact (meetings_well_formed coin cdf_near rvs_mean s1 Hr).
Defined.

Lemma meetings_disabled_witness :
  Simulation.meetingDurationMean quiet_sim <= 0
  /\ exists s2,
       Simulation.run coin cdf_near rvs_mean
         [Simulation.Step 1; Simulation.Step 1] quiet_sim = Some s2
       /\ Simulation.meetings s2 = []
       /\ Simulation.randomCalls s2 = 0%nat
       /\ Simulation.rvsCalls s2 = 0%nat.
Proof.
  assert (H0 : Simulation.meetingDurationMean quiet_sim <= 0) by (cbn; lra).
  split; [exact H0 |].
  destruct (step_defined coin cdf_near rvs_mean 1 quiet_sim) as [s1 E1];
    [exact pair_heap_velocity | cbn; lra | right; cbn; lra |].
  destruct (step_keeps coin cdf_near rvs_mean 1 quiet_sim s1
              pair_heap_velocity E1) as (Hv1 & Hw1 & Hr1 & _).
  destruct (step_defined coin cdf_near rvs_mean 1 s1) as [s2 E2];
    [exact Hv1 | rewrite Hw1; cbn; lra | apply Hr1; right; cbn; lra |].
  assert (Hrun : Simulation.run coin cdf_near rvs_mean
                   [Simulation.Step 1; Simulation.Step 1] quiet_sim = Some s2).
  { unfold Simulation.run.
    rewrite for_each_cons. cbn [Simulation.exec]. rewrite E1.
    rewrite for_each_cons. cbn [Simulation.exec]. rewrite E2.
    reflexivity. }
  exists s2. split; [exact Hrun |].
  exact (meetings_disabled coin cdf_near rvs_mean _ quiet_sim s2 H0 Hrun).
Defined.

Lemma run_clock_witness :
  exists s2,
    Simulation.run coin cdf_near rvs_mean
      [Simulation.Step 1; Simulation.AddActor 2%nat; Simulation.Step 0.5]
      quiet_sim = Some s2
    /\ Simulation.time s2 = 0 + (1 + (0.5 + 0)).
Proof.
  destruct (step_defined coin cdf_near rvs_mean 1 quiet_sim) as [s1 E1];
    [exact pair_heap_velocity | cbn; lra | right; cbn; lra |].
  destruct (step_keeps coin cdf_near rvs_mean 1 quiet_sim s1
              pair_heap_velocity E1) as (Hv1 & Hw1 & Hr1 & _).
  destruct (step_defined coin cdf_near rvs_mean 0.5
              (Simulation.addActor 2%nat s1)) as [s2 E2];
    [exact Hv1 | cbn; rewrite Hw1; cbn; lra | apply Hr1; right; cbn; lra |].
  assert (Hrun : Simulation.run coin cdf_near rvs_mean
                   [Simulation.Step 1; Simulation.AddActor 2%nat;
                    Simulation.Step 0.5] quiet_sim = Some s2).
  { unfold Simulation.run.
    rewrite for_each_cons. cbn [Simulation.exec]. rewrite E1.
    rewrite for_each_cons. cbn [Simulation.exec].
    rewrite for_each_cons. cbn [Simulation.exec]. rewrite E2.
    reflexivity. }
  exists s2. split; [exact Hrun |].
  exact (run_clock coin cdf_near rvs_mean _ quiet_sim s2 Hrun).
Defined.

Lemma step_live_collection_witness :
  NoDup (Simulation.actors quiet_sim)
  /\ exists s1,
       Simulation.step coin cdf_near rvs_mean 1 quiet_sim = Some s1
       /\ NoDup (Simulation.actors s1)
       /\ forall l, In l (Simulation.actors s1) ->
            Actor.included (Simulation.heap s1 l) = true.
Proof.
  assert (Hnd : NoDup (Simulation.actors quiet_sim)).
  { cbn. repeat constructor; cbn; intuition discriminate. }
  split; [exact Hnd |].
  destruct (step_defined coin cdf_near rvs_mean 1 quiet_sim) as [s1 E];
    [exact pair_heap_velocity | cbn; lra | right; cbn; lra |].
  exists s1. split; [exact E |].
  destruct (step_live_collection coin cdf_near rvs_mean 1 quiet_sim s1 Hnd E)
    as (_ & Hnd1 & Hall).
  split; [exact Hnd1 |].
  intros l Hl. exact (proj1 (Hall l Hl)).
Defined.

Lemma step_moves_free_actor_witness :
  exists s1,
    Simulation.step coin cdf_near rvs_mean 1 exit_sim = Some s1
    /\ Actor.x (Simulation.heap s1 0%nat) = 199 + 5 * 1
    /\ Actor.y (Simulation.heap s1 0%nat) = 0 + 0 * 1.
Proof.
  destruct (step_defined coin cdf_near rvs_mean 1 exit_sim) as [s1 E].
  - intros k. split; discriminate.
  - cbn. lra.
  - right. cbn. lra.
  - exists s1. split; [exact E |].
    assert (H0 : NoDup (Simulation.actors exit_sim)).
    { cbn. repeat constructor. intros []. }
    assert (H1 : In 0%nat (Simulation.actors exit_sim))
      by (left; reflexivity).
    assert (H2 : Actor.included (Simulation.heap exit_sim 0%nat) = true)
      by reflexivity.
    assert (H3 : ~ in_active_meeting exit_sim
                     (Actor.id (Simulation.heap exit_sim 0%nat))
                     (Simulation.time exit_sim + 1))
      by (intros [m [[] _]]).
    destruct (step_moves_free_actor coin cdf_near rvs_mean 1 exit_sim s1
                0%nat H0 H1 H2 H3 E) as (xc & yc & Hxc & Hyc & Hx & Hy & _).
    cbn in Hxc, Hyc. injection Hxc as <-. injection Hyc as <-.
    split; [exact Hx | exact Hy].
Defined.

Lemma step_raises_without_velocity_witness :
  Actor.xComponent (Simulation.heap fresh_sim 0%nat) = None
  /\ Actor.updatePosition 1 (Simulation.heap fresh_sim 0%nat) = None
  /\ Simulation.step coin cdf_near rvs_mean 1 fresh_sim = None.
Proof.
  assert (H1 : In 0%nat (Simulation.actors fresh_sim))
    by (left; reflexivity).
  assert (H2 : Actor.included (Simulation.heap fresh_sim 0%nat) = true)
    by reflexivity.
  assert (H3 : ~ in_active_meeting fresh_sim
                   (Actor.id (Simulation.heap fresh_sim 0%nat))
                   (Simulation.time fresh_sim + 1))
    by (intros [m [[] _]]).
  assert (H4 : Actor.xComponent (Simulation.heap fresh_sim 0%nat) = None)
    by reflexivity.
  split; [exact H4 |].
  exact (step_raises_without_velocity coin cdf_near rvs_mean 1 fresh_sim
           0%nat H1 H2 H3 (or_introl H4)).
Defined.

Lemma meeting_freezes_participant_witness :
  exists s2,
    Simulation.run coin cdf_near rvs_mean
      (map Simulation.Step [1; 1]) frozen_sim = Some s2
    /\ Simulation.heap s2 0%nat = alice
    /\ In 0%nat (Simulation.actors s2).
Proof.
  destruct (step_defined coin cdf_near rvs_mean 1 frozen_sim) as [s1 E1];
    [exact pair_heap_velocity | cbn; lra | right; cbn; lra |].
  destruct (step_keeps coin cdf_near rvs_mean 1 frozen_sim s1
              pair_heap_velocity E1) as (Hv1 & Hw1 & Hr1 & _).
  destruct (step_defined coin cdf_near rvs_mean 1 s1) as [s2 E2];
    [exact Hv1 | rewrite Hw1; cbn; lra | apply Hr1; right; cbn; lra |].
  assert (Hrun : Simulation.run coin cdf_near rvs_mean
                   (map Simulation.Step [1; 1]) frozen_sim = Some s2).
  { unfold Simulation.run. cbn [map].
    rewrite for_each_cons. cbn [Simulation.exec]. rewrite E1.
    rewrite for_each_cons. cbn [Simulation.exec]. rewrite E2.
    reflexivity. }
  exists s2. split; [exact Hrun |].
  assert (H1 : In 0%nat (Simulation.actors frozen_sim))
    by (left; reflexivity).
  assert (H2 : Actor.included (Simulation.heap frozen_sim 0%nat) = true)
    by reflexivity.
  assert (H3 : In (Meeting.mk 0 300 [1%Z; 2%Z])
                  (Simulation.meetings frozen_sim))
    by (left; reflexivity).
  assert (H4 : In (Actor.id (Simulation.heap frozen_sim 0%nat))
                  (Meeting.participants (Meeting.mk 0 300 [1%Z; 2%Z])))
    by (left; reflexivity).
  assert (H5 : within (Meeting.mk 0 300 [1%Z; 2%Z])
                 (Simulation.time frozen_sim) [1; 1])
    by (cbn; lra).
  exact (meeting_freezes_participant coin cdf_near rvs_mean [1; 1]
           frozen_sim s2 0%nat _ H1 H2 H3 H4 H5 Hrun).
Defined.

Lemma noneNamer_returns (a : Actor.t) : noneNamer a <> None.
Proof. discriminate. Qed.

Lemma generateActors_returns_witness :
  exists actors,
    generateActors north quarter rvs_mean 1 "fixed" 13 "fixed" 1.5
      "fixed" 1.5 noneNamer 2 = Some actors
    /\ List.length actors = 2%nat.
Proof.
  exact (generateActors_returns north quarter rvs_mean 1 "fixed" 13
           "fixed" 1.5 "fixed" 1.5 noneNamer 2 noneNamer_returns).
Defined.

Lemma generateActors_namer_raises_witness :
  generateActors north quarter rvs_mean 1 "fixed" 13.5 "fixed" 1.5
    "fixed" 1.5 (txPowerNamer format_float) 2 = None.
Proof.
  destruct (buildActor_fields north quarter rvs_mean 1 "fixed" 13.5
              "fixed" 1.5 "fixed" 1.5 1 (1 * draws "fixed" "fixed" "fixed"))
    as (built & Hb & _).
  apply (generateActors_namer_raises north quarter rvs_mean 1 "fixed" 13.5
           "fixed" 1.5 "fixed" 1.5 (txPowerNamer format_float) 2 1 built _
           (Nat.lt_succ_diag_r 1) Hb).
  reflexivity.
Defined.

Lemma generateActors_ids_witness :
  exists actors,
    generateActors north quarter rvs_mean 1 "gaussian" 13 "fixed" 1.5
      "fixed" 1.5 noneNamer 3 = Some actors
    /\ map Actor.id actors = [1%Z; 2%Z; 3%Z].
Proof.
  destruct (generateActors_defined north quarter rvs_mean 1 "gaussian" 13
              "fixed" 1.5 "fixed" 1.5 noneNamer 3 noneNamer_returns)
    as (actors & E & _).
  exists actors. split; [exact E |].
  exact (generateActors_ids north quarter rvs_mean 1 "gaussian" 13
           "fixed" 1.5 "fixed" 1.5 noneNamer 3 actors
           noneNamer_names_only E).
Defined.

Lemma generateActors_on_circle_witness :
  exists actors a,
    generateActors north quarter rvs_mean 1 "fixed" 13 "fixed" 1.5
      "fixed" 1.5 noneNamer 1 = Some actors
    /\ nth_error actors 0 = Some a
    /\ Actor.x a * Actor.x a + Actor.y a * Actor.y a = 200 * 200
    /\ Actor.included a = true.
Proof.
  destruct (generateActors_defined north quarter rvs_mean 1 "fixed" 13
              "fixed" 1.5 "fixed" 1.5 noneNamer 1 noneNamer_returns)
    as (actors & E & Hlen).
  destruct actors as [| a rest]; [discriminate Hlen |].
  exists (a :: rest), a. split; [exact E |]. split; [reflexivity |].
  destruct (generateActors_on_circle north quarter rvs_mean 1 "fixed" 13
              "fixed" 1.5 "fixed" 1.5 noneNamer 1 (a :: rest) 0 a
              noneNamer_names_only E eq_refl)
    as (_ & _ & Hc & _ & _ & Hi & _).
  split; [exact Hc | exact Hi].
Defined.

Lemma generateActors_heads_inward_witness :
  exists actors a a',
    generateActors north quarter rvs_mean 1 "fixed" 13 "fixed" 1.5
      "fixed" 1.5 noneNamer 1 = Some actors
    /\ nth_error actors 0 = Some a
    /\ Actor.updatePosition 100 a = Some (tt, a')
    /\ -200 <= Actor.x a' <= 200
    /\ -200 <= Actor.y a' <= 200.
Proof.
  destruct (generateActors_defined north quarter rvs_mean 1 "fixed" 13
              "fixed" 1.5 "fixed" 1.5 noneNamer 1 noneNamer_returns)
    as (actors & E & Hlen).
  destruct actors as [| a rest]; [discriminate Hlen |].
  destruct (generateActors_heads_inward north quarter rvs_mean 1 "fixed" 13
              "fixed" 1.5 "fixed" 1.5 noneNamer 1 (a :: rest) 0 a 100
              noneNamer_names_only E eq_refl)
    as (a' & Hu & _ & Hin).
  exists (a :: rest), a, a'. split; [exact E |]. split; [reflexivity |].
  split; [exact Hu |].
  apply Hin. unfold quarter. rewrite sin_PI2. lra.
Defined.

Lemma generateActors_gaussian_power_witness :
  exists actors a z,
    generateActors north quarter rvs_mean 1 "gaussian" 13 "fixed" 1.5
      "fixed" 1.5 noneNamer 1 = Some actors
    /\ nth_error actors 0 = Some a
    /\ Actor.powerTx a = IZR z
    /\ (0 <= z)%Z.
Proof.
  destruct (generateActors_defined north quarter rvs_mean 1 "gaussian" 13
              "fixed" 1.5 "fixed" 1.5 noneNamer 1 noneNamer_returns)
    as (actors & E & Hlen).
  destruct actors as [| a rest]; [discriminate Hlen |].
  destruct (generateActors_gaussian_power north quarter rvs_mean 1
              "gaussian" 13 "fixed" 1.5 "fixed" 1.5 noneNamer 1
              (a :: rest) 0 a noneNamer_names_only eq_refl E eq_refl)
    as (z & Hp & Hz & _).
  exists (a :: rest), a, z. split; [exact E |]. split; [reflexivity |].
  split; [exact Hp | exact Hz].
Defined.

Lemma drive_is_run_witness :
  drive coin cdf_near rvs_mean 2 1 1 (Own [2%nat; 3%nat]) quiet_sim
  = Simulation.run coin cdf_near rvs_mean
      [Simulation.AddActor 2%nat; Simulation.Step 1;
       Simulation.AddActor 3%nat; Simulation.Step 1] quiet_sim.
Proof.
  apply (drive_is_run coin cdf_near rvs_mean 2 1 1 (Own [2%nat; 3%nat])
           quiet_sim).
  cbn. lia.
Defined.

Lemma drive_index_error_witness :
  drive coin cdf_near rvs_mean 2 1 1 (Own [2%nat]) quiet_sim = None.
Proof.
  apply (drive_index_error coin cdf_near rvs_mean 2 1 1 [2%nat] quiet_sim).
  cbn. lia.
Defined.

Lemma drive_returns_witness :
  exists s',
    drive coin cdf_near rvs_mean 2 1 1 (Own [2%nat; 3%nat]) quiet_sim
    = Some s'
    /\ Simulation.time s' = 0 + INR 2 * 1.
Proof.
  destruct (drive_returns coin cdf_near rvs_mean 2 1 1 (Own [2%nat; 3%nat])
              quiet_sim pair_heap_velocity) as (s' & E & Ht & _).
  - cbn. lra.
  - right. cbn. lra.
  - cbn. lia.
  - exists s'. split; [exact E | exact Ht].
Defined.

Lemma generateActors_gains_witness :
  exists actors a z,
    generateActors north quarter rvs_mean 1 "gaussian" 13 "gaussian" 1.5
      "fixed" 1.5 noneNamer 1 = Some actors
    /\ nth_error actors 0 = Some a
    /\ Actor.gainTx a = IZR z / 2
    /\ (0 <= z)%Z
    /\ Actor.gainRx a = 1.5.
Proof.
  destruct (generateActors_defined north quarter rvs_mean 1 "gaussian" 13
              "gaussian" 1.5 "fixed" 1.5 noneNamer 1 noneNamer_returns)
    as (actors & E & Hlen).
  destruct actors as [| a rest]; [discriminate Hlen |].
  destruct (generateActors_gains north quarter rvs_mean 1
              "gaussian" 13 "gaussian" 1.5 "fixed" 1.5 noneNamer 1
              (a :: rest) 0 a noneNamer_names_only E eq_refl)
    as (Hg & _ & _ & _ & Hr).
  destruct (Hg eq_refl) as (z & Hz & Hpos & _).
  exists (a :: rest), a, z. split; [exact E |]. split; [reflexivity |].
  split; [exact Hz |]. split; [exact Hpos |].
  apply Hr. discriminate.
Defined.

Lemma txPowerNamer_013_returns (a : Actor.t) :
  txPowerNamer format_013 a <> None.
Proof. discriminate. Qed.

Lemma rxGainNamer_013_returns (a : Actor.t) :
  rxGainNamer format_013 a <> None.
Proof. discriminate. Qed.

Lemma generateActors_txPowerNamer_models_witness :
  exists actors a,
    generateActors north quarter rvs_mean 1 "fixed" 13 "fixed" 1.5
      "fixed" 1.5 (txPowerNamer format_013) 1 = Some actors
    /\ nth_error actors 0 = Some a
    /\ Actor.deviceModel a = "model013"%string.
Proof.
  destruct (generateActors_defined north quarter rvs_mean 1 "fixed" 13
              "fixed" 1.5 "fixed" 1.5 (txPowerNamer format_013) 1
              txPowerNamer_013_returns)
    as (actors & E & Hlen).
  destruct actors as [| a rest]; [discriminate Hlen |].
  destruct (generateActors_txPowerNamer_models north quarter rvs_mean 1
              "fixed" 13 "fixed" 1.5 "fixed" 1.5 format_013 1
              (a :: rest) 0 a E eq_refl)
    as (digits & Hf & Hd).
  exists (a :: rest), a. split; [exact E |]. split; [reflexivity |].
  injection Hf as <-. exact Hd.
Defined.

Lemma generateActors_rxGainNamer_one_model_witness :
  exists actors a,
    generateActors north quarter rvs_mean 1 "gaussian" 13 "fixed" 1.5
      "fixed" 13 (rxGainNamer format_013) 1 = Some actors
    /\ nth_error actors 0 = Some a
    /\ Actor.deviceModel a = "modelGainRx013"%string.
Proof.
  destruct (generateActors_defined north quarter rvs_mean 1 "gaussian" 13
              "fixed" 1.5 "fixed" 13 (rxGainNamer format_013) 1
              rxGainNamer_013_returns)
    as (actors & E & Hlen).
  destruct actors as [| a rest]; [discriminate Hlen |].
  assert (Hm : "fixed"%string <> "gaussian"%string) by discriminate.
  destruct (generateActors_rxGainNamer_one_model north quarter rvs_mean 1
              "gaussian" 13 "fixed" 1.5 "fixed" 13 format_013 1
              (a :: rest) 0 a Hm E eq_refl)
    as (digits & Hf & Hd).
  exists (a :: rest), a. split; [exact E |]. split; [reflexivity |].
  injection Hf as <-. exact Hd.
Defined.
